(** * BSignals: the signal/slot dispatch engine [SignalImpl]

    A shallow embedding of [inc/BSignals/details/SignalImpl.hpp], with the
    properties of the engine proved over it.  The queue, the semaphore and the
    thread pool the engine uses are modelled from their description, their
    code not being among the sources.

    Conventions of the embedding.
    - [uint32_t] values are integers in [[0, 2^32)]; [fetch_add] wraps, and the
      [(int)] cast of the returned id is written out ([to_int]).
    - A [std::map<uint32_t, V>] is a key-sorted association list ([StdMap]);
      a range-for over it visits the list from left to right.
    - A [std::function<void(Args...)>] slot is a value of an abstract type
      [Slot]; calling it is recorded as an event.  Slots are taken to return
      normally and not to call back into the engine.
    - A [std::function<void()>] task is [option Closure]: [None] is the empty
      function ([nullptr]).
    - Every member function is a computation in the monad [M]: it threads the
      object and the process-wide thread pool, and records what it did, in
      program order, as a list of events.  A public member function is one
      atomic transition, which is what [signalLock] gives; the lock itself is
      not represented.
    - Threads (strand listeners, detached threads, pool workers) are part of
      the state and advance by their own transitions.  Where a caller blocks
      ([join], [acquire]) the thread it waits for is run until the caller can
      go on; a caller that would wait for ever stops with [Deadlock]. *)

From Stdlib Require Import ZArith List Bool Lia Sorted.
Import ListNotations.
Local Open Scope Z_scope.

(** ** Machine integers *)

Definition UINT32_MOD : Z := 2 ^ 32.
Definition INT32_MAX : Z := 2 ^ 31 - 1.

(** Arithmetic of [uint32_t]. *)
Definition wrap32 (z : Z) : Z := z mod UINT32_MOD.

(** The cast [(int)id] of a [uint32_t]. *)
Definition to_int (z : Z) : Z := if z <=? INT32_MAX then z else z - UINT32_MOD.

(** ** [std::map<uint32_t, V>] *)

Module StdMap.

Definition t (V : Type) : Type := list (Z * V).

Section Ops.
Context {V : Type}.

Definition keys (m : t V) : list Z := map fst m.

Fixpoint find (k : Z) (m : t V) : option V :=
  match m with
  | [] => None
  | (k', v) :: m' => if k' =? k then Some v else find k m'
  end.

(** [m.count(k)], as a truth value. *)
Definition count (k : Z) (m : t V) : bool :=
  match find k m with Some _ => true | None => false end.

(** [m.emplace(k, v)]: nothing happens when the key is present. *)
Fixpoint emplace (k : Z) (v : V) (m : t V) : t V :=
  match m with
  | [] => [(k, v)]
  | (k', v') :: m' =>
      if k <? k' then (k, v) :: m
      else if k =? k' then m
      else (k', v') :: emplace k v m'
  end.

(** [m.erase(k)]. *)
Definition erase (k : Z) (m : t V) : t V :=
  filter (fun kv => negb (fst kv =? k)) m.

(** The insertion done by [m[k]] when the key is absent. *)
Definition subscript (k : Z) (dflt : V) (m : t V) : t V :=
  if count k m then m else emplace k dflt m.

(** Assignment through the reference [m[k]] of a present key. *)
Fixpoint update (k : Z) (f : V -> V) (m : t V) : t V :=
  match m with
  | [] => []
  | (k', v) :: m' =>
      if k' =? k then (k', f v) :: m' else (k', v) :: update k f m'
  end.

Definition sorted (m : t V) : Prop := StronglySorted Z.lt (keys m).

End Ops.

Section Facts.
Context {V : Type}.
Implicit Types (m : t V) (k : Z).

Lemma count_true_iff k m : count k m = true <-> In k (keys m).
Proof.
  unfold count. induction m as [|[k' v] m IH]; simpl.
  - split; [discriminate | tauto].
  - destruct (Z.eqb_spec k' k) as [->|Hne].
    + split; auto.
    + rewrite IH. split; [auto | intros [H|H]; [contradiction | exact H]].
Qed.

Lemma count_false_iff k m : count k m = false <-> ~ In k (keys m).
Proof.
  rewrite <- count_true_iff. destruct (count k m); split; congruence.
Qed.

Lemma keys_emplace k v m k' :
  In k' (keys (emplace k v m)) <-> k' = k \/ In k' (keys m).
Proof.
  induction m as [|[k0 v0] m IH]; simpl.
  - intuition.
  - destruct (Z.ltb_spec k k0).
    + simpl. intuition.
    + destruct (Z.eqb_spec k k0) as [->|Hne]; simpl.
      * intuition.
      * rewrite IH. intuition.
Qed.

Lemma keys_erase k m k' :
  In k' (keys (erase k m)) <-> k' <> k /\ In k' (keys m).
Proof.
  unfold erase, keys. induction m as [|[k0 v0] m IH]; simpl.
  - tauto.
  - destruct (Z.eqb_spec k0 k) as [->|Hne]; simpl.
    + rewrite IH. intuition congruence.
    + rewrite IH. intuition congruence.
Qed.

Lemma keys_update k f m : keys (update k f m) = keys m.
Proof.
  induction m as [|[k0 v0] m IH]; simpl; auto.
  destruct (k0 =? k); simpl; congruence.
Qed.

Lemma emplace_sorted k v m : sorted m -> sorted (emplace k v m).
Proof.
  unfold sorted. induction m as [|[k0 v0] m IH]; simpl; intros Hs.
  - repeat constructor.
  - destruct (Z.ltb_spec k k0).
    + simpl. constructor; auto.
      inversion Hs; subst. constructor; auto.
      eapply Forall_impl; [|eassumption]. simpl. intros; lia.
    + destruct (Z.eqb_spec k k0) as [->|Hne]; auto.
      simpl. inversion Hs; subst. constructor; auto.
      apply Forall_forall. intros x Hx.
      change (In x (keys (emplace k v m))) in Hx.
      apply keys_emplace in Hx. destruct Hx as [->|Hx]; [lia|].
      rewrite Forall_forall in H3. auto.
Qed.

Lemma erase_sorted k m : sorted m -> sorted (erase k m).
Proof.
  unfold sorted. induction m as [|[k0 v0] m IH]; simpl; intros Hs; auto.
  inversion Hs; subst.
  destruct (k0 =? k); simpl; auto.
  constructor; auto.
  apply Forall_forall. intros x Hx.
  change (In x (keys (erase k m))) in Hx.
  apply keys_erase in Hx. rewrite Forall_forall in H2. apply H2, Hx.
Qed.

Lemma update_sorted k f m : sorted m -> sorted (update k f m).
Proof. unfold sorted. now rewrite keys_update. Qed.

Lemma subscript_sorted k d m : sorted m -> sorted (subscript k d m).
Proof. unfold subscript. destruct (count k m); auto using emplace_sorted. Qed.

Lemma erase_absent k m : count k m = false -> erase k m = m.
Proof.
  rewrite count_false_iff. unfold erase.
  induction m as [|[k0 v0] m IH]; simpl; intros Hn; auto.
  destruct (Z.eqb_spec k0 k) as [->|Hne]; simpl.
  - exfalso. auto.
  - f_equal. auto.
Qed.

Lemma count_erase_same k m : count k (erase k m) = false.
Proof. apply count_false_iff. rewrite keys_erase. tauto. Qed.

Lemma count_erase_other k k' m : k' <> k -> count k' (erase k m) = count k' m.
Proof.
  intros Hne. destruct (count k' m) eqn:E.
  - apply count_true_iff. apply keys_erase. split; auto.
    now apply count_true_iff.
  - apply count_false_iff. rewrite keys_erase.
    apply count_false_iff in E. tauto.
Qed.

Lemma count_emplace k v m k' :
  count k' (emplace k v m) = (k' =? k) || count k' m.
Proof.
  destruct ((k' =? k) || count k' m) eqn:E.
  - apply count_true_iff, keys_emplace.
    apply orb_true_iff in E. destruct E as [E|E].
    + left. now apply Z.eqb_eq.
    + right. now apply count_true_iff.
  - apply count_false_iff. rewrite keys_emplace.
    apply orb_false_iff in E. destruct E as [E1 E2].
    apply Z.eqb_neq in E1. apply count_false_iff in E2. tauto.
Qed.

(** Inserting a key above every key of the map appends the entry. *)
Lemma emplace_above k v m :
  Forall (fun k' => k' < k) (keys m) -> emplace k v m = m ++ [(k, v)].
Proof.
  induction m as [|[k0 v0] m IH]; simpl; intros Hall; auto.
  inversion Hall; subst.
  destruct (Z.ltb_spec k k0); [lia|].
  destruct (Z.eqb_spec k k0); [lia|].
  f_equal. auto.
Qed.

Lemma find_some_count k m v : find k m = Some v -> count k m = true.
Proof. unfold count. now intros ->. Qed.

Lemma find_none_count k m : find k m = None <-> count k m = false.
Proof. unfold count. destruct (find k m); split; congruence. Qed.

Lemma count_find k m : count k m = true -> exists v, find k m = Some v.
Proof. unfold count. destruct (find k m) as [v|]; [eauto | discriminate]. Qed.

Lemma find_emplace_other k v m k' : k' <> k -> find k' (emplace k v m) = find k' m.
Proof.
  intros Hne. induction m as [|[k0 v0] m IH]; simpl.
  - destruct (Z.eqb_spec k k'); congruence.
  - destruct (Z.ltb_spec k k0); simpl.
    + destruct (Z.eqb_spec k k'); congruence.
    + destruct (Z.eqb_spec k k0); simpl; auto.
      destruct (k0 =? k'); auto.
Qed.

Lemma find_emplace_same k v m : count k m = false -> find k (emplace k v m) = Some v.
Proof.
  unfold count. induction m as [|[k0 v0] m IH]; simpl.
  - now rewrite Z.eqb_refl.
  - destruct (Z.eqb_spec k0 k) as [->|Hne]; [discriminate|]. intros Hc.
    destruct (Z.ltb_spec k k0); simpl.
    + now rewrite Z.eqb_refl.
    + destruct (Z.eqb_spec k k0); [congruence|]. simpl.
      destruct (Z.eqb_spec k0 k); [congruence|]. auto.
Qed.

Lemma find_erase_same k m : find k (erase k m) = None.
Proof. apply find_none_count, count_erase_same. Qed.

Lemma find_erase_other k m k' : k' <> k -> find k' (erase k m) = find k' m.
Proof.
  intros Hne. unfold erase. induction m as [|[k0 v0] m IH]; simpl; auto.
  destruct (Z.eqb_spec k0 k) as [->|Hn0]; simpl.
  - destruct (Z.eqb_spec k k'); [congruence | auto].
  - destruct (k0 =? k'); auto.
Qed.

Lemma find_update_same k f m v : find k m = Some v -> find k (update k f m) = Some (f v).
Proof.
  induction m as [|[k0 v0] m IH]; simpl; [discriminate|].
  destruct (Z.eqb_spec k0 k) as [->|Hne]; simpl.
  - rewrite Z.eqb_refl. congruence.
  - destruct (Z.eqb_spec k0 k); [congruence | auto].
Qed.

Lemma find_update_other k f m k' : k' <> k -> find k' (update k f m) = find k' m.
Proof.
  intros Hne. induction m as [|[k0 v0] m IH]; simpl; auto.
  destruct (Z.eqb_spec k0 k) as [->|Hn0]; simpl.
  - destruct (Z.eqb_spec k k'); [congruence | auto].
  - destruct (k0 =? k'); auto.
Qed.

Lemma count_update k f m k' : count k' (update k f m) = count k' m.
Proof.
  destruct (count k' m) eqn:E.
  - apply count_true_iff. rewrite keys_update. now apply count_true_iff.
  - apply count_false_iff. rewrite keys_update. now apply count_false_iff.
Qed.

Lemma count_subscript k d m k' :
  count k' (subscript k d m) = (k' =? k) || count k' m.
Proof.
  unfold subscript. destruct (count k m) eqn:E.
  - destruct (Z.eqb_spec k' k) as [->|]; simpl; auto.
  - apply count_emplace.
Qed.

Lemma find_subscript_same k d m :
  find k (subscript k d m) = Some (match find k m with Some v => v | None => d end).
Proof.
  unfold subscript. destruct (count k m) eqn:E.
  - apply count_find in E. destruct E as [v ->]. reflexivity.
  - rewrite find_emplace_same by assumption.
    apply find_none_count in E. now rewrite E.
Qed.

Lemma find_subscript_other k d m k' :
  k' <> k -> find k' (subscript k d m) = find k' m.
Proof.
  intros Hne. unfold subscript.
  destruct (count k m); auto using find_emplace_other.
Qed.

Lemma update_update k f g m :
  update k g (update k f m) = update k (fun v => g (f v)) m.
Proof.
  induction m as [|[k0 v0] m IH]; simpl; auto.
  destruct (Z.eqb_spec k0 k) as [->|Hne]; simpl.
  - now rewrite Z.eqb_refl.
  - destruct (Z.eqb_spec k0 k); [congruence|]. now rewrite IH.
Qed.

Lemma update_same k m v : find k m = Some v -> update k (fun _ => v) m = m.
Proof.
  induction m as [|[k0 v0] m IH]; simpl; auto.
  destruct (Z.eqb_spec k0 k) as [->|Hne].
  - now intros [= ->].
  - intros H. now rewrite IH.
Qed.

Lemma erase_update k f m : erase k (update k f m) = erase k m.
Proof.
  unfold erase. induction m as [|[k0 v0] m IH]; simpl; auto.
  destruct (Z.eqb_spec k0 k) as [->|Hne]; simpl.
  - now rewrite Z.eqb_refl.
  - destruct (Z.eqb_spec k0 k); [congruence|]. simpl. now rewrite IH.
Qed.

Lemma erase_emplace k v m : erase k (emplace k v m) = erase k m.
Proof.
  unfold erase. induction m as [|[k0 v0] m IH]; simpl.
  - now rewrite Z.eqb_refl.
  - destruct (Z.ltb_spec k k0); simpl.
    + now rewrite Z.eqb_refl.
    + destruct (Z.eqb_spec k k0) as [->|Hne]; simpl; auto.
      destruct (Z.eqb_spec k0 k); [congruence|]. simpl. now rewrite IH.
Qed.

Lemma erase_subscript k d m : erase k (subscript k d m) = erase k m.
Proof. unfold subscript. destruct (count k m); auto using erase_emplace. Qed.

Lemma find_In k m v : find k m = Some v -> In (k, v) m.
Proof.
  induction m as [|[k0 v0] m IH]; simpl; [discriminate|].
  destruct (Z.eqb_spec k0 k) as [->|Hne].
  - intros [= ->]. now left.
  - intros H. right. auto.
Qed.

End Facts.

Arguments erase : simpl never.
Arguments subscript : simpl never.

End StdMap.

(** ** The data model *)

(** [enum class ExecutorScheme]: a scoped enumeration over [int], so a value
    of the type may be any [int], named or not. *)
Definition ExecutorScheme : Type := Z.
Definition SYNCHRONOUS : ExecutorScheme := 0.
Definition ASYNCHRONOUS : ExecutorScheme := 1.
Definition STRAND : ExecutorScheme := 2.
Definition THREAD_POOLED : ExecutorScheme := 3.

(** The four slot maps, as [getSlotMap] and [findSlotMapWithId] point at them. *)
Inductive SlotMapRef : Type :=
| SynchronousSlots
| AsynchronousSlots
| StrandSlots
| ThreadPooledSlots.

Definition SlotMapRef_eqb (a b : SlotMapRef) : bool :=
  match a, b with
  | SynchronousSlots, SynchronousSlots
  | AsynchronousSlots, AsynchronousSlots
  | StrandSlots, StrandSlots
  | ThreadPooledSlots, ThreadPooledSlots => true
  | _, _ => false
  end.

(** Where a strand listener stands in its loop. *)
Inductive ListenerPc : Type :=
| AtLoopTest   (* about to evaluate [while (func)] *)
| AtMaxCheck   (* about to evaluate [if (waitTime > maxWait)] *)
| Finished.    (* [queueListener] has returned *)

(** Which thread performs a call. *)
Inductive ThreadId : Type :=
| Caller                     (* the thread inside the public member function *)
| StrandThread (id : Z)
| DetachedThread.

(** What can stop a member function from returning. *)
Inductive Failure : Type :=
| Deadlock      (* the caller waits for something that never happens *)
| Terminate     (* [std::terminate]: a joinable [std::thread] is destroyed *)
| SystemError.  (* [std::system_error]: [join] on a thread that is not joinable *)

Section Engine.

(** The slot type [std::function<void(Args...)>] and the argument tuple. *)
Context {Slot Args : Type}.

(** [WheeledThreadPool::getMaxWait()], in nanoseconds.  [WheeledThreadPool.h]
    is not among the sources; the constant is a parameter. *)
Variable maxWait : Z.

(** The wait time a listener starts from, [std::chrono::nanoseconds(1)].
    [waitTime] is a [duration<double>]; it only ever holds the minimum
    times a power of two, which doubling computes exactly, so it is kept as
    a number of nanoseconds. *)
Definition minWait : Z := 1.

(** A non-empty [std::function<void()>].  [Bound f p] is a lambda that
    calls a slot with the arguments [p], which it holds by value.  The lambda
    of [runAsynchronous] holds the slot by value as well; those of
    [runStrands] and [runThreadPooled] hold a reference to the slot in its
    map, and [f] is the slot the reference points at when the lambda is
    made.  An entry of a slot map is never assigned to, so the reference
    leads to [f] for as long as the entry is in the map. *)
Inductive Closure : Type :=
| NopLambda                        (* [[](){}] *)
| Bound (f : Slot) (p : Args).     (* [[&function, p...](){function(p...);}] *)

Definition Task : Type := option Closure.

(** Modelled from the spec: [MPSCQueue<T>] ([MPSCQueue.hpp] is not among
    the sources).  An unbounded first-in first-out queue:
    [enqueue] appends, [dequeue] takes the oldest entry or reports an empty
    queue, [blockingDequeue] waits until there is an entry. *)
Definition MPSCQueue : Type := list Task.

(** A [std::thread] of [strandThreads]: a default-constructed handle, or
    the listener with its local variables. *)
Inductive Thread : Type :=
| NotAThread
| Listener (func : Task) (waitTime : Z) (pc : ListenerPc).

(** Modelled from the spec: [Semaphore] (of which [Semaphore.h] declares the
    members and no more).
    [acquire] waits until the counter is positive and decrements it;
    [release] increments it. *)
Record Semaphore : Type := { semCounter : Z }.

(** Modelled from the spec: [WheeledThreadPool] ([WheeledThreadPool.h] is not
    among the sources).  [startup] is guarded by a one-time initialisation flag;
    [poolStartups] counts how often the workers were really started. *)
Record WheeledThreadPool : Type := {
  poolStarted : bool;
  poolStartups : nat;
  poolQueue : MPSCQueue
}.

(** The data members of [SignalImpl<Args...>].  [detached] is not a member:
    it lists the detached threads of [runAsynchronous] that captured
    [this] and have not run yet. *)
Record SignalImpl : Type := {
  currentId : Z;
  sem : Semaphore;
  enableEmissionGuard : bool;
  strandQueues : StdMap.t MPSCQueue;
  strandThreads : StdMap.t Thread;
  synchronousSlots : StdMap.t Slot;
  asynchronousSlots : StdMap.t Slot;
  strandSlots : StdMap.t Slot;
  threadPooledSlots : StdMap.t Slot;
  detached : list (Slot * Args)
}.

(** [SignalImpl(bool enforceThreadSafety, uint32_t maxAsyncThreads)]; the
    other constructors leave the defaults [false] and [1024]. *)
Definition newSignal (enforceThreadSafety : bool) (maxAsyncThreads : Z)
  : SignalImpl :=
  {| currentId := 0;
     sem := {| semCounter := maxAsyncThreads |};
     enableEmissionGuard := enforceThreadSafety;
     strandQueues := []; strandThreads := [];
     synchronousSlots := []; asynchronousSlots := [];
     strandSlots := []; threadPooledSlots := [];
     detached := [] |}.

Definition defaultSignal : SignalImpl := newSignal false 1024.

Definition newPool : WheeledThreadPool :=
  {| poolStarted := false; poolStartups := 0%nat; poolQueue := [] |}.

(** The object together with the process-wide pool. *)
Record State : Type := { signal : SignalImpl; pool : WheeledThreadPool }.

(** What a member function does, in program order. *)
Inductive Event : Type :=
| EvInvoke (who : ThreadId) (f : Slot) (p : Args)  (* [function(p...)] *)
| EvSemAcquire                                     (* [sem.acquire()] returned *)
| EvSemRelease                                     (* [sem.release()] *)
| EvSpawnDetached (f : Slot) (p : Args)            (* [slotThread.detach()] *)
| EvSpawnListener (id : Z)                         (* [std::thread(&queueListener, this, id)] *)
| EvEnqueue (id : Z) (t : Task)                    (* [strandQueues[id].enqueue(t)] *)
| EvSleep (id : Z) (w : Z)                         (* [sleep_for(waitTime)] *)
| EvListenerExit (id : Z)                          (* [queueListener(id)] returns *)
| EvJoin (id : Z)                                  (* [strandThreads[id].join()] returned *)
| EvEraseThread (id : Z)                           (* [strandThreads.erase(id)] *)
| EvEraseQueue (id : Z)                            (* [strandQueues.erase(id)] *)
| EvEraseSlot (r : SlotMapRef) (id : Z)            (* [slotMap->erase(id)] *)
| EvClearThreads                                   (* [strandThreads.clear()] *)
| EvClearQueues                                    (* [strandQueues.clear()] *)
| EvClearSlots (r : SlotMapRef)                    (* [....clear()] of a slot map *)
| EvPoolStartup                                    (* [WheeledThreadPool::startup()] *)
| EvPoolRun (c : Closure).                         (* [WheeledThreadPool::run(c)] *)

(** *** Field updates *)

Definition set_currentId (v : Z) (s : SignalImpl) : SignalImpl :=
  {| currentId := v; sem := sem s;
     enableEmissionGuard := enableEmissionGuard s;
     strandQueues := strandQueues s; strandThreads := strandThreads s;
     synchronousSlots := synchronousSlots s;
     asynchronousSlots := asynchronousSlots s;
     strandSlots := strandSlots s;
     threadPooledSlots := threadPooledSlots s; detached := detached s |}.

Definition set_sem (v : Semaphore) (s : SignalImpl) : SignalImpl :=
  {| currentId := currentId s; sem := v;
     enableEmissionGuard := enableEmissionGuard s;
     strandQueues := strandQueues s; strandThreads := strandThreads s;
     synchronousSlots := synchronousSlots s;
     asynchronousSlots := asynchronousSlots s;
     strandSlots := strandSlots s;
     threadPooledSlots := threadPooledSlots s; detached := detached s |}.

Definition set_strandQueues (v : StdMap.t MPSCQueue) (s : SignalImpl) : SignalImpl :=
  {| currentId := currentId s; sem := sem s;
     enableEmissionGuard := enableEmissionGuard s;
     strandQueues := v; strandThreads := strandThreads s;
     synchronousSlots := synchronousSlots s;
     asynchronousSlots := asynchronousSlots s;
     strandSlots := strandSlots s;
     threadPooledSlots := threadPooledSlots s; detached := detached s |}.

Definition set_strandThreads (v : StdMap.t Thread) (s : SignalImpl) : SignalImpl :=
  {| currentId := currentId s; sem := sem s;
     enableEmissionGuard := enableEmissionGuard s;
     strandQueues := strandQueues s; strandThreads := v;
     synchronousSlots := synchronousSlots s;
     asynchronousSlots := asynchronousSlots s;
     strandSlots := strandSlots s;
     threadPooledSlots := threadPooledSlots s; detached := detached s |}.

Definition set_detached (v : list (Slot * Args)) (s : SignalImpl) : SignalImpl :=
  {| currentId := currentId s; sem := sem s;
     enableEmissionGuard := enableEmissionGuard s;
     strandQueues := strandQueues s; strandThreads := strandThreads s;
     synchronousSlots := synchronousSlots s;
     asynchronousSlots := asynchronousSlots s;
     strandSlots := strandSlots s;
     threadPooledSlots := threadPooledSlots s; detached := v |}.

(** The map behind a [SlotMapRef], read and written. *)
Definition slotsOf (r : SlotMapRef) (s : SignalImpl) : StdMap.t Slot :=
  match r with
  | SynchronousSlots => synchronousSlots s
  | AsynchronousSlots => asynchronousSlots s
  | StrandSlots => strandSlots s
  | ThreadPooledSlots => threadPooledSlots s
  end.

Definition set_slotsOf (r : SlotMapRef) (v : StdMap.t Slot) (s : SignalImpl)
  : SignalImpl :=
  {| currentId := currentId s; sem := sem s;
     enableEmissionGuard := enableEmissionGuard s;
     strandQueues := strandQueues s; strandThreads := strandThreads s;
     synchronousSlots :=
       match r with SynchronousSlots => v | _ => synchronousSlots s end;
     asynchronousSlots :=
       match r with AsynchronousSlots => v | _ => asynchronousSlots s end;
     strandSlots :=
       match r with StrandSlots => v | _ => strandSlots s end;
     threadPooledSlots :=
       match r with ThreadPooledSlots => v | _ => threadPooledSlots s end;
     detached := detached s |}.

(** ** The monad of member functions *)

Inductive Outcome (A : Type) : Type :=
| Returns (a : A)
| Stops (why : Failure).
Arguments Returns {A} a.
Arguments Stops {A} why.

(** The state reached, the events so far, and whether the function
    returned. *)
Record Run (A : Type) : Type := {
  final : State;
  events : list Event;
  outcome : Outcome A
}.
Arguments final {A} r.
Arguments events {A} r.
Arguments outcome {A} r.

Definition M (A : Type) : Type := State -> Run A.

Definition ret {A} (a : A) : M A :=
  fun st => {| final := st; events := []; outcome := Returns a |}.

Definition bind {A B} (m : M A) (k : A -> M B) : M B :=
  fun st =>
    let r := m st in
    match outcome r with
    | Stops why =>
        {| final := final r; events := events r; outcome := Stops why |}
    | Returns a =>
        let r' := k a (final r) in
        {| final := final r'; events := events r ++ events r';
           outcome := outcome r' |}
    end.

Definition stop {A} (why : Failure) : M A :=
  fun st => {| final := st; events := []; outcome := Stops why |}.

Definition logEvent (e : Event) : M unit :=
  fun st => {| final := st; events := [e]; outcome := Returns tt |}.

Definition getSignal : M SignalImpl :=
  fun st => {| final := st; events := []; outcome := Returns (signal st) |}.

Definition modifySignal (f : SignalImpl -> SignalImpl) : M unit :=
  fun st => {| final := {| signal := f (signal st); pool := pool st |};
               events := []; outcome := Returns tt |}.

Definition modifyPool (f : WheeledThreadPool -> WheeledThreadPool) : M unit :=
  fun st => {| final := {| signal := signal st; pool := f (pool st) |};
               events := []; outcome := Returns tt |}.

Notation "x <- m ;; k" := (bind m (fun x => k))
  (at level 61, m at next level, right associativity).
Notation "m ;; k" := (bind m (fun _ => k))
  (at level 61, right associativity).

(** A range-for over a map. *)
Fixpoint forEach {V} (m : StdMap.t V) (body : Z -> V -> M unit) : M unit :=
  match m with
  | [] => ret tt
  | (k, v) :: m' => body k v ;; forEach m' body
  end.

(** Repetition with a bound on the number of rounds; [body] says whether
    to go on. *)
Fixpoint repeatWhile (fuel : nat) (body : M bool) : M unit :=
  match fuel with
  | O => ret tt
  | S fuel' => go <- body ;; if go then repeatWhile fuel' body else ret tt
  end.

Definition logEvents (evs : list Event) : M unit :=
  fun st => {| final := st; events := evs; outcome := Returns tt |}.

(** ** The semaphore and the detached threads *)

(** [sem.release()]. *)
Definition release : M unit :=
  modifySignal (fun s => set_sem {| semCounter := semCounter (sem s) + 1 |} s) ;;
  logEvent EvSemRelease.

Fixpoint removeNth {A} (n : nat) (l : list A) : list A :=
  match n, l with
  | _, [] => []
  | O, _ :: l' => l'
  | S n', x :: l' => x :: removeNth n' l'
  end.

(** The body of a detached thread of [runAsynchronous],
    [function(p...); sem.release();], run by the [n]-th such thread. *)
Definition detachedRuns (n : nat) : M unit :=
  s <- getSignal ;;
  match nth_error (detached s) n with
  | None => ret tt
  | Some (f, p) =>
      modifySignal (fun s => set_detached (removeNth n (detached s)) s) ;;
      logEvent (EvInvoke DetachedThread f p) ;;
      release
  end.

(** [sem.acquire()].  With the counter at zero the caller waits for a
    release, which only a detached thread can give. *)
Definition acquire : M unit :=
  s <- getSignal ;;
  (if 0 <? semCounter (sem s) then ret tt
   else match detached s with
        | [] => stop Deadlock
        | _ :: _ => detachedRuns 0
        end) ;;
  modifySignal (fun s => set_sem {| semCounter := semCounter (sem s) - 1 |} s) ;;
  logEvent EvSemAcquire.

(** ** The strand listener *)

(** [if (func) func();] *)
Definition runTask (who : ThreadId) (t : Task) : list Event :=
  match t with
  | Some (Bound f p) => [EvInvoke who f p]
  | Some NopLambda => []
  | None => []
  end.

(** One transition of [queueListener(id)] from the listener's local
    variables and its queue [q]; [None] when the listener cannot move: it
    has returned, or it waits in [blockingDequeue].  From [AtLoopTest] the
    transition runs the loop test and the first [if] of the body, from
    [AtMaxCheck] the second [if]. *)
Definition queueListener (id : Z) (func : Task) (waitTime : Z)
  (pc : ListenerPc) (q : MPSCQueue) : option (Thread * MPSCQueue * list Event) :=
  match pc with
  | Finished => None
  | AtLoopTest =>
      match func with
      | None => Some (Listener func waitTime Finished, q, [EvListenerExit id])
      | Some _ =>
          match q with
          | t :: q' =>
              Some (Listener t minWait AtMaxCheck, q',
                    runTask (StrandThread id) t)
          | [] =>
              Some (Listener func (waitTime * 2) AtMaxCheck, q,
                    [EvSleep id waitTime])
          end
      end
  | AtMaxCheck =>
      if maxWait <? waitTime then
        match q with
        | t :: q' =>
            Some (Listener t minWait AtLoopTest, q',
                  runTask (StrandThread id) t)
        | [] => None
        end
      else Some (Listener func waitTime AtLoopTest, q, [])
  end.

(** The listener as [connectSlot] starts it:
    [func = [](){}], [waitTime = nanoseconds(1)]. *)
Definition newListener : Thread := Listener (Some NopLambda) minWait AtLoopTest.

(** The listener of strand [id] takes one transition, if it can; the result
    says whether it did.  Its queue is there: [connectSlot] creates it before
    the thread. *)
Definition listenerRuns (id : Z) : M bool :=
  s <- getSignal ;;
  match StdMap.find id (strandThreads s), StdMap.find id (strandQueues s) with
  | Some (Listener func w pc), Some q =>
      match queueListener id func w pc q with
      | Some (th', q', evs) =>
          modifySignal (fun s =>
            set_strandThreads
              (StdMap.update id (fun _ => th') (strandThreads s))
              (set_strandQueues
                 (StdMap.update id (fun _ => q') (strandQueues s)) s)) ;;
          logEvents evs ;;
          ret true
      | None => ret false
      end
  | _, _ => ret false
  end.

(** [strandQueues[id].enqueue(t)]. *)
Definition enqueue (id : Z) (t : Task) : M unit :=
  modifySignal (fun s =>
    set_strandQueues
      (StdMap.update id (fun q => q ++ [t])
         (StdMap.subscript id [] (strandQueues s))) s) ;;
  logEvent (EvEnqueue id t).

(** Transitions that suffice for a listener to take every entry of a queue
    of the given length and return: two for each entry, and the loop tests
    around them. *)
Definition joinFuel (len : nat) : nat := 2 * len + 3.

(** [strandThreads[id].join()]: the caller waits until the listener has
    returned.  The listener is run until it cannot move; if it has not
    returned by then, it never will, as the caller holds [signalLock]. *)
Definition join (id : Z) : M unit :=
  s <- getSignal ;;
  match StdMap.find id (strandThreads s) with
  | None =>
      modifySignal (fun s =>
        set_strandThreads (StdMap.emplace id NotAThread (strandThreads s)) s) ;;
      stop SystemError
  | Some NotAThread => stop SystemError
  | Some (Listener _ _ _) =>
      let len := match StdMap.find id (strandQueues s) with
                 | Some q => length q
                 | None => O
                 end in
      repeatWhile (joinFuel len) (listenerRuns id) ;;
      s' <- getSignal ;;
      match StdMap.find id (strandThreads s') with
      | Some (Listener _ _ Finished) => logEvent (EvJoin id)
      | _ => stop Deadlock
      end
  end.

(** ** The shared pool *)

(** Modelled from the spec: the one-time initialisation behind
    [WheeledThreadPool::startup()].  The workers are started unless they
    have been. *)
Definition started (p : WheeledThreadPool) : WheeledThreadPool :=
  if poolStarted p then p
  else {| poolStarted := true;
          poolStartups := S (poolStartups p);
          poolQueue := poolQueue p |}.

(** Modelled from the spec: [WheeledThreadPool::startup()], started at most
    once whoever asks. *)
Definition startup : M unit :=
  logEvent EvPoolStartup ;; modifyPool started.

(** Modelled from the spec: [WheeledThreadPool::run(task)] puts the task on
    the shared queue. *)
Definition poolRun (c : Closure) : M unit :=
  logEvent (EvPoolRun c) ;;
  modifyPool (fun p =>
    {| poolStarted := poolStarted p;
       poolStartups := poolStartups p;
       poolQueue := poolQueue p ++ [Some c] |}).

(** Modelled from the spec: a worker of the pool takes the oldest task off
    the shared queue.  The task is the lambda of [runThreadPooled], which
    calls the slot through a reference into [threadPooledSlots]; the slot may
    have been erased since the emission, and the state does not record
    whether it has, so what the task calls is not represented. *)
Definition poolRuns : M unit :=
  fun st =>
    match poolStarted (pool st), poolQueue (pool st) with
    | true, t :: q' =>
        {| final := {| signal := signal st;
                       pool := {| poolStarted := true;
                                  poolStartups := poolStartups (pool st);
                                  poolQueue := q' |} |};
           events := [];
           outcome := Returns tt |}
    | _, _ => ret tt st
    end.

(** ** The member functions of [SignalImpl] *)

Definition getSlotMap (scheme : ExecutorScheme) : SlotMapRef :=
  if scheme =? ASYNCHRONOUS then AsynchronousSlots
  else if scheme =? STRAND then StrandSlots
  else if scheme =? THREAD_POOLED then ThreadPooledSlots
  else SynchronousSlots.

Definition findSlotMapWithId (id : Z) (s : SignalImpl) : option SlotMapRef :=
  if StdMap.count id (synchronousSlots s) then Some SynchronousSlots
  else if StdMap.count id (asynchronousSlots s) then Some AsynchronousSlots
  else if StdMap.count id (strandSlots s) then Some StrandSlots
  else if StdMap.count id (threadPooledSlots s) then Some ThreadPooledSlots
  else None.

(** [currentId.fetch_add(1)]. *)
Definition fetch_add_currentId : M Z :=
  s <- getSignal ;;
  modifySignal (set_currentId (wrap32 (currentId s + 1))) ;;
  ret (currentId s).

(** [strandThreads.emplace(id, std::thread(&SignalImpl::queueListener, this, id))].
    The thread is started first; when the key is taken the map keeps its
    entry and the new, joinable thread object is destroyed. *)
Definition spawnListener (id : Z) : M unit :=
  logEvent (EvSpawnListener id) ;;
  s <- getSignal ;;
  if StdMap.count id (strandThreads s) then stop Terminate
  else modifySignal (fun s =>
         set_strandThreads (StdMap.emplace id newListener (strandThreads s)) s).

Definition connectSlot (scheme : ExecutorScheme) (slot : Slot) : M Z :=
  id <- fetch_add_currentId ;;
  let slotMap := getSlotMap scheme in
  modifySignal (fun s =>
    set_slotsOf slotMap (StdMap.emplace id slot (slotsOf slotMap s)) s) ;;
  (if scheme =? STRAND then
     modifySignal (fun s =>
       set_strandQueues (StdMap.subscript id [] (strandQueues s)) s) ;;
     spawnListener id
   else if scheme =? THREAD_POOLED then startup
   else ret tt) ;;
  ret (to_int id).

Definition eraseSlot (r : SlotMapRef) (id : Z) : M unit :=
  modifySignal (fun s => set_slotsOf r (StdMap.erase id (slotsOf r s)) s) ;;
  logEvent (EvEraseSlot r id).

Definition eraseThread (id : Z) : M unit :=
  modifySignal (fun s =>
    set_strandThreads (StdMap.erase id (strandThreads s)) s) ;;
  logEvent (EvEraseThread id).

Definition eraseQueue (id : Z) : M unit :=
  modifySignal (fun s =>
    set_strandQueues (StdMap.erase id (strandQueues s)) s) ;;
  logEvent (EvEraseQueue id).

Definition disconnectSlot (id : Z) : M unit :=
  s <- getSignal ;;
  match findSlotMapWithId id s with
  | None => ret tt
  | Some slotMap =>
      (if SlotMapRef_eqb slotMap StrandSlots then
         enqueue id None ;;
         join id ;;
         eraseThread id ;;
         eraseQueue id
       else ret tt) ;;
      eraseSlot slotMap id
  end.

Definition clearSlots (r : SlotMapRef) : M unit :=
  modifySignal (set_slotsOf r []) ;; logEvent (EvClearSlots r).

Definition disconnectAllSlots : M unit :=
  s <- getSignal ;;
  forEach (strandQueues s) (fun id _ => enqueue id None) ;;
  forEach (strandThreads s) (fun id _ => join id) ;;
  modifySignal (set_strandThreads []) ;; logEvent EvClearThreads ;;
  modifySignal (set_strandQueues []) ;; logEvent EvClearQueues ;;
  clearSlots SynchronousSlots ;;
  clearSlots AsynchronousSlots ;;
  clearSlots StrandSlots ;;
  clearSlots ThreadPooledSlots.

Definition runSynchronous (function : Slot) (p : Args) : M unit :=
  logEvent (EvInvoke Caller function p).

Definition runAsynchronous (function : Slot) (p : Args) : M unit :=
  acquire ;;
  modifySignal (fun s => set_detached (detached s ++ [(function, p)]) s) ;;
  logEvent (EvSpawnDetached function p).

(** The lambda put on the queue refers to the slot in [strandSlots].  The
    listener runs it before the slot is erased: [disconnectSlot] and
    [disconnectAllSlots] join the listener, which has emptied the queue by
    then, before they erase from [strandSlots]. *)
Definition runStrands (asyncQueueId : Z) (function : Slot) (p : Args) : M unit :=
  enqueue asyncQueueId (Some (Bound function p)).

(** The lambda handed to the pool refers to the slot in
    [threadPooledSlots]; the reference is good while the lambda is made and
    handed over, which is all that happens to it here (see [poolRuns]). *)
Definition runThreadPooled (function : Slot) (p : Args) : M unit :=
  poolRun (Bound function p).

Definition emitSignalUnsafe (p : Args) : M unit :=
  s <- getSignal ;;
  forEach (synchronousSlots s) (fun _ slot => runSynchronous slot p) ;;
  forEach (asynchronousSlots s) (fun _ slot => runAsynchronous slot p) ;;
  forEach (strandSlots s) (fun id slot => runStrands id slot p) ;;
  forEach (threadPooledSlots s) (fun _ slot => runThreadPooled slot p).

(** The shared lock is held around the same dispatch. *)
Definition emitSignalThreadSafe (p : Args) : M unit :=
  emitSignalUnsafe p.

Definition emitSignal (p : Args) : M unit :=
  s <- getSignal ;;
  if enableEmissionGuard s then emitSignalThreadSafe p else emitSignalUnsafe p.

(** ** Histories *)

(** What can happen to an engine: the client calls a public member
    function, or one of the threads moves. *)
Inductive Action : Type :=
| Connect (scheme : ExecutorScheme) (slot : Slot)
| Disconnect (id : Z)
| DisconnectAll
| Emit (p : Args)
| ListenerRuns (id : Z)
| DetachedRuns (n : nat)
| PoolRuns.

(** An action, with the id a [Connect] returns.  The [int] handed to
    [disconnectSlot] is converted to its [uint32_t] parameter. *)
Definition perform (a : Action) : M (list Z) :=
  match a with
  | Connect scheme slot => id <- connectSlot scheme slot ;; ret [id]
  | Disconnect id => disconnectSlot (wrap32 id) ;; ret []
  | DisconnectAll => disconnectAllSlots ;; ret []
  | Emit p => emitSignal p ;; ret []
  | ListenerRuns id => listenerRuns id ;; ret []
  | DetachedRuns n => detachedRuns n ;; ret []
  | PoolRuns => poolRuns ;; ret []
  end.

(** A history, with the ids its [Connect]s return, in call order. *)
Fixpoint performAll (h : list Action) : M (list Z) :=
  match h with
  | [] => ret []
  | a :: h' =>
      ids <- perform a ;;
      ids' <- performAll h' ;;
      ret (ids ++ ids')
  end.

Definition freshState (enforceThreadSafety : bool) (maxAsyncThreads : Z) : State :=
  {| signal := newSignal enforceThreadSafety maxAsyncThreads; pool := newPool |}.

(** The states an engine built with the given options can be in between
    two actions. *)
Definition reachableFrom (guard : bool) (maxAsync : Z) (st : State) : Prop :=
  exists h evs ids,
    performAll h (freshState guard maxAsync)
    = {| final := st; events := evs; outcome := Returns ids |}.

Definition reachable (st : State) : Prop :=
  exists guard maxAsync,
    0 <= maxAsync < UINT32_MOD /\ reachableFrom guard maxAsync st.

(** ** Definitions for the statements *)

(** *** Kinds of events *)

(** Events of the thread that is inside the member function, as opposed to
    those of the threads it waits for. *)
Definition byCaller (e : Event) : bool :=
  match e with
  | EvInvoke Caller _ _ => true
  | EvInvoke _ _ _ => false
  | EvSemRelease => false
  | EvSleep _ _ => false
  | EvListenerExit _ => false
  | _ => true
  end.

(** A slot called by the thread inside the member function. *)
Definition isCallerInvoke (e : Event) : bool :=
  match e with
  | EvInvoke Caller _ _ => true
  | _ => false
  end.

Definition notCallerInvoke (e : Event) : Prop := isCallerInvoke e = false.

(** The shutdown entry, [nullptr], put on a queue. *)
Definition isShutdownEnqueue (e : Event) : bool :=
  match e with
  | EvEnqueue _ None => true
  | _ => false
  end.

Definition notShutdown (e : Event) : Prop := isShutdownEnqueue e = false.

Definition isJoin (e : Event) : bool :=
  match e with
  | EvJoin _ => true
  | _ => false
  end.

Definition isPoolStartup (e : Event) : bool :=
  match e with
  | EvPoolStartup => true
  | _ => false
  end.

(** The two events by which [runAsynchronous] dispatches a slot. *)
Definition isAsyncDispatch (e : Event) : bool :=
  match e with
  | EvSemAcquire => true
  | EvSpawnDetached _ _ => true
  | _ => false
  end.

(** An entry that [emitSignal] with the arguments [p] may put on a queue. *)
Definition enqueuesBound (p : Args) (e : Event) : Prop :=
  match e with
  | EvEnqueue _ t => exists f, t = Some (Bound f p)
  | _ => True
  end.

(** [e1] happens before [e2]. *)
Definition precedes (e1 e2 : Event) (evs : list Event) : Prop :=
  exists l1 l2 l3, evs = l1 ++ e1 :: l2 ++ e2 :: l3.

(** *** What the code is expected to do *)

(** The calls of the slots of [synchronousSlots], with the arguments [p]. *)
Definition syncEvents (p : Args) (m : StdMap.t Slot) : list Event :=
  map (fun kv => EvInvoke Caller (snd kv) p) m.

(** An acquire and a spawn for every slot of [asynchronousSlots]. *)
Definition asyncEvents (p : Args) (m : StdMap.t Slot) : list Event :=
  flat_map (fun kv => [EvSemAcquire; EvSpawnDetached (snd kv) p]) m.

(** The bound slot put on the queue of every strand. *)
Definition strandEvents (p : Args) (m : StdMap.t Slot) : list Event :=
  map (fun kv => EvEnqueue (fst kv) (Some (Bound (snd kv) p))) m.

(** The bound slot handed to the pool for every slot of [threadPooledSlots]. *)
Definition pooledEvents (p : Args) (m : StdMap.t Slot) : list Event :=
  map (fun kv => EvPoolRun (Bound (snd kv) p)) m.

(** What the emitting thread itself does, in order. *)
Definition dispatchEvents (p : Args) (s : SignalImpl) : list Event :=
  syncEvents p (synchronousSlots s) ++
  asyncEvents p (asynchronousSlots s) ++
  strandEvents p (strandSlots s) ++
  pooledEvents p (threadPooledSlots s).

(** What the listener of strand [id] does with the tasks [q] it takes from
    its queue before the shutdown entry. *)
Definition drainEvents (id : Z) (q : MPSCQueue) : list Event :=
  flat_map (runTask (StrandThread id)) q ++ [EvListenerExit id].

(** The end of [disconnectAllSlots]. *)
Definition clearEvents : list Event :=
  [EvClearThreads; EvClearQueues; EvClearSlots SynchronousSlots;
   EvClearSlots AsynchronousSlots; EvClearSlots StrandSlots;
   EvClearSlots ThreadPooledSlots].

(** *** The listener on its own *)

(** [queueListener] iterated until the listener cannot move, at most [fuel]
    times. *)
Fixpoint listen (fuel : nat) (id : Z) (th : Thread) (q : MPSCQueue)
  : Thread * MPSCQueue * list Event :=
  match fuel with
  | O => (th, q, [])
  | S fuel' =>
      match th with
      | NotAThread => (th, q, [])
      | Listener func w pc =>
          match queueListener id func w pc q with
          | None => (th, q, [])
          | Some (th', q', evs) =>
              let '(th'', q'', evs') := listen fuel' id th' q' in
              (th'', q'', evs ++ evs')
          end
      end
  end.

(** A listener that is inside its loop with a non-empty [func]. *)
Definition live (th : Thread) : Prop :=
  exists c w pc, th = Listener (Some c) w pc /\ pc <> Finished.

(** *** States *)

(** The object with the listener of strand [id] and its queue replaced. *)
Definition withStrand (id : Z) (th : Thread) (q : MPSCQueue) (s : SignalImpl)
  : SignalImpl :=
  set_strandThreads (StdMap.update id (fun _ => th) (strandThreads s))
    (set_strandQueues (StdMap.update id (fun _ => q) (strandQueues s)) s).

(** The object with strand [id] gone: thread, queue and registration. *)
Definition withoutStrand (id : Z) (s : SignalImpl) : SignalImpl :=
  set_slotsOf StrandSlots (StdMap.erase id (strandSlots s))
    (set_strandQueues (StdMap.erase id (strandQueues s))
       (set_strandThreads (StdMap.erase id (strandThreads s)) s)).

(** The tasks queued on strand [id]. *)
Definition queueOf (id : Z) (s : SignalImpl) : MPSCQueue :=
  match StdMap.find id (strandQueues s) with
  | Some q => q
  | None => []
  end.

(** The queues after [disconnectAllSlots] has put the shutdown entry on
    those named by [ids]. *)
Definition shutdownAll (ids : list Z) (qs : StdMap.t MPSCQueue)
  : StdMap.t MPSCQueue :=
  fold_left
    (fun qs id => StdMap.update id (fun q => q ++ [None]) (StdMap.subscript id [] qs))
    ids qs.

(** The object with all six maps empty. *)
Definition cleared (s : SignalImpl) : SignalImpl :=
  {| currentId := currentId s; sem := sem s;
     enableEmissionGuard := enableEmissionGuard s;
     strandQueues := []; strandThreads := [];
     synchronousSlots := []; asynchronousSlots := [];
     strandSlots := []; threadPooledSlots := [];
     detached := detached s |}.

(** The object after [connectSlot] has taken [id] and registered [slot] in
    the map [r]. *)
Definition registered (r : SlotMapRef) (id : Z) (slot : Slot) (s : SignalImpl)
  : SignalImpl :=
  set_slotsOf r (StdMap.emplace id slot (slotsOf r s))
    (set_currentId (wrap32 (currentId s + 1)) s).

(** ... and, for a strand, has made its queue and started its listener. *)
Definition withNewStrand (id : Z) (s : SignalImpl) : SignalImpl :=
  set_strandThreads (StdMap.emplace id newListener (strandThreads s))
    (set_strandQueues (StdMap.subscript id [] (strandQueues s)) s).

(** *** Invariants *)

(** What holds of the object between two actions: every strand thread is a
    listener inside its loop, no queue holds the shutdown entry, the threads
    and the queues are those of the registered strands, and the maps are
    sorted by key. *)
Record wf (s : SignalImpl) : Prop := {
  wf_threads : forall id th,
    StdMap.find id (strandThreads s) = Some th -> live th;
  wf_queues : forall id q,
    StdMap.find id (strandQueues s) = Some q -> Forall (fun t => t <> None) q;
  wf_thread_keys : forall id,
    StdMap.count id (strandThreads s) = StdMap.count id (strandSlots s);
  wf_queue_keys : forall id,
    StdMap.count id (strandQueues s) = StdMap.count id (strandSlots s);
  wf_sorted_queues : StdMap.sorted (strandQueues s);
  wf_sorted_threads : StdMap.sorted (strandThreads s);
  wf_sorted_slots : forall r, StdMap.sorted (slotsOf r s)
}.

(** No id is a key of two slot maps. *)
Definition slotsDisjoint (s : SignalImpl) : Prop :=
  forall id r r',
    StdMap.count id (slotsOf r s) = true ->
    StdMap.count id (slotsOf r' s) = true -> r = r'.

(** Every key of a slot map is below the counter, as it is until the counter
    wraps. *)
Definition keysBelowCounter (s : SignalImpl) : Prop :=
  forall r id, StdMap.count id (slotsOf r s) = true -> 0 <= id < currentId s.

(** [sem.acquire()] can return: the counter is positive, or a detached
    thread is there to release it. *)
Definition canAcquire (s : SignalImpl) : Prop :=
  0 < semCounter (sem s) \/ detached s <> [].

(** The semaphore of an engine built for [cap] detached threads: what is
    left of the capacity is in the counter. *)
Definition semInv (cap : Z) (st : State) : Prop :=
  0 <= semCounter (sem (signal st)) /\
  semCounter (sem (signal st)) + Z.of_nat (length (detached (signal st))) = cap.

(** The pool has been started once, or not at all. *)
Definition poolInv (p : WheeledThreadPool) : Prop :=
  poolStartups p = (if poolStarted p then 1 else 0)%nat.

(** *** Histories *)

(** The number of [Connect]s of a history. *)
Fixpoint connects (h : list Action) : nat :=
  match h with
  | [] => O
  | Connect _ _ :: h' => S (connects h')
  | _ :: h' => connects h'
  end.

Definition isConnect (a : Action) : bool :=
  match a with Connect _ _ => true | _ => false end.

(** A history of [Connect]s only. *)
Definition connectOnly (h : list Action) : Prop := forallb isConnect h = true.

(** A slot is connected and everything is disconnected again, [n] times
    over: a history that never holds more than one slot. *)
Fixpoint churn (slot : Slot) (n : nat) : list Action :=
  match n with
  | O => []
  | S n' => Connect SYNCHRONOUS slot :: DisconnectAll :: churn slot n'
  end.

(** The id the [k]-th [connectSlot] returns on an engine whose counter
    stands at [c]. *)
Definition idAfter (c : Z) (k : nat) : Z := to_int (wrap32 (c + Z.of_nat k)).

(** *** Several engines in one process *)

(** The engines of a process and the pool they share. *)
Record Process : Type := {
  engines : list SignalImpl;
  sharedPool : WheeledThreadPool
}.

Fixpoint setNth {A} (n : nat) (x : A) (l : list A) : list A :=
  match n, l with
  | _, [] => []
  | O, _ :: l' => x :: l'
  | S n', y :: l' => y :: setNth n' x l'
  end.

(** [connectSlot] called on the [i]-th engine; no such engine, no call. *)
Definition connectOn (i : nat) (scheme : ExecutorScheme) (slot : Slot)
  (pr : Process) : Process * list Event * bool :=
  match nth_error (engines pr) i with
  | None => (pr, [], true)
  | Some e =>
      let r := connectSlot scheme slot {| signal := e; pool := sharedPool pr |} in
      ({| engines := setNth i (signal (final r)) (engines pr);
          sharedPool := pool (final r) |},
       events r,
       match outcome r with Returns _ => true | Stops _ => false end)
  end.

(** A sequence of [connectSlot] calls, each on the engine it names; the
    sequence ends where a call does not return.  The result says whether
    all calls returned. *)
Fixpoint connectMany (calls : list (nat * ExecutorScheme * Slot)) (pr : Process)
  : Process * list Event * bool :=
  match calls with
  | [] => (pr, [], true)
  | (i, scheme, slot) :: calls' =>
      let '(pr', evs, ok) := connectOn i scheme slot pr in
      if ok then
        let '(pr'', evs', ok') := connectMany calls' pr' in
        (pr'', evs ++ evs', ok')
      else (pr', evs, false)
  end.

(** The calls that ask for the pool: [THREAD_POOLED] on one of [n] engines. *)
Definition pooledCalls (n : nat) (calls : list (nat * ExecutorScheme * Slot)) : nat :=
  length (filter (fun c => match c with
                           | (i, scheme, _) => (i <? n)%nat && (scheme =? THREAD_POOLED)
                           end) calls).

(** *** Parts of the state, and what a computation does to them *)

(** The computation [m] leaves the part [proj] of the state as it is,
    whatever its outcome. *)
Definition preserves {X A} (proj : State -> X) (m : M A) : Prop :=
  forall st, proj (final (m st)) = proj st.

(** Every event of the computation [m] satisfies [Q], whatever its outcome. *)
Definition eventsAll {A} (Q : Event -> Prop) (m : M A) : Prop :=
  forall st, Forall Q (events (m st)).

(** The part of the object that an emission has no business with: the slot
    maps, the strand threads and the id counter. *)
Definition registrations (st : State)
  : Z * StdMap.t Thread * (StdMap.t Slot * StdMap.t Slot * StdMap.t Slot * StdMap.t Slot) :=
  (currentId (signal st), strandThreads (signal st),
   (synchronousSlots (signal st), asynchronousSlots (signal st),
    strandSlots (signal st), threadPooledSlots (signal st))).

(** What the maps do not hold. *)
Definition besidesStrands (st : State)
  : Z * Semaphore * bool * list (Slot * Args) * WheeledThreadPool :=
  (currentId (signal st), sem (signal st), enableEmissionGuard (signal st),
   detached (signal st), pool st).

(** The six maps of the object. *)
Definition maps (st : State)
  : StdMap.t MPSCQueue * StdMap.t Thread *
    (StdMap.t Slot * StdMap.t Slot * StdMap.t Slot * StdMap.t Slot) :=
  (strandQueues (signal st), strandThreads (signal st),
   (synchronousSlots (signal st), asynchronousSlots (signal st),
    strandSlots (signal st), threadPooledSlots (signal st))).

(** The four slot maps. *)
Definition slotMaps (st : State)
  : StdMap.t Slot * StdMap.t Slot * StdMap.t Slot * StdMap.t Slot :=
  (synchronousSlots (signal st), asynchronousSlots (signal st),
   strandSlots (signal st), threadPooledSlots (signal st)).

Definition counterOf (st : State) : Z := currentId (signal st).

Definition semOf (st : State) : Semaphore * list (Slot * Args) :=
  (sem (signal st), detached (signal st)).

Definition detachedOf (st : State) : list (Slot * Args) := detached (signal st).

(** *** The listener's work, and its rest *)

(** A slot called, by whatever thread. *)
Definition isInvoke (e : Event) : bool :=
  match e with
  | EvInvoke _ _ _ => true
  | _ => false
  end.

(** The sleeps of a listener that finds its queue empty [k] times in a row,
    from the wait [w] on. *)
Fixpoint sleeps (id : Z) (w : Z) (k : nat) : list Event :=
  match k with
  | O => []
  | S k' => EvSleep id w :: sleeps id (w * 2) k'
  end.

(** *** Dispatch of one slot *)

(** What the emitting thread does for the slot [f] registered under [id] in
    the map [r], when it emits [p]. *)
Definition dispatchOf (r : SlotMapRef) (id : Z) (f : Slot) (p : Args) : Event :=
  match r with
  | SynchronousSlots => EvInvoke Caller f p
  | AsynchronousSlots => EvSpawnDetached f p
  | StrandSlots => EvEnqueue id (Some (Bound f p))
  | ThreadPooledSlots => EvPoolRun (Bound f p)
  end.

(** *** A history that keeps one strand *)

(** A synchronous slot is connected and disconnected again by its id, [n]
    times over, on an engine whose counter stands at [c]. *)
Fixpoint connectDisconnect (slot : Slot) (c : Z) (n : nat) : list Action :=
  match n with
  | O => []
  | S n' =>
      Connect SYNCHRONOUS slot :: Disconnect (to_int c) ::
      connectDisconnect slot (wrap32 (c + 1)) n'
  end.

(** ** Reasoning about computations in [M] *)

Lemma bind_returns {A B} (m : M A) (k : A -> M B) st a :
  outcome (m st) = Returns a ->
  bind m k st
  = {| final := final (k a (final (m st)));
       events := events (m st) ++ events (k a (final (m st)));
       outcome := outcome (k a (final (m st))) |}.
Proof. unfold bind. now intros ->. Qed.

Lemma bind_outcome_returns {A B} (m : M A) (k : A -> M B) st b :
  outcome (bind m k st) = Returns b ->
  exists a, outcome (m st) = Returns a /\
            outcome (k a (final (m st))) = Returns b.
Proof.
  unfold bind. destruct (outcome (m st)) as [a|why]; simpl.
  - eauto.
  - discriminate.
Qed.

Lemma bind_getSignal {B} (k : SignalImpl -> M B) st :
  bind getSignal k st = k (signal st) st.
Proof.
  unfold bind. cbn. destruct (k (signal st) st) as [fin evs [b|why]]; reflexivity.
Qed.

(** *** Parts of the state a computation leaves alone *)

Lemma preserves_ret {X A} (proj : State -> X) (a : A) : preserves proj (ret a).
Proof. now intros st. Qed.

Lemma preserves_stop {X A} (proj : State -> X) why : preserves proj (@stop A why).
Proof. now intros st. Qed.

Lemma preserves_logEvent {X} (proj : State -> X) e : preserves proj (logEvent e).
Proof. now intros st. Qed.

Lemma preserves_logEvents {X} (proj : State -> X) evs : preserves proj (logEvents evs).
Proof. now intros st. Qed.

Lemma preserves_getSignal {X} (proj : State -> X) : preserves proj getSignal.
Proof. now intros st. Qed.

Lemma preserves_bind {X A B} (proj : State -> X) (m : M A) (k : A -> M B) :
  preserves proj m -> (forall a, preserves proj (k a)) -> preserves proj (bind m k).
Proof.
  intros Hm Hk st. unfold bind.
  destruct (outcome (m st)) as [a|why]; simpl.
  - now rewrite Hk, Hm.
  - apply Hm.
Qed.

Lemma preserves_forEach {X V} (proj : State -> X) (m : StdMap.t V) body :
  (forall k v, preserves proj (body k v)) -> preserves proj (forEach m body).
Proof.
  intros Hb. induction m as [|[k v] m IH]; simpl.
  - apply preserves_ret.
  - apply preserves_bind; auto.
Qed.

Lemma preserves_repeatWhile {X} (proj : State -> X) fuel body :
  preserves proj body -> preserves proj (repeatWhile fuel body).
Proof.
  intros Hb. induction fuel as [|n IH]; simpl.
  - apply preserves_ret.
  - apply preserves_bind; auto. intros [|]; auto using preserves_ret.
Qed.

Lemma preserves_modifySignal {X} (proj : State -> X) f :
  (forall s p, proj {| signal := f s; pool := p |} = proj {| signal := s; pool := p |}) ->
  preserves proj (modifySignal f).
Proof. intros H [s p]. simpl. apply H. Qed.

Lemma preserves_modifyPool {X} (proj : State -> X) f :
  (forall s p, proj {| signal := s; pool := f p |} = proj {| signal := s; pool := p |}) ->
  preserves proj (modifyPool f).
Proof. intros H [s p]. simpl. apply H. Qed.


(** Proves [preserves proj m] for a computation built from the primitives,
    when every [modifySignal] in it visibly leaves [proj] alone. *)
Ltac frame_step :=
  lazymatch goal with
  | |- preserves _ (bind _ _) => apply preserves_bind; [|intros ?]
  | |- preserves _ (ret _) => apply preserves_ret
  | |- preserves _ (stop _) => apply preserves_stop
  | |- preserves _ (logEvent _) => apply preserves_logEvent
  | |- preserves _ (logEvents _) => apply preserves_logEvents
  | |- preserves _ getSignal => apply preserves_getSignal
  | |- preserves _ (forEach _ _) => apply preserves_forEach; intros ? ?
  | |- preserves _ (repeatWhile _ _) => apply preserves_repeatWhile
  | |- preserves _ (modifySignal _) =>
      apply preserves_modifySignal; intros [] ?; reflexivity
  | |- preserves _ (modifyPool _) =>
      apply preserves_modifyPool; intros ? ?; reflexivity
  end.

(** ** The dispatch loops of [emitSignalUnsafe] *)

Lemma release_preserves_registrations : preserves registrations release.
Proof. unfold release. repeat frame_step. Qed.

Lemma detachedRuns_preserves_registrations n :
  preserves registrations (detachedRuns n).
Proof.
  unfold detachedRuns. frame_step; [frame_step|].
  destruct (nth_error (detached a) n) as [[f p]|]; repeat frame_step.
  apply release_preserves_registrations.
Qed.

Lemma acquire_preserves_registrations : preserves registrations acquire.
Proof.
  unfold acquire. frame_step; [frame_step|].
  frame_step; [|repeat frame_step].
  destruct (0 <? semCounter (sem a)); [frame_step|].
  destruct (detached a); [frame_step|].
  apply detachedRuns_preserves_registrations.
Qed.

Lemma enqueue_preserves_registrations id t : preserves registrations (enqueue id t).
Proof. unfold enqueue. repeat frame_step. Qed.

Lemma poolRun_preserves_registrations c : preserves registrations (poolRun c).
Proof. unfold poolRun. repeat frame_step. Qed.

Lemma emitSignalUnsafe_preserves_registrations p :
  preserves registrations (emitSignalUnsafe p).
Proof.
  unfold emitSignalUnsafe, runSynchronous, runAsynchronous, runStrands,
    runThreadPooled.
  frame_step; [frame_step|].
  frame_step; [repeat frame_step|].
  frame_step.
  { frame_step. frame_step; [apply acquire_preserves_registrations|].
    repeat frame_step. }
  frame_step.
  { frame_step. apply enqueue_preserves_registrations. }
  frame_step. apply poolRun_preserves_registrations.
Qed.

Lemma emitSignal_preserves_registrations p :
  preserves registrations (emitSignal p).
Proof.
  unfold emitSignal, emitSignalThreadSafe. frame_step; [frame_step|].
  destruct (enableEmissionGuard a);
    apply emitSignalUnsafe_preserves_registrations.
Qed.

(** *** The four loops, one by one *)

Lemma sync_loop p m st :
  forEach m (fun _ slot => runSynchronous slot p) st
  = {| final := st; events := syncEvents p m; outcome := Returns tt |}.
Proof.
  induction m as [|[k f] m IH]; simpl; auto.
  unfold bind. simpl. now rewrite IH.
Qed.

Lemma strand_loop p m st :
  outcome (forEach m (fun id slot => runStrands id slot p) st) = Returns tt /\
  events (forEach m (fun id slot => runStrands id slot p) st) = strandEvents p m.
Proof.
  revert st. induction m as [|[k f] m IH]; intros st; [simpl; auto|].
  cbn [forEach].
  rewrite (bind_returns (runStrands k f p) _ st tt eq_refl).
  cbn [final events outcome].
  destruct (IH (final (runStrands k f p st))) as [-> ->]. auto.
Qed.

Lemma pooled_loop p m st :
  outcome (forEach m (fun _ slot => runThreadPooled slot p) st) = Returns tt /\
  events (forEach m (fun _ slot => runThreadPooled slot p) st) = pooledEvents p m.
Proof.
  revert st. induction m as [|[k f] m IH]; intros st; [simpl; auto|].
  cbn [forEach].
  rewrite (bind_returns (runThreadPooled f p) _ st tt eq_refl).
  cbn [final events outcome].
  destruct (IH (final (runThreadPooled f p st))) as [-> ->]. auto.
Qed.

(** [runAsynchronous] when the semaphore lets the caller through: the
    caller acquires, then spawns; the new thread is in flight afterwards. *)
Lemma runAsynchronous_returns f p st :
  canAcquire (signal st) ->
  outcome (runAsynchronous f p st) = Returns tt /\
  filter byCaller (events (runAsynchronous f p st))
  = [EvSemAcquire; EvSpawnDetached f p] /\
  filter isJoin (events (runAsynchronous f p st)) = [] /\
  (exists rest, detached (signal (final (runAsynchronous f p st))) = rest ++ [(f, p)]).
Proof.
  intros Hcan. destruct st as [s pl]. simpl in Hcan.
  unfold runAsynchronous, acquire, bind. simpl.
  destruct (0 <? semCounter (sem s)) eqn:Hpos; simpl.
  - repeat split. eauto.
  - destruct Hcan as [Hcan|Hcan]; [apply Z.ltb_lt in Hcan; congruence|].
    destruct (detached s) as [|[f0 p0] rest] eqn:Hd; [congruence|].
    unfold detachedRuns, bind. simpl. rewrite Hd. simpl.
    repeat split. eauto.
Qed.

Lemma async_loop p m st :
  m = [] \/ canAcquire (signal st) ->
  outcome (forEach m (fun _ slot => runAsynchronous slot p) st) = Returns tt /\
  filter byCaller (events (forEach m (fun _ slot => runAsynchronous slot p) st))
  = asyncEvents p m /\
  filter isJoin (events (forEach m (fun _ slot => runAsynchronous slot p) st)) = [].
Proof.
  revert st. induction m as [|[k f] m IH]; intros st Hcan; [simpl; auto|].
  destruct Hcan as [Hcan|Hcan]; [discriminate|].
  destruct (runAsynchronous_returns f p st Hcan) as (Ho & He & Hj & rest & Hd).
  cbn [forEach].
  rewrite (bind_returns _ _ _ _ Ho). cbn [final events outcome].
  rewrite !filter_app, He, Hj.
  destruct (IH (final (runAsynchronous f p st))) as (-> & -> & ->); auto.
  right. right. rewrite Hd. now destruct rest.
Qed.

Lemma filter_byCaller_sync p m : filter byCaller (syncEvents p m) = syncEvents p m.
Proof. induction m as [|[k f] m IH]; simpl; congruence. Qed.

Lemma filter_byCaller_strand p m : filter byCaller (strandEvents p m) = strandEvents p m.
Proof. induction m as [|[k f] m IH]; simpl; congruence. Qed.

Lemma filter_byCaller_pooled p m : filter byCaller (pooledEvents p m) = pooledEvents p m.
Proof. induction m as [|[k f] m IH]; simpl; congruence. Qed.

Lemma filter_isJoin_sync p m : filter isJoin (syncEvents p m) = [].
Proof. induction m as [|[k f] m IH]; simpl; congruence. Qed.

Lemma filter_isJoin_strand p m : filter isJoin (strandEvents p m) = [].
Proof. induction m as [|[k f] m IH]; simpl; congruence. Qed.

Lemma filter_isJoin_pooled p m : filter isJoin (pooledEvents p m) = [].
Proof. induction m as [|[k f] m IH]; simpl; congruence. Qed.

Lemma filter_isCallerInvoke_sync p m :
  filter isCallerInvoke (syncEvents p m) = syncEvents p m.
Proof. induction m as [|[k f] m IH]; simpl; congruence. Qed.

Lemma filter_isCallerInvoke_async p m : filter isCallerInvoke (asyncEvents p m) = [].
Proof. induction m as [|[k f] m IH]; simpl; congruence. Qed.

Lemma filter_isCallerInvoke_strand p m : filter isCallerInvoke (strandEvents p m) = [].
Proof. induction m as [|[k f] m IH]; simpl; congruence. Qed.

Lemma filter_isCallerInvoke_pooled p m : filter isCallerInvoke (pooledEvents p m) = [].
Proof. induction m as [|[k f] m IH]; simpl; congruence. Qed.

Lemma isCallerInvoke_byCaller e : isCallerInvoke e = true -> byCaller e = true.
Proof. destruct e as [[]| | | | | | | | | | | | | | | |]; simpl; congruence. Qed.

Lemma filter_isCallerInvoke_byCaller evs :
  filter isCallerInvoke (filter byCaller evs) = filter isCallerInvoke evs.
Proof.
  induction evs as [|e evs IH]; simpl; auto.
  destruct (byCaller e) eqn:Hb; simpl.
  - now rewrite IH.
  - destruct (isCallerInvoke e) eqn:Hi; auto.
    apply isCallerInvoke_byCaller in Hi. congruence.
Qed.

(** The synchronous loop comes first and runs whatever follows it. *)
Lemma emitSignalUnsafe_sync_first p st :
  exists rest,
    events (emitSignalUnsafe p st)
    = syncEvents p (synchronousSlots (signal st)) ++ rest.
Proof.
  unfold emitSignalUnsafe. unfold bind at 1. simpl.
  unfold bind at 1 2 3. rewrite sync_loop. simpl. eauto.
Qed.

Lemma emitSignalUnsafe_dispatch p st :
  asynchronousSlots (signal st) = [] \/ canAcquire (signal st) ->
  outcome (emitSignalUnsafe p st) = Returns tt /\
  filter byCaller (events (emitSignalUnsafe p st)) = dispatchEvents p (signal st) /\
  filter isJoin (events (emitSignalUnsafe p st)) = [].
Proof.
  intros Hcan. unfold emitSignalUnsafe, dispatchEvents.
  unfold bind at 1. simpl.
  rewrite (bind_returns _ _ _ tt) by now rewrite sync_loop.
  rewrite sync_loop. simpl.
  destruct (async_loop p (asynchronousSlots (signal st)) st Hcan) as (Ho & He & Hj).
  rewrite (bind_returns _ _ _ tt Ho). simpl.
  set (st1 := final (forEach (asynchronousSlots (signal st)) _ st)).
  destruct (strand_loop p (strandSlots (signal st)) st1) as [Ho2 He2].
  rewrite (bind_returns _ _ _ tt Ho2). simpl.
  set (st2 := final (forEach (strandSlots (signal st)) _ st1)).
  destruct (pooled_loop p (threadPooledSlots (signal st)) st2) as [Ho3 He3].
  rewrite Ho3, He3, He2. rewrite !filter_app, He, Hj.
  rewrite filter_byCaller_sync, filter_byCaller_strand, filter_byCaller_pooled.
  rewrite filter_isJoin_sync, filter_isJoin_strand, filter_isJoin_pooled.
  auto.
Qed.

Lemma emitSignal_unfold p st : emitSignal p st = emitSignalUnsafe p st.
Proof.
  unfold emitSignal, emitSignalThreadSafe. unfold bind at 1. simpl.
  destruct (enableEmissionGuard (signal st));
    destruct (emitSignalUnsafe p st) as [fin evs [a|why]]; reflexivity.
Qed.

(** ** The listener loop *)

Lemma listen_finished fuel id func w q :
  listen fuel id (Listener func w Finished) q = (Listener func w Finished, q, []).
Proof. destruct fuel; reflexivity. Qed.

Lemma maxWait_not_below_min : minWait <= maxWait -> (maxWait <? minWait) = false.
Proof. intros H. apply Z.ltb_ge. exact H. Qed.

(** From the loop test, with a queue that ends in the shutdown entry, the
    listener runs every task before it, in order, and returns. *)
Lemma listen_drains_from_test id q :
  minWait <= maxWait ->
  Forall (fun t => t <> None) q ->
  forall c w fuel,
    (2 * length q + 3 <= fuel)%nat ->
    listen fuel id (Listener (Some c) w AtLoopTest) (q ++ [None])
    = (Listener None minWait Finished, [], drainEvents id q).
Proof.
  intros Hmax. induction q as [|t q IH]; intros Hq c w fuel Hfuel.
  - destruct fuel as [|[|[|fuel]]]; simpl in Hfuel; try lia.
    cbn -[minWait]. rewrite (maxWait_not_below_min Hmax).
    cbn -[minWait]. now rewrite listen_finished.
  - inversion Hq as [|t' q' Ht Hq']; subst.
    destruct t as [c'|]; [|congruence].
    destruct fuel as [|[|fuel]]; simpl in Hfuel; try lia.
    cbn -[minWait listen]. cbn [listen].
    cbn -[minWait listen]. rewrite (maxWait_not_below_min Hmax).
    rewrite (IH Hq' c' minWait fuel) by lia.
    unfold drainEvents. simpl. now rewrite app_assoc.
Qed.

Lemma listen_drains id q c w pc fuel :
  minWait <= maxWait ->
  Forall (fun t => t <> None) q ->
  pc <> Finished ->
  (2 * length q + 4 <= fuel)%nat ->
  listen fuel id (Listener (Some c) w pc) (q ++ [None])
  = (Listener None minWait Finished, [], drainEvents id q).
Proof.
  intros Hmax Hq Hpc Hfuel. destruct pc; [| |congruence].
  - apply listen_drains_from_test; auto. lia.
  - destruct fuel as [|fuel]; [lia|].
    cbn -[minWait listen]. cbn [listen]. cbn -[minWait listen].
    destruct (maxWait <? w).
    + destruct q as [|t q]; simpl app.
      * destruct fuel as [|fuel]; [simpl in Hfuel; lia|].
        cbn -[minWait]. now rewrite listen_finished.
      * inversion Hq as [|t' q' Ht Hq']; subst.
        destruct t as [c'|]; [|congruence].
        rewrite (listen_drains_from_test id q Hmax Hq' c' minWait fuel)
          by (simpl in Hfuel; lia).
        unfold drainEvents. simpl. now rewrite app_assoc.
    + rewrite (listen_drains_from_test id q Hmax Hq c w fuel) by lia.
      reflexivity.
Qed.

(** *** The listener inside the object *)

Lemma withStrand_same id th q s :
  StdMap.find id (strandThreads s) = Some th ->
  StdMap.find id (strandQueues s) = Some q ->
  withStrand id th q s = s.
Proof.
  intros Ht Hq. unfold withStrand, set_strandThreads, set_strandQueues.
  destruct s; simpl in *.
  now rewrite (StdMap.update_same _ _ _ Ht), (StdMap.update_same _ _ _ Hq).
Qed.

Lemma withStrand_twice id th q th' q' s :
  withStrand id th' q' (withStrand id th q s) = withStrand id th' q' s.
Proof.
  unfold withStrand, set_strandThreads, set_strandQueues.
  destruct s; simpl. now rewrite !StdMap.update_update.
Qed.

Lemma withStrand_find_thread id th q s th0 :
  StdMap.find id (strandThreads s) = Some th0 ->
  StdMap.find id (strandThreads (withStrand id th q s)) = Some th.
Proof.
  intros H. unfold withStrand. destruct s; simpl in *.
  now rewrite (StdMap.find_update_same _ _ _ _ H).
Qed.

Lemma withStrand_find_queue id th q s q0 :
  StdMap.find id (strandQueues s) = Some q0 ->
  StdMap.find id (strandQueues (withStrand id th q s)) = Some q.
Proof.
  intros H. unfold withStrand. destruct s; simpl in *.
  now rewrite (StdMap.find_update_same _ _ _ _ H).
Qed.

(** One transition of a listener that is in the object. *)
Lemma listenerRuns_step id st func w pc q :
  StdMap.find id (strandThreads (signal st)) = Some (Listener func w pc) ->
  StdMap.find id (strandQueues (signal st)) = Some q ->
  listenerRuns id st
  = match queueListener id func w pc q with
    | Some (th', q', evs) =>
        {| final := {| signal := withStrand id th' q' (signal st); pool := pool st |};
           events := evs; outcome := Returns true |}
    | None => {| final := st; events := []; outcome := Returns false |}
    end.
Proof.
  intros Ht Hq. unfold listenerRuns. unfold bind at 1. simpl.
  rewrite Ht, Hq.
  destruct (queueListener id func w pc q) as [[[th' q'] evs]|]; [|reflexivity].
  unfold bind, modifySignal, logEvents, ret. simpl.
  now rewrite app_nil_r.
Qed.

(** Running the listener inside the object is running it on its own. *)
Lemma repeatWhile_listen fuel id :
  forall st th q,
    StdMap.find id (strandThreads (signal st)) = Some th ->
    StdMap.find id (strandQueues (signal st)) = Some q ->
    repeatWhile fuel (listenerRuns id) st
    = {| final := {| signal := withStrand id (fst (fst (listen fuel id th q)))
                                 (snd (fst (listen fuel id th q))) (signal st);
                     pool := pool st |};
         events := snd (listen fuel id th q);
         outcome := Returns tt |}.
Proof.
  induction fuel as [|fuel IH]; intros st th q Ht Hq.
  - simpl. rewrite (withStrand_same _ _ _ _ Ht Hq). now destruct st.
  - cbn [repeatWhile listen]. destruct th as [|func w pc].
    + unfold listenerRuns, bind. simpl. rewrite Ht. simpl.
      rewrite (withStrand_same _ _ _ _ Ht Hq). now destruct st.
    + unfold bind at 1. rewrite (listenerRuns_step _ _ _ _ _ _ Ht Hq).
      destruct (queueListener id func w pc q) as [[[th' q'] evs]|]; simpl.
      * rewrite (IH _ th' q').
        -- destruct (listen fuel id th' q') as [[th'' q''] evs']. simpl.
           now rewrite withStrand_twice.
        -- exact (withStrand_find_thread id th' q' _ _ Ht).
        -- exact (withStrand_find_queue id th' q' _ _ Hq).
      * rewrite (withStrand_same _ _ _ _ Ht Hq). now destruct st.
Qed.

(** [join] on a live listener whose queue ends in the shutdown entry: the
    listener runs what is queued before the entry, returns, and the caller
    goes on. *)
Lemma join_returns id st th q :
  minWait <= maxWait ->
  StdMap.find id (strandThreads (signal st)) = Some th ->
  live th ->
  StdMap.find id (strandQueues (signal st)) = Some (q ++ [None]) ->
  Forall (fun t => t <> None) q ->
  join id st
  = {| final := {| signal := withStrand id (Listener None minWait Finished) []
                               (signal st);
                   pool := pool st |};
       events := drainEvents id q ++ [EvJoin id];
       outcome := Returns tt |}.
Proof.
  intros Hmax Ht (c & w & pc & -> & Hpc) Hq Hall.
  unfold join. unfold bind at 1. simpl. rewrite Ht, Hq.
  rewrite (bind_returns _ _ _ tt)
    by (now rewrite (repeatWhile_listen _ _ _ _ _ Ht Hq)).
  rewrite (repeatWhile_listen _ _ _ _ _ Ht Hq).
  rewrite (listen_drains id q c w pc _ Hmax Hall Hpc)
    by (unfold joinFuel; rewrite length_app; simpl; lia).
  cbn -[minWait withStrand drainEvents].
  rewrite (withStrand_find_thread _ _ _ _ _ Ht).
  reflexivity.
Qed.

(** ** [disconnectSlot] *)

Lemma disconnectSlot_unknown id st :
  findSlotMapWithId id (signal st) = None ->
  disconnectSlot id st = {| final := st; events := []; outcome := Returns tt |}.
Proof.
  intros H. unfold disconnectSlot. unfold bind at 1. simpl. now rewrite H.
Qed.

Lemma disconnectSlot_direct id st r :
  findSlotMapWithId id (signal st) = Some r ->
  r <> StrandSlots ->
  disconnectSlot id st
  = {| final := {| signal := set_slotsOf r (StdMap.erase id (slotsOf r (signal st)))
                               (signal st);
                   pool := pool st |};
       events := [EvEraseSlot r id];
       outcome := Returns tt |}.
Proof.
  intros H Hr. unfold disconnectSlot. unfold bind at 1. simpl. rewrite H.
  destruct r; try congruence; reflexivity.
Qed.

Lemma findSlotMapWithId_some id s r :
  findSlotMapWithId id s = Some r -> StdMap.count id (slotsOf r s) = true.
Proof.
  unfold findSlotMapWithId.
  destruct (StdMap.count id (synchronousSlots s)) eqn:E1; [now intros [= <-]|].
  destruct (StdMap.count id (asynchronousSlots s)) eqn:E2; [now intros [= <-]|].
  destruct (StdMap.count id (strandSlots s)) eqn:E3; [now intros [= <-]|].
  destruct (StdMap.count id (threadPooledSlots s)) eqn:E4; [now intros [= <-]|].
  discriminate.
Qed.

Lemma findSlotMapWithId_none id s :
  findSlotMapWithId id s = None <-> forall r, StdMap.count id (slotsOf r s) = false.
Proof.
  unfold findSlotMapWithId. split.
  - destruct (StdMap.count id (synchronousSlots s)) eqn:E1; [discriminate|].
    destruct (StdMap.count id (asynchronousSlots s)) eqn:E2; [discriminate|].
    destruct (StdMap.count id (strandSlots s)) eqn:E3; [discriminate|].
    destruct (StdMap.count id (threadPooledSlots s)) eqn:E4; [discriminate|].
    intros _ []; assumption.
  - intros H.
    pose proof (H SynchronousSlots) as H1. pose proof (H AsynchronousSlots) as H2.
    pose proof (H StrandSlots) as H3. pose proof (H ThreadPooledSlots) as H4.
    simpl in H1, H2, H3, H4. now rewrite H1, H2, H3, H4.
Qed.

(** The hand-shake with a strand, from the state in which it starts. *)
Lemma disconnectSlot_strand id st th q :
  minWait <= maxWait ->
  findSlotMapWithId id (signal st) = Some StrandSlots ->
  StdMap.find id (strandThreads (signal st)) = Some th ->
  live th ->
  StdMap.find id (strandQueues (signal st)) = Some q ->
  Forall (fun t => t <> None) q ->
  disconnectSlot id st
  = {| final := {| signal := withoutStrand id (signal st); pool := pool st |};
       events := EvEnqueue id None :: drainEvents id q ++
                   [EvJoin id; EvEraseThread id; EvEraseQueue id;
                    EvEraseSlot StrandSlots id];
       outcome := Returns tt |}.
Proof.
  intros Hmax Hfind Ht Hlive Hq Hall.
  unfold disconnectSlot. unfold bind at 1. simpl. rewrite Hfind.
  cbn [SlotMapRef_eqb].
  set (st1 := final (enqueue id None st)).
  assert (Ht1 : StdMap.find id (strandThreads (signal st1)) = Some th)
    by (destruct st as [[] ?]; exact Ht).
  assert (Hq1 : StdMap.find id (strandQueues (signal st1)) = Some (q ++ [None])).
  { destruct st as [[] ?]. simpl in *. unfold StdMap.subscript.
    unfold MPSCQueue, Task in *.
    rewrite (StdMap.find_some_count _ _ _ Hq).
    now rewrite (StdMap.find_update_same _ _ _ _ Hq). }
  pose proof (join_returns id st1 th q Hmax Ht1 Hlive Hq1 Hall) as Hjoin.
  unfold bind.
  change (enqueue id None st) with
    {| final := st1; events := [EvEnqueue id None]; outcome := Returns tt |}.
  cbn [final events outcome]. rewrite Hjoin.
  cbn -[withStrand drainEvents minWait].
  f_equal.
  - f_equal. subst st1. destruct st as [[] ?].
    unfold withoutStrand, withStrand, set_slotsOf, set_strandQueues,
      set_strandThreads. cbn.
    unfold MPSCQueue, Task in *.
    now rewrite !StdMap.erase_update, StdMap.erase_subscript.
  - now rewrite <- !app_assoc.
Qed.

(** ** [disconnectAllSlots] *)

Lemma sorted_NoDup (l : list Z) : StronglySorted Z.lt l -> NoDup l.
Proof.
  induction 1 as [|a l Hs IH Hall]; constructor; auto.
  intros Hin. rewrite Forall_forall in Hall. specialize (Hall a Hin). lia.
Qed.

Lemma shutdownAll_find_other ids : forall qs id,
  ~ In id ids ->
  StdMap.find id (shutdownAll ids qs) = StdMap.find id qs.
Proof.
  unfold shutdownAll.
  induction ids as [|a ids IH]; intros qs id Hn; simpl; auto.
  rewrite IH by (simpl in Hn; tauto).
  rewrite StdMap.find_update_other, StdMap.find_subscript_other;
    simpl in Hn; intuition congruence.
Qed.

Lemma shutdownAll_find ids : forall qs id q,
  NoDup ids -> In id ids ->
  StdMap.find id qs = Some q ->
  StdMap.find id (shutdownAll ids qs) = Some (q ++ [None]).
Proof.
  induction ids as [|a ids IH]; intros qs id q Hnd Hin Hq; [contradiction|].
  inversion Hnd as [|a' ids' Ha Hnd']; subst.
  change (shutdownAll (a :: ids) qs)
    with (shutdownAll ids
            (StdMap.update a (fun q => q ++ [None]) (StdMap.subscript a [] qs))).
  destruct (Z.eq_dec a id) as [->|Hne].
  - rewrite shutdownAll_find_other by assumption.
    erewrite StdMap.find_update_same by apply StdMap.find_subscript_same.
    unfold MPSCQueue, Task in *. now rewrite Hq.
  - destruct Hin as [Hin|Hin]; [congruence|].
    apply IH; auto.
    rewrite StdMap.find_update_other, StdMap.find_subscript_other; auto.
Qed.

Lemma set_strandQueues_twice a b s :
  set_strandQueues a (set_strandQueues b s) = set_strandQueues a s.
Proof. now destruct s. Qed.

Lemma set_strandQueues_same s : set_strandQueues (strandQueues s) s = s.
Proof. now destruct s. Qed.

(** The first loop: the shutdown entry goes on every queue. *)
Lemma shutdown_loop {V} (m : StdMap.t V) : forall st,
  forEach m (fun id _ => enqueue id None) st
  = {| final := {| signal := set_strandQueues
                               (shutdownAll (StdMap.keys m) (strandQueues (signal st)))
                               (signal st);
                   pool := pool st |};
       events := map (fun kv => EvEnqueue (fst kv) None) m;
       outcome := Returns tt |}.
Proof.
  induction m as [|[k v] m IH]; intros st.
  - simpl. rewrite set_strandQueues_same. now destruct st.
  - cbn [forEach].
    rewrite (bind_returns (enqueue k None) _ st tt eq_refl).
    rewrite IH. cbn [final events outcome]. simpl.
    now rewrite set_strandQueues_twice.
Qed.

Lemma withStrand_find_thread_other id th q s id' :
  id' <> id ->
  StdMap.find id' (strandThreads (withStrand id th q s))
  = StdMap.find id' (strandThreads s).
Proof.
  intros H. unfold withStrand. destruct s; simpl.
  now rewrite StdMap.find_update_other.
Qed.

Lemma withStrand_find_queue_other id th q s id' :
  id' <> id ->
  StdMap.find id' (strandQueues (withStrand id th q s))
  = StdMap.find id' (strandQueues s).
Proof.
  intros H. unfold withStrand. destruct s; simpl.
  now rewrite StdMap.find_update_other.
Qed.

(** The second loop: every listener is joined, in key order. *)
Lemma join_loop (Q : Z -> MPSCQueue) {V} (m : StdMap.t V) : forall st,
  minWait <= maxWait ->
  NoDup (StdMap.keys m) ->
  (forall id, In id (StdMap.keys m) ->
     exists th,
       StdMap.find id (strandThreads (signal st)) = Some th /\ live th /\
       StdMap.find id (strandQueues (signal st)) = Some (Q id ++ [None]) /\
       Forall (fun t => t <> None) (Q id)) ->
  outcome (forEach m (fun id _ => join id) st) = Returns tt /\
  events (forEach m (fun id _ => join id) st)
  = flat_map (fun kv => drainEvents (fst kv) (Q (fst kv)) ++ [EvJoin (fst kv)]) m.
Proof.
  induction m as [|[k v] m IH]; intros st Hmax Hnd Hall; [simpl; auto|].
  inversion Hnd as [|k' m' Hk Hnd']; subst.
  destruct (Hall k (or_introl eq_refl)) as (th & Ht & Hlive & Hq & Hsome).
  pose proof (join_returns k st th (Q k) Hmax Ht Hlive Hq Hsome) as Hjoin.
  cbn [forEach].
  rewrite (bind_returns (join k) _ st tt) by now rewrite Hjoin.
  rewrite Hjoin. cbn [final events outcome].
  set (st1 := {| signal := withStrand k _ _ (signal st); pool := pool st |}).
  destruct (IH st1 Hmax Hnd') as [-> ->].
  { intros id Hin.
    assert (id <> k) by (intros ->; contradiction).
    destruct (Hall id (or_intror Hin)) as (th' & Ht' & Hlive' & Hq' & Hsome').
    exists th'. subst st1. cbn [signal].
    rewrite withStrand_find_thread_other, withStrand_find_queue_other by assumption.
    auto. }
  split; reflexivity.
Qed.

Lemma listenerRuns_preserves_besidesStrands id :
  preserves besidesStrands (listenerRuns id).
Proof.
  unfold listenerRuns. frame_step; [frame_step|].
  destruct (StdMap.find id (strandThreads a)) as [[|func w pc]|];
    try frame_step.
  destruct (StdMap.find id (strandQueues a)) as [q|]; try frame_step.
  destruct (queueListener id func w pc q) as [[[th' q'] evs]|];
    repeat frame_step.
Qed.

Lemma join_preserves_besidesStrands id : preserves besidesStrands (join id).
Proof.
  unfold join. frame_step; [frame_step|].
  destruct (StdMap.find id (strandThreads a)) as [[|func w pc]|];
    repeat frame_step.
  - apply listenerRuns_preserves_besidesStrands.
  - match goal with
    | |- preserves _ (match StdMap.find id (strandThreads ?x) with _ => _ end) =>
        destruct (StdMap.find id (strandThreads x)) as [[|? ? []]|]
    end; repeat frame_step.
Qed.

Lemma cleared_besidesStrands s s' p p' :
  besidesStrands {| signal := s; pool := p |}
  = besidesStrands {| signal := s'; pool := p' |} ->
  cleared s = cleared s' /\ p = p'.
Proof.
  unfold besidesStrands, cleared. simpl. intros [= -> -> -> -> ->]. auto.
Qed.

(** The whole of [disconnectAllSlots] on a well-formed object. *)
Lemma disconnectAllSlots_run st :
  minWait <= maxWait ->
  wf (signal st) ->
  disconnectAllSlots st
  = {| final := {| signal := cleared (signal st); pool := pool st |};
       events :=
         map (fun kv => EvEnqueue (fst kv) None) (strandQueues (signal st)) ++
         flat_map (fun kv => drainEvents (fst kv) (queueOf (fst kv) (signal st))
                             ++ [EvJoin (fst kv)])
                  (strandThreads (signal st)) ++
         clearEvents;
       outcome := Returns tt |}.
Proof.
  intros Hmax Hwf. unfold disconnectAllSlots. unfold bind at 1.
  cbn [getSignal final events outcome app].
  rewrite (bind_returns _ _ st tt) by now rewrite shutdown_loop.
  rewrite shutdown_loop. cbn [final events outcome].
  set (st1 := {| signal := set_strandQueues _ (signal st); pool := pool st |}).
  destruct (join_loop (fun id => queueOf id (signal st))
              (strandThreads (signal st)) st1 Hmax) as [Ho He].
  { apply sorted_NoDup, (wf_sorted_threads _ Hwf). }
  { intros id Hin.
    apply StdMap.count_true_iff in Hin.
    destruct (StdMap.count_find _ _ Hin) as [th Ht].
    assert (Hcq : StdMap.count id (strandQueues (signal st)) = true)
      by (rewrite (wf_queue_keys _ Hwf), <- (wf_thread_keys _ Hwf); exact Hin).
    destruct (StdMap.count_find _ _ Hcq) as [q Hq].
    exists th. repeat split.
    - subst st1. now destruct st as [[] ?].
    - exact (wf_threads _ Hwf _ _ Ht).
    - subst st1. destruct st as [[] ?]. cbn in *.
      unfold queueOf. cbn. unfold MPSCQueue, Task in *. rewrite Hq.
      apply shutdownAll_find; auto.
      + apply sorted_NoDup. exact (wf_sorted_queues _ Hwf).
      + now apply StdMap.count_true_iff.
    - unfold queueOf. unfold MPSCQueue, Task in *. rewrite Hq.
      exact (wf_queues _ Hwf _ _ Hq). }
  rewrite (bind_returns _ _ st1 tt Ho). rewrite He. cbn [final events outcome].
  set (st2 := final (forEach (strandThreads (signal st)) _ st1)).
  assert (Hb : besidesStrands st2 = besidesStrands st).
  { subst st2. rewrite preserves_forEach
      by (intros; apply join_preserves_besidesStrands).
    subst st1. now destruct st as [[] ?]. }
  destruct st2 as [s2 p2]. destruct st as [s p].
  apply cleared_besidesStrands in Hb. destruct Hb as [Hc ->].
  cbn. rewrite <- Hc. unfold cleared, clearSlots, bind. cbn.
  repeat f_equal.
Qed.

(** ** [connectSlot] *)

Lemma getSlotMap_cases scheme :
  (scheme = STRAND /\ getSlotMap scheme = StrandSlots) \/
  (scheme = THREAD_POOLED /\ getSlotMap scheme = ThreadPooledSlots) \/
  (scheme <> STRAND /\ scheme <> THREAD_POOLED /\ getSlotMap scheme <> StrandSlots).
Proof.
  unfold getSlotMap, ASYNCHRONOUS, STRAND, THREAD_POOLED.
  destruct (Z.eqb_spec scheme 1) as [->|H1].
  - right. right. repeat split; congruence.
  - destruct (Z.eqb_spec scheme 2) as [->|H2]; [now left|].
    destruct (Z.eqb_spec scheme 3) as [->|H3]; [right; now left|].
    right. right. repeat split; congruence.
Qed.

(** A strand whose id is not yet the key of a thread. *)
Lemma connectSlot_strand slot st :
  StdMap.count (currentId (signal st)) (strandThreads (signal st)) = false ->
  connectSlot STRAND slot st
  = {| final := {| signal := withNewStrand (currentId (signal st))
                               (registered StrandSlots (currentId (signal st))
                                  slot (signal st));
                   pool := pool st |};
       events := [EvSpawnListener (currentId (signal st))];
       outcome := Returns (to_int (currentId (signal st))) |}.
Proof.
  intros H. destruct st as [s p]. unfold connectSlot, spawnListener, bind.
  cbn in *. rewrite H. reflexivity.
Qed.

(** A strand whose id is the key of a thread: the process ends. *)
Lemma connectSlot_strand_terminates slot st :
  StdMap.count (currentId (signal st)) (strandThreads (signal st)) = true ->
  outcome (connectSlot STRAND slot st) = Stops Terminate.
Proof.
  intros H. destruct st as [s p]. unfold connectSlot, spawnListener, bind.
  cbn in *. rewrite H. reflexivity.
Qed.

Lemma connectSlot_pooled slot st :
  connectSlot THREAD_POOLED slot st
  = {| final := {| signal := registered ThreadPooledSlots (currentId (signal st))
                               slot (signal st);
                   pool := started (pool st) |};
       events := [EvPoolStartup];
       outcome := Returns (to_int (currentId (signal st))) |}.
Proof. destruct st as [s p]. reflexivity. Qed.

(** Every other scheme: the slot is registered and nothing else happens. *)
Lemma connectSlot_plain scheme slot st :
  scheme <> STRAND -> scheme <> THREAD_POOLED ->
  connectSlot scheme slot st
  = {| final := {| signal := registered (getSlotMap scheme) (currentId (signal st))
                               slot (signal st);
                   pool := pool st |};
       events := [];
       outcome := Returns (to_int (currentId (signal st))) |}.
Proof.
  intros H2 H3. destruct st as [s p]. unfold connectSlot, bind.
  cbn -[getSlotMap].
  destruct (Z.eqb_spec scheme STRAND); [contradiction|].
  destruct (Z.eqb_spec scheme THREAD_POOLED); [contradiction|].
  reflexivity.
Qed.

(** ** Well-formedness is kept *)

Lemma wf_maps st st' : maps st = maps st' -> wf (signal st) -> wf (signal st').
Proof.
  destruct st as [s p], st' as [s' p']. unfold maps. simpl.
  intros [= Hq Ht H1 H2 H3 H4] [Wt Wq Wtk Wqk Wsq Wst Wss].
  constructor; try rewrite <- Hq; try rewrite <- Ht; try rewrite <- H3; auto.
  intros r. specialize (Wss r). destruct r; simpl in *; congruence.
Qed.

Lemma wf_fresh guard maxAsync : wf (newSignal guard maxAsync).
Proof.
  constructor; simpl; try discriminate; auto; try constructor.
  destruct r; constructor.
Qed.

Lemma wf_cleared s : wf (cleared s).
Proof.
  constructor; simpl; try discriminate; auto; try constructor.
  destruct r; constructor.
Qed.

Lemma wf_registered r id slot s :
  r <> StrandSlots -> wf s -> wf (registered r id slot s).
Proof.
  intros Hr [Wt Wq Wtk Wqk Wsq Wst Wss].
  constructor; try (destruct s, r; simpl in *; auto; congruence).
  intros r'. specialize (Wss r').
  destruct s, r, r'; simpl in *; auto using StdMap.emplace_sorted; congruence.
Qed.

Lemma wf_newStrand id slot s :
  StdMap.count id (strandThreads s) = false ->
  wf s -> wf (withNewStrand id (registered StrandSlots id slot s)).
Proof.
  intros Hc [Wt Wq Wtk Wqk Wsq Wst Wss]. destruct s. simpl in *.
  constructor; simpl.
  - intros id' th. destruct (Z.eq_dec id' id) as [->|Hne].
    + rewrite StdMap.find_emplace_same by assumption. intros [= <-].
      exists NopLambda, minWait, AtLoopTest. split; [reflexivity | discriminate].
    + rewrite StdMap.find_emplace_other by assumption. apply Wt.
  - intros id' q. destruct (Z.eq_dec id' id) as [->|Hne].
    + rewrite StdMap.find_subscript_same. intros [= <-].
      destruct (StdMap.find id strandQueues0) eqn:E; [eauto | constructor].
    + rewrite StdMap.find_subscript_other by assumption. apply Wq.
  - intros id'. rewrite !StdMap.count_emplace. now rewrite Wtk.
  - intros id'. rewrite StdMap.count_subscript, StdMap.count_emplace.
    now rewrite Wqk.
  - now apply StdMap.subscript_sorted.
  - now apply StdMap.emplace_sorted.
  - intros r. specialize (Wss r).
    destruct r; simpl in *; auto using StdMap.emplace_sorted.
Qed.

Lemma wf_withoutStrand id s : wf s -> wf (withoutStrand id s).
Proof.
  intros [Wt Wq Wtk Wqk Wsq Wst Wss]. destruct s. simpl in *.
  constructor; simpl.
  - intros id' th. destruct (Z.eq_dec id' id) as [->|Hne].
    + now rewrite StdMap.find_erase_same.
    + rewrite StdMap.find_erase_other by assumption. apply Wt.
  - intros id' q. destruct (Z.eq_dec id' id) as [->|Hne].
    + now rewrite StdMap.find_erase_same.
    + rewrite StdMap.find_erase_other by assumption. apply Wq.
  - intros id'. destruct (Z.eq_dec id' id) as [->|Hne].
    + now rewrite !StdMap.count_erase_same.
    + now rewrite !StdMap.count_erase_other.
  - intros id'. destruct (Z.eq_dec id' id) as [->|Hne].
    + now rewrite !StdMap.count_erase_same.
    + now rewrite !StdMap.count_erase_other.
  - now apply StdMap.erase_sorted.
  - now apply StdMap.erase_sorted.
  - intros r. specialize (Wss r).
    destruct r; simpl in *; auto using StdMap.erase_sorted.
Qed.

Lemma wf_erased r id s :
  r <> StrandSlots -> wf s ->
  wf (set_slotsOf r (StdMap.erase id (slotsOf r s)) s).
Proof.
  intros Hr [Wt Wq Wtk Wqk Wsq Wst Wss].
  constructor; try (destruct s, r; simpl in *; auto; congruence).
  intros r'. specialize (Wss r').
  destruct s, r, r'; simpl in *; auto using StdMap.erase_sorted; congruence.
Qed.

Lemma wf_withStrand id th q s :
  live th -> Forall (fun t => t <> None) q -> wf s -> wf (withStrand id th q s).
Proof.
  intros Hl Hq [Wt Wq Wtk Wqk Wsq Wst Wss]. destruct s. simpl in *.
  constructor; simpl.
  - intros id' th'. destruct (Z.eq_dec id' id) as [->|Hne].
    + destruct (StdMap.find id strandThreads0) eqn:E.
      * rewrite (StdMap.find_update_same _ _ _ _ E). now intros [= <-].
      * intros H. apply StdMap.find_some_count in H.
        rewrite StdMap.count_update in H.
        apply StdMap.find_none_count in E. congruence.
    + rewrite StdMap.find_update_other by assumption. apply Wt.
  - intros id' q'. destruct (Z.eq_dec id' id) as [->|Hne].
    + destruct (StdMap.find id strandQueues0) eqn:E.
      * rewrite (StdMap.find_update_same _ _ _ _ E). now intros [= <-].
      * intros H. apply StdMap.find_some_count in H.
        rewrite StdMap.count_update in H.
        apply StdMap.find_none_count in E. congruence.
    + rewrite StdMap.find_update_other by assumption. apply Wq.
  - intros id'. now rewrite StdMap.count_update.
  - intros id'. now rewrite StdMap.count_update.
  - now apply StdMap.update_sorted.
  - now apply StdMap.update_sorted.
  - exact Wss.
Qed.

(** A task goes on the queue of a registered strand. *)
Lemma wf_enqueued id c s :
  StdMap.count id (strandSlots s) = true -> wf s ->
  wf (set_strandQueues
        (StdMap.update id (fun q => q ++ [Some c])
           (StdMap.subscript id [] (strandQueues s))) s).
Proof.
  intros Hc [Wt Wq Wtk Wqk Wsq Wst Wss]. destruct s. simpl in *.
  constructor; simpl; auto.
  - intros id' q'. destruct (Z.eq_dec id' id) as [->|Hne].
    + erewrite StdMap.find_update_same by apply StdMap.find_subscript_same.
      intros [= <-]. apply Forall_app. split.
      * destruct (StdMap.find id strandQueues0) eqn:E; [eauto | constructor].
      * repeat constructor. discriminate.
    + rewrite StdMap.find_update_other, StdMap.find_subscript_other by assumption.
      apply Wq.
  - intros id'. rewrite StdMap.count_update, StdMap.count_subscript, Wqk.
    destruct (Z.eqb_spec id' id) as [->|]; simpl; auto.
  - now apply StdMap.update_sorted, StdMap.subscript_sorted.
Qed.

Lemma queueListener_live id func w pc q th' q' evs :
  live (Listener func w pc) ->
  Forall (fun t => t <> None) q ->
  queueListener id func w pc q = Some (th', q', evs) ->
  live th' /\ Forall (fun t => t <> None) q'.
Proof.
  intros (c & w0 & pc0 & [= -> -> ->] & Hpc) Hq.
  unfold queueListener. destruct pc0; [| |congruence].
  - destruct q as [|t q].
    + intros [= <- <- <-]. split; auto.
      exists c, (w0 * 2), AtMaxCheck. split; [reflexivity | discriminate].
    + inversion Hq as [|t' q0 Ht Hq0]; subst.
      destruct t as [c'|]; [|congruence].
      intros [= <- <- <-]. split; auto.
      exists c', minWait, AtMaxCheck. split; [reflexivity | discriminate].
  - destruct (maxWait <? w0).
    + destruct q as [|t q]; [discriminate|].
      inversion Hq as [|t' q0 Ht Hq0]; subst.
      destruct t as [c'|]; [|congruence].
      intros [= <- <- <-]. split; auto.
      exists c', minWait, AtLoopTest. split; [reflexivity | discriminate].
    + intros [= <- <- <-]. split; auto.
      exists c, w0, AtLoopTest. split; [reflexivity | discriminate].
Qed.

(** *** Invariants through [bind] and loops *)

Lemma final_bind_inv {A B} (I : State -> Prop) (m : M A) (k : A -> M B) st :
  I (final (m st)) ->
  (forall a, I (final (k a (final (m st))))) ->
  I (final (bind m k st)).
Proof.
  intros Hm Hk. unfold bind. destruct (outcome (m st)); simpl; auto.
Qed.

Lemma forEach_inv {V} (I : State -> Prop) (m : StdMap.t V) body :
  (forall k v st, In (k, v) m -> I st -> I (final (body k v st))) ->
  forall st, I st -> I (final (forEach m body st)).
Proof.
  induction m as [|[k v] m IH]; intros Hb st Hst; simpl; auto.
  apply final_bind_inv.
  - apply Hb; simpl; auto.
  - intros _. apply IH.
    + intros k' v' st' Hin. apply Hb. simpl. auto.
    + apply Hb; simpl; auto.
Qed.

Lemma release_preserves_maps : preserves maps release.
Proof. unfold release. repeat frame_step. Qed.

Lemma detachedRuns_preserves_maps n : preserves maps (detachedRuns n).
Proof.
  unfold detachedRuns. frame_step; [frame_step|].
  match goal with
  | |- preserves _ (match ?x with _ => _ end) => destruct x as [[f p]|]
  end; repeat frame_step.
  apply release_preserves_maps.
Qed.

Lemma acquire_preserves_maps : preserves maps acquire.
Proof.
  unfold acquire. frame_step; [frame_step|].
  frame_step; [|repeat frame_step].
  match goal with
  | |- preserves _ (if ?b then _ else _) => destruct b
  end; [frame_step|].
  match goal with
  | |- preserves _ (match ?x with _ => _ end) => destruct x
  end; [frame_step|].
  apply detachedRuns_preserves_maps.
Qed.

Lemma runAsynchronous_preserves_maps f p : preserves maps (runAsynchronous f p).
Proof.
  unfold runAsynchronous. frame_step; [apply acquire_preserves_maps|].
  repeat frame_step.
Qed.

Lemma runThreadPooled_preserves_maps f p : preserves maps (runThreadPooled f p).
Proof. unfold runThreadPooled, poolRun. repeat frame_step. Qed.

Lemma poolRuns_preserves_maps : preserves maps poolRuns.
Proof.
  intros [s p]. unfold poolRuns. simpl.
  destruct (poolStarted p); [|reflexivity].
  destruct (poolQueue p); reflexivity.
Qed.

Lemma In_count {V} (m : StdMap.t V) k v : In (k, v) m -> StdMap.count k m = true.
Proof.
  intros H. apply StdMap.count_true_iff. unfold StdMap.keys.
  change k with (fst (k, v)). now apply in_map.
Qed.

Lemma emitSignalUnsafe_wf p st :
  wf (signal st) -> wf (signal (final (emitSignalUnsafe p st))).
Proof.
  intros Hwf. unfold emitSignalUnsafe. unfold bind at 1.
  cbn [getSignal final events outcome].
  set (I := fun st' : State =>
              wf (signal st') /\ strandSlots (signal st') = strandSlots (signal st)).
  cut (I (final
            ((forEach (synchronousSlots (signal st)) (fun _ slot => runSynchronous slot p);;
              forEach (asynchronousSlots (signal st)) (fun _ slot => runAsynchronous slot p);;
              forEach (strandSlots (signal st)) (fun id slot => runStrands id slot p);;
              forEach (threadPooledSlots (signal st)) (fun _ slot => runThreadPooled slot p))
               st))); [now intros [H _]|].
  assert (Hmaps : forall st1 st2, maps st2 = maps st1 -> I st1 -> I st2).
  { intros st1 st2 Hm [H1 H2]. split.
    - eapply wf_maps; [symmetry|]; eauto.
    - unfold maps in Hm. congruence. }
  assert (I st) by (split; auto).
  apply final_bind_inv; [now rewrite sync_loop|]. intros _.
  rewrite sync_loop. cbn [final].
  apply final_bind_inv.
  { apply forEach_inv; auto. intros k v st' _ Hst'.
    eapply Hmaps; [|exact Hst']. apply runAsynchronous_preserves_maps. }
  intros _.
  match goal with |- I (final (bind _ _ ?s)) => assert (Hs : I s) end.
  { apply forEach_inv; auto. intros k v st' _ Hst'.
    eapply Hmaps; [|exact Hst']. apply runAsynchronous_preserves_maps. }
  apply final_bind_inv.
  { apply forEach_inv; auto. intros k v [s' p'] Hin [Hw Hss].
    unfold runStrands, enqueue, bind. cbn in *. split.
    - apply wf_enqueued; auto. rewrite Hss. eapply In_count; eauto.
    - destruct s'; exact Hss. }
  intros _.
  apply forEach_inv.
  - intros k v st' _ Hst'.
    eapply Hmaps; [|exact Hst']. apply runThreadPooled_preserves_maps.
  - apply forEach_inv; auto. intros k v [s' p'] Hin [Hw Hss].
    unfold runStrands, enqueue, bind. cbn in *. split.
    + apply wf_enqueued; auto. rewrite Hss. eapply In_count; eauto.
    + destruct s'; exact Hss.
Qed.

Lemma listenerRuns_wf id st :
  wf (signal st) -> wf (signal (final (listenerRuns id st))).
Proof.
  intros Hwf.
  destruct (StdMap.find id (strandThreads (signal st))) as [[|func w pc]|] eqn:Et;
    try (unfold listenerRuns, bind; cbn; rewrite Et; exact Hwf).
  destruct (StdMap.find id (strandQueues (signal st))) as [q|] eqn:Eq;
    [|unfold listenerRuns, bind; cbn; rewrite Et, Eq; exact Hwf].
  rewrite (listenerRuns_step _ _ _ _ _ _ Et Eq).
  destruct (queueListener id func w pc q) as [[[th' q'] evs]|] eqn:Es; auto.
  destruct (queueListener_live _ _ _ _ _ _ _ _
              (wf_threads _ Hwf _ _ Et) (wf_queues _ Hwf _ _ Eq) Es).
  cbn [final signal]. now apply wf_withStrand.
Qed.

(** [join] changes nothing but the listener it waits for and its queue. *)
Lemma join_final id st th q :
  StdMap.find id (strandThreads (signal st)) = Some th ->
  StdMap.find id (strandQueues (signal st)) = Some q ->
  exists th' q',
    final (join id st)
    = {| signal := withStrand id th' q' (signal st); pool := pool st |}.
Proof.
  intros Ht Hq. unfold join. unfold bind at 1.
  cbn [getSignal final events outcome]. rewrite Ht, Hq.
  destruct th as [|func w pc].
  - exists NotAThread, q. cbn.
    rewrite (withStrand_same _ _ _ _ Ht Hq). now destruct st.
  - rewrite (bind_returns _ _ st tt)
      by now rewrite (repeatWhile_listen _ _ _ _ _ Ht Hq).
    rewrite (repeatWhile_listen _ _ _ _ _ Ht Hq).
    cbn [final events outcome].
    eexists _, _. unfold bind at 1. cbn [getSignal final events outcome].
    match goal with
    | |- final (match ?x with _ => _ end _) = _ =>
        destruct x as [[|? ? []]|]; reflexivity
    end.
Qed.

Lemma disconnectSlot_strand_unfold id st :
  findSlotMapWithId id (signal st) = Some StrandSlots ->
  disconnectSlot id st
  = ((enqueue id None ;; join id ;; eraseThread id ;; eraseQueue id) ;;
     eraseSlot StrandSlots id) st.
Proof.
  intros Hfind. unfold disconnectSlot. unfold bind at 1.
  cbn [getSignal final events outcome]. rewrite Hfind.
  destruct (bind _ _ st) as [fin evs [a|why]]; reflexivity.
Qed.

Lemma disconnectSlot_strand_final id st th q :
  findSlotMapWithId id (signal st) = Some StrandSlots ->
  StdMap.find id (strandThreads (signal st)) = Some th ->
  StdMap.find id (strandQueues (signal st)) = Some q ->
  outcome (disconnectSlot id st) = Returns tt ->
  final (disconnectSlot id st)
  = {| signal := withoutStrand id (signal st); pool := pool st |}.
Proof.
  intros Hfind Ht Hq. rewrite (disconnectSlot_strand_unfold _ _ Hfind).
  intros Ho.
  set (st1 := final (enqueue id None st)).
  assert (Ht1 : StdMap.find id (strandThreads (signal st1)) = Some th)
    by (destruct st as [[] ?]; exact Ht).
  assert (Hq1 : StdMap.find id (strandQueues (signal st1)) = Some (q ++ [None])).
  { destruct st as [[] ?]. simpl in *. unfold StdMap.subscript.
    unfold MPSCQueue, Task in *.
    rewrite (StdMap.find_some_count _ _ _ Hq).
    now rewrite (StdMap.find_update_same _ _ _ _ Hq). }
  destruct (join_final id st1 th _ Ht1 Hq1) as (th' & q' & Hj).
  destruct (bind_outcome_returns _ _ _ _ Ho) as ([] & Ho1 & _).
  rewrite (bind_returns _ _ _ _ Ho1). cbn [final].
  rewrite (bind_returns (enqueue id None) _ st tt eq_refl) in Ho1 |- *.
  cbn [final outcome] in Ho1 |- *. fold st1 in Ho1 |- *.
  destruct (bind_outcome_returns _ _ _ _ Ho1) as ([] & Hoj & _).
  rewrite (bind_returns _ _ _ _ Hoj). cbn [final]. rewrite Hj.
  subst st1. destruct st as [[] ?].
  unfold withoutStrand, withStrand, set_slotsOf, set_strandQueues,
    set_strandThreads. cbn.
  unfold MPSCQueue, Task in *.
  now rewrite !StdMap.erase_update, StdMap.erase_subscript.
Qed.

Lemma disconnectSlot_wf id st :
  wf (signal st) ->
  outcome (disconnectSlot id st) = Returns tt ->
  wf (signal (final (disconnectSlot id st))).
Proof.
  intros Hwf Ho.
  destruct (findSlotMapWithId id (signal st)) as [r|] eqn:Hfind.
  - destruct (SlotMapRef_eqb r StrandSlots) eqn:Hr.
    + assert (r = StrandSlots) by (destruct r; simpl in Hr; congruence). subst r.
      pose proof (findSlotMapWithId_some _ _ _ Hfind) as Hc. simpl in Hc.
      assert (Hct : StdMap.count id (strandThreads (signal st)) = true)
        by now rewrite (wf_thread_keys _ Hwf).
      assert (Hcq : StdMap.count id (strandQueues (signal st)) = true)
        by now rewrite (wf_queue_keys _ Hwf).
      destruct (StdMap.count_find _ _ Hct) as [th Ht].
      destruct (StdMap.count_find _ _ Hcq) as [q Hq].
      rewrite (disconnectSlot_strand_final _ _ _ _ Hfind Ht Hq Ho).
      now apply wf_withoutStrand.
    + rewrite (disconnectSlot_direct _ _ _ Hfind)
        by (intros ->; discriminate).
      apply wf_erased; auto. intros ->. discriminate.
  - now rewrite (disconnectSlot_unknown _ _ Hfind).
Qed.

(** When [disconnectAllSlots] returns, every map is empty. *)
Lemma disconnectAllSlots_final st :
  outcome (disconnectAllSlots st) = Returns tt ->
  exists s2, signal (final (disconnectAllSlots st)) = cleared s2.
Proof.
  unfold disconnectAllSlots. rewrite bind_getSignal. intros Ho.
  destruct (bind_outcome_returns _ _ _ _ Ho) as ([] & Ho1 & Ho').
  rewrite (bind_returns _ _ st tt Ho1). cbn [final].
  set (st1 := final (forEach (strandQueues (signal st)) _ st)) in *.
  destruct (bind_outcome_returns _ _ _ _ Ho') as ([] & Ho2 & _).
  rewrite (bind_returns _ _ st1 tt Ho2). cbn [final].
  set (st2 := final (forEach (strandThreads (signal st)) _ st1)).
  exists (signal st2). destruct st2 as [[] ?]. reflexivity.
Qed.

Lemma connectSlot_wf scheme slot st id :
  wf (signal st) ->
  outcome (connectSlot scheme slot st) = Returns id ->
  wf (signal (final (connectSlot scheme slot st))).
Proof.
  intros Hwf Ho.
  destruct (getSlotMap_cases scheme) as [[-> _]|[[-> _]|(H2 & H3 & Hr)]].
  - destruct (StdMap.count (currentId (signal st)) (strandThreads (signal st))) eqn:E.
    + rewrite (connectSlot_strand_terminates _ _ E) in Ho. discriminate.
    + rewrite (connectSlot_strand _ _ E). cbn [final signal].
      apply wf_newStrand; auto.
  - rewrite connectSlot_pooled. cbn [final signal].
    apply wf_registered; auto. discriminate.
  - rewrite (connectSlot_plain _ _ _ H2 H3). cbn [final signal].
    apply wf_registered; auto.
Qed.

Lemma perform_wf a st ids :
  wf (signal st) ->
  outcome (perform a st) = Returns ids ->
  wf (signal (final (perform a st))).
Proof.
  intros Hwf Ho. destruct a as [scheme slot|id| |p|id|n|]; cbn [perform] in *.
  - destruct (bind_outcome_returns _ _ _ _ Ho) as (id & Ho1 & _).
    rewrite (bind_returns _ _ _ _ Ho1). cbn [final ret].
    eapply connectSlot_wf; eauto.
  - destruct (bind_outcome_returns _ _ _ _ Ho) as ([] & Ho1 & _).
    rewrite (bind_returns _ _ _ _ Ho1). cbn [final ret].
    now apply disconnectSlot_wf.
  - destruct (bind_outcome_returns _ _ _ _ Ho) as ([] & Ho1 & _).
    rewrite (bind_returns _ _ _ _ Ho1). cbn [final ret].
    destruct (disconnectAllSlots_final _ Ho1) as [s2 ->]. apply wf_cleared.
  - assert (H : wf (signal (final (emitSignal p st))))
      by (rewrite emitSignal_unfold; now apply emitSignalUnsafe_wf).
    apply (final_bind_inv (fun s => wf (signal s))); [exact H | intros; exact H].
  - assert (H : wf (signal (final (listenerRuns id st))))
      by now apply listenerRuns_wf.
    apply (final_bind_inv (fun s => wf (signal s))); [exact H | intros; exact H].
  - assert (H : wf (signal (final (detachedRuns n st)))).
    { eapply wf_maps; [|exact Hwf]. symmetry. apply detachedRuns_preserves_maps. }
    apply (final_bind_inv (fun s => wf (signal s))); [exact H | intros; exact H].
  - assert (H : wf (signal (final (poolRuns st)))).
    { eapply wf_maps; [|exact Hwf]. symmetry. apply poolRuns_preserves_maps. }
    apply (final_bind_inv (fun s => wf (signal s))); [exact H | intros; exact H].
Qed.

Lemma performAll_wf h : forall st ids,
  wf (signal st) ->
  outcome (performAll h st) = Returns ids ->
  wf (signal (final (performAll h st))).
Proof.
  induction h as [|a h IH]; intros st ids Hwf Ho; [exact Hwf|].
  cbn [performAll] in *.
  destruct (bind_outcome_returns _ _ _ _ Ho) as (ids1 & Ho1 & Ho').
  rewrite (bind_returns _ _ _ _ Ho1). cbn [final].
  destruct (bind_outcome_returns _ _ _ _ Ho') as (ids2 & Ho2 & _).
  rewrite (bind_returns _ _ _ _ Ho2). cbn [final ret].
  eapply IH; eauto. eapply perform_wf; eauto.
Qed.

Lemma reachableFrom_wf guard maxAsync st :
  reachableFrom guard maxAsync st -> wf (signal st).
Proof.
  intros (h & evs & ids & Hrun).
  replace st with (final (performAll h (freshState guard maxAsync)))
    by now rewrite Hrun.
  apply (performAll_wf h _ ids).
  - apply wf_fresh.
  - now rewrite Hrun.
Qed.

Lemma reachable_wf st : reachable st -> wf (signal st).
Proof.
  intros (guard & maxAsync & _ & H). eapply reachableFrom_wf; eauto.
Qed.

(** ** The id counter *)

(** Proves [preserves proj m] for the member functions, by going through
    their code. *)
Ltac frame_solve :=
  unfold connectSlot, spawnListener, fetch_add_currentId,
    disconnectSlot, disconnectAllSlots, emitSignal, emitSignalThreadSafe,
    emitSignalUnsafe, runSynchronous, runAsynchronous, runStrands,
    runThreadPooled, clearSlots, eraseSlot, eraseThread, eraseQueue, join,
    listenerRuns, enqueue, acquire, detachedRuns, release, poolRun, startup;
  repeat first
    [ frame_step
    | match goal with
      | |- preserves _ (match ?x with _ => _ end) => destruct x
      end ].

Lemma disconnectSlot_preserves_counter id : preserves counterOf (disconnectSlot id).
Proof. frame_solve. Qed.

Lemma disconnectAllSlots_preserves_counter : preserves counterOf disconnectAllSlots.
Proof. frame_solve. Qed.

Lemma emitSignal_preserves_counter p : preserves counterOf (emitSignal p).
Proof. frame_solve. Qed.

Lemma listenerRuns_preserves_counter id : preserves counterOf (listenerRuns id).
Proof. frame_solve. Qed.

Lemma detachedRuns_preserves_counter n : preserves counterOf (detachedRuns n).
Proof. frame_solve. Qed.

Lemma poolRuns_preserves_counter : preserves counterOf poolRuns.
Proof.
  intros [s p]. unfold poolRuns. simpl.
  destruct (poolStarted p); [|reflexivity].
  destruct (poolQueue p); reflexivity.
Qed.

(** [connectSlot] returns the counter, cast, and steps it. *)
Lemma connectSlot_id scheme slot st id :
  outcome (connectSlot scheme slot st) = Returns id ->
  id = to_int (currentId (signal st)) /\
  counterOf (final (connectSlot scheme slot st))
  = wrap32 (currentId (signal st) + 1).
Proof.
  unfold counterOf.
  destruct (getSlotMap_cases scheme) as [[-> _]|[[-> _]|(H2 & H3 & Hr)]].
  - destruct (StdMap.count (currentId (signal st)) (strandThreads (signal st))) eqn:E.
    + rewrite (connectSlot_strand_terminates _ _ E). discriminate.
    + rewrite (connectSlot_strand _ _ E). cbn [outcome final signal].
      intros [= <-]. split; [reflexivity | now destruct st as [[] ?]].
  - rewrite connectSlot_pooled. cbn [outcome final signal].
    intros [= <-]. split; [reflexivity | now destruct st as [[] ?]].
  - rewrite (connectSlot_plain _ _ _ H2 H3). cbn [outcome final signal].
    intros [= <-]. split; [reflexivity|]. destruct st as [[] ?].
    now destruct (getSlotMap scheme).
Qed.

(** An action returns the id of its [Connect], or none, and steps the
    counter accordingly. *)
Lemma perform_ids a st ids :
  outcome (perform a st) = Returns ids ->
  match a with
  | Connect _ _ =>
      ids = [to_int (currentId (signal st))] /\
      counterOf (final (perform a st)) = wrap32 (currentId (signal st) + 1)
  | _ =>
      ids = [] /\ counterOf (final (perform a st)) = currentId (signal st)
  end.
Proof.
  intros Ho.
  assert (Hother : forall (m : M unit),
             preserves counterOf m ->
             outcome (bind m (fun _ => ret (@nil Z)) st) = Returns ids ->
             ids = [] /\
             counterOf (final (bind m (fun _ => ret (@nil Z)) st))
             = currentId (signal st)).
  { intros m Hm H.
    destruct (bind_outcome_returns _ _ _ _ H) as ([] & H1 & H2).
    rewrite (bind_returns _ _ _ _ H1) in *. cbn in H |- *.
    injection H as <-. split; [reflexivity | apply Hm]. }
  destruct a as [scheme slot|id| |p|id|n|]; cbn [perform] in *.
  - destruct (bind_outcome_returns _ _ _ _ Ho) as (id & H1 & H2).
    rewrite (bind_returns _ _ _ _ H1) in *. cbn in Ho |- *.
    injection Ho as <-.
    destruct (connectSlot_id _ _ _ _ H1) as [-> Hc]. auto.
  - apply Hother; auto using disconnectSlot_preserves_counter.
  - apply Hother; auto using disconnectAllSlots_preserves_counter.
  - apply Hother; auto using emitSignal_preserves_counter.
  - destruct (bind_outcome_returns _ _ _ _ Ho) as (b & H1 & H2).
    rewrite (bind_returns _ _ _ _ H1) in *. cbn in Ho |- *.
    injection Ho as <-. split; [reflexivity | apply listenerRuns_preserves_counter].
  - apply Hother; auto using detachedRuns_preserves_counter.
  - apply Hother; auto using poolRuns_preserves_counter.
Qed.

Lemma wrap32_range z : 0 <= wrap32 z < UINT32_MOD.
Proof. unfold wrap32, UINT32_MOD. apply Z.mod_pos_bound. lia. Qed.

Lemma wrap32_small z : 0 <= z < UINT32_MOD -> wrap32 z = z.
Proof. unfold wrap32. apply Z.mod_small. Qed.

Lemma idAfter_succ c k : idAfter (wrap32 (c + 1)) k = idAfter c (S k).
Proof.
  unfold idAfter, wrap32. f_equal.
  rewrite Zplus_mod_idemp_l. f_equal. lia.
Qed.

(** The ids of a history: the [k]-th [Connect] returns the counter [k]
    steps on, cast. *)
Lemma performAll_ids h : forall st ids,
  0 <= currentId (signal st) < UINT32_MOD ->
  outcome (performAll h st) = Returns ids ->
  ids = map (idAfter (currentId (signal st))) (seq 0 (connects h)).
Proof.
  induction h as [|a h IH]; intros st ids Hc Ho.
  - cbn in Ho. now injection Ho as <-.
  - cbn [performAll] in Ho.
    destruct (bind_outcome_returns _ _ _ _ Ho) as (ids1 & H1 & Ho').
    destruct (bind_outcome_returns _ _ _ _ Ho') as (ids2 & H2 & H3).
    cbn in H3. injection H3 as <-.
    pose proof (perform_ids _ _ _ H1) as Ha.
    destruct a as [scheme slot|id| |p|id|n|]; destruct Ha as [-> Hcount];
      unfold counterOf in Hcount; cbn [connects app];
      match goal with
      | |- ids2 = _ =>
          match type of H2 with
          | outcome (performAll h ?s) = _ =>
              assert (Hr : 0 <= currentId (signal s) < UINT32_MOD)
                by (rewrite Hcount; exact Hc)
          end;
          rewrite (IH _ _ Hr H2), Hcount; reflexivity
      | _ => idtac
      end.
    assert (Hr : 0 <= currentId (signal (final (perform (Connect scheme slot) st)))
                 < UINT32_MOD) by (rewrite Hcount; apply wrap32_range).
    rewrite (IH _ _ Hr H2).
    rewrite Hcount. cbn [seq map]. f_equal.
    + unfold idAfter. f_equal. rewrite Z.add_0_r. symmetry. now apply wrap32_small.
    + rewrite <- seq_shift, map_map. apply map_ext. intros k.
      apply idAfter_succ.
Qed.

Lemma connects_connectOnly_nil h : connectOnly h -> connects h = O -> h = [].
Proof.
  destruct h as [|[]]; unfold connectOnly; simpl; auto; discriminate.
Qed.

(** A history of [Connect]s that does not take the counter past its range
    returns, whatever the schemes. *)
Lemma connectOnly_returns h : forall st,
  connectOnly h ->
  (forall id, StdMap.count id (strandThreads (signal st)) = true ->
              id < currentId (signal st)) ->
  0 <= currentId (signal st) ->
  currentId (signal st) + Z.of_nat (connects h) <= UINT32_MOD ->
  exists ids, outcome (performAll h st) = Returns ids.
Proof.
  induction h as [|a h IH]; intros st Hco Hkeys Hc0 Hc; [cbn; eauto|].
  destruct a as [scheme slot| | | | | |]; try discriminate.
  assert (Hco' : connectOnly h) by exact Hco.
  cbn [connects] in Hc.
  assert (Hret : exists id, outcome (connectSlot scheme slot st) = Returns id /\
                   (forall id', StdMap.count id' (strandThreads
                                   (signal (final (connectSlot scheme slot st)))) = true ->
                                id' <= currentId (signal st))).
  { destruct (getSlotMap_cases scheme) as [[-> _]|[[-> _]|(H2 & H3 & Hr)]].
    - assert (E : StdMap.count (currentId (signal st)) (strandThreads (signal st)) = false).
      { destruct (StdMap.count _ _) eqn:E; auto. apply Hkeys in E. lia. }
      rewrite (connectSlot_strand _ _ E). eexists. split; [reflexivity|].
      intros id'. destruct st as [[] ?]. cbn. rewrite StdMap.count_emplace.
      intros H. apply orb_true_iff in H. destruct H as [H|H].
      + apply Z.eqb_eq in H. lia.
      + apply Hkeys in H. cbn in H. lia.
    - rewrite connectSlot_pooled. eexists. split; [reflexivity|].
      intros id' H. destruct st as [[] ?]. apply Hkeys in H. cbn in *. lia.
    - rewrite (connectSlot_plain _ _ _ H2 H3). eexists. split; [reflexivity|].
      intros id' H. destruct st as [[] ?].
      assert (H' : StdMap.count id' strandThreads0 = true)
        by (destruct (getSlotMap scheme); exact H).
      apply Hkeys in H'. cbn in *. lia. }
  destruct Hret as (id & Hid & Hkeys').
  destruct (connectSlot_id _ _ _ _ Hid) as [_ Hcount]. unfold counterOf in Hcount.
  cbn [performAll perform].
  assert (H1 : outcome ((id <- connectSlot scheme slot;; ret [id]) st) = Returns [id])
    by (rewrite (bind_returns _ _ _ _ Hid); reflexivity).
  rewrite (bind_returns _ _ _ _ H1). cbn [outcome].
  assert (Hfin : final ((id <- connectSlot scheme slot;; ret [id]) st)
                 = final (connectSlot scheme slot st))
    by (rewrite (bind_returns _ _ _ _ Hid); reflexivity).
  rewrite Hfin.
  destruct (Nat.eq_dec (connects h) 0) as [Hz|Hnz].
  - rewrite (connects_connectOnly_nil h Hco' Hz). cbn. eauto.
  - destruct (IH (final (connectSlot scheme slot st)) Hco') as [ids' Hids'].
    + intros id' H. apply Hkeys' in H. rewrite Hcount.
      rewrite wrap32_small by lia. lia.
    + rewrite Hcount. apply wrap32_range.
    + rewrite Hcount. rewrite wrap32_small by lia. lia.
    + rewrite (bind_returns _ _ _ _ Hids'). cbn. eauto.
Qed.

(** ** Properties of all events of a computation *)

Lemma eventsAll_ret {A} Q (a : A) : eventsAll Q (ret a).
Proof. intros st. constructor. Qed.

Lemma eventsAll_stop {A} Q why : eventsAll Q (@stop A why).
Proof. intros st. constructor. Qed.

Lemma eventsAll_getSignal Q : eventsAll Q getSignal.
Proof. intros st. constructor. Qed.

Lemma eventsAll_modifySignal Q f : eventsAll Q (modifySignal f).
Proof. intros st. constructor. Qed.

Lemma eventsAll_modifyPool Q f : eventsAll Q (modifyPool f).
Proof. intros st. constructor. Qed.

Lemma eventsAll_logEvent (Q : Event -> Prop) e : Q e -> eventsAll Q (logEvent e).
Proof. intros H st. repeat constructor. exact H. Qed.

Lemma eventsAll_logEvents (Q : Event -> Prop) evs :
  Forall Q evs -> eventsAll Q (logEvents evs).
Proof. intros H st. exact H. Qed.

Lemma eventsAll_bind {A B} Q (m : M A) (k : A -> M B) :
  eventsAll Q m -> (forall a, eventsAll Q (k a)) -> eventsAll Q (bind m k).
Proof.
  intros Hm Hk st. unfold bind.
  destruct (outcome (m st)) as [a|why]; simpl.
  - apply Forall_app. split; [apply Hm | apply Hk].
  - apply Hm.
Qed.

Lemma eventsAll_forEach {V} Q (m : StdMap.t V) body :
  (forall k v, eventsAll Q (body k v)) -> eventsAll Q (forEach m body).
Proof.
  intros Hb. induction m as [|[k v] m IH]; simpl.
  - apply eventsAll_ret.
  - apply eventsAll_bind; auto.
Qed.

Lemma eventsAll_repeatWhile Q fuel body :
  eventsAll Q body -> eventsAll Q (repeatWhile fuel body).
Proof.
  intros Hb. induction fuel as [|n IH]; simpl.
  - apply eventsAll_ret.
  - apply eventsAll_bind; auto. intros [|]; auto using eventsAll_ret.
Qed.

Lemma runTask_events (Q : Event -> Prop) who t :
  (forall f p, Q (EvInvoke who f p)) -> Forall Q (runTask who t).
Proof. intros H. destruct t as [[|f p]|]; simpl; auto. Qed.

(** The events of a listener are the calls of its tasks, its sleeps and its
    return. *)
Lemma queueListener_events (Q : Event -> Prop) id func w pc q th' q' evs :
  (forall f p, Q (EvInvoke (StrandThread id) f p)) ->
  (forall w, Q (EvSleep id w)) ->
  Q (EvListenerExit id) ->
  queueListener id func w pc q = Some (th', q', evs) ->
  Forall Q evs.
Proof.
  intros Hi Hs He. unfold queueListener.
  destruct pc; [| |discriminate].
  - destruct func; [|intros [= <- <- <-]; auto].
    destruct q; intros [= <- <- <-]; auto using runTask_events.
  - destruct (maxWait <? w); [|intros [= <- <- <-]; auto].
    destruct q; [discriminate|]. intros [= <- <- <-]. auto using runTask_events.
Qed.

Lemma listenerRuns_events (Q : Event -> Prop) id :
  (forall f p, Q (EvInvoke (StrandThread id) f p)) ->
  (forall w, Q (EvSleep id w)) ->
  Q (EvListenerExit id) ->
  eventsAll Q (listenerRuns id).
Proof.
  intros Hi Hs He. unfold listenerRuns.
  apply eventsAll_bind; [apply eventsAll_getSignal|]. intros s.
  destruct (StdMap.find id (strandThreads s)) as [[|func w pc]|];
    try apply eventsAll_ret.
  destruct (StdMap.find id (strandQueues s)) as [q|]; try apply eventsAll_ret.
  destruct (queueListener id func w pc q) as [[[th' q'] evs]|] eqn:E;
    try apply eventsAll_ret.
  apply eventsAll_bind; [apply eventsAll_modifySignal|]. intros _.
  apply eventsAll_bind; [|intros; apply eventsAll_ret].
  apply eventsAll_logEvents. eapply queueListener_events; eauto.
Qed.

Ltac events_step :=
  lazymatch goal with
  | |- eventsAll _ (bind _ _) => apply eventsAll_bind; [|intros ?]
  | |- eventsAll _ (ret _) => apply eventsAll_ret
  | |- eventsAll _ (stop _) => apply eventsAll_stop
  | |- eventsAll _ (logEvent _) =>
      apply eventsAll_logEvent; first [reflexivity | exact I | cbn; eauto]
  | |- eventsAll _ getSignal => apply eventsAll_getSignal
  | |- eventsAll _ (forEach _ _) => apply eventsAll_forEach; intros ? ?
  | |- eventsAll _ (repeatWhile _ _) => apply eventsAll_repeatWhile
  | |- eventsAll _ (modifySignal _) => apply eventsAll_modifySignal
  | |- eventsAll _ (modifyPool _) => apply eventsAll_modifyPool
  | |- eventsAll _ (listenerRuns _) =>
      apply listenerRuns_events; [intros ? ? | intros ? |]; reflexivity
  end.

(** Proves [eventsAll Q m], with [Q e] an equation that computes, for the
    code that does not put the shutdown entry on a queue. *)
Ltac events_solve :=
  unfold connectSlot, spawnListener, fetch_add_currentId, emitSignal,
    emitSignalThreadSafe, emitSignalUnsafe, runSynchronous, runAsynchronous,
    runStrands, runThreadPooled, enqueue, acquire, detachedRuns, release,
    poolRun, startup;
  repeat first
    [ events_step
    | match goal with
      | |- eventsAll _ (match ?x with _ => _ end) => destruct x
      end ].

Lemma poolRuns_events (Q : Event -> Prop) : eventsAll Q poolRuns.
Proof.
  intros [s p]. unfold poolRuns. simpl.
  destruct (poolStarted p); [|constructor].
  destruct (poolQueue p); constructor.
Qed.

Lemma connectSlot_notShutdown scheme slot :
  eventsAll notShutdown (connectSlot scheme slot).
Proof. events_solve. Qed.

Lemma emitSignal_notShutdown p : eventsAll notShutdown (emitSignal p).
Proof. events_solve. Qed.

Lemma detachedRuns_notShutdown n : eventsAll notShutdown (detachedRuns n).
Proof. events_solve. Qed.

(** Only [Disconnect] and [DisconnectAll] put the shutdown entry on a queue. *)
Lemma perform_notShutdown a :
  match a with Disconnect _ | DisconnectAll => False | _ => True end ->
  eventsAll notShutdown (perform a).
Proof.
  destruct a; intros H; try contradiction; cbn [perform];
    (apply eventsAll_bind; [|intros; apply eventsAll_ret]).
  - apply connectSlot_notShutdown.
  - apply emitSignal_notShutdown.
  - apply listenerRuns_events; [intros ? ? | intros ? |]; reflexivity.
  - apply detachedRuns_notShutdown.
  - apply poolRuns_events.
Qed.

(** After the synchronous loop the emitting thread calls no slot. *)
Lemma emitSignalUnsafe_sync_only p st :
  exists rest,
    events (emitSignalUnsafe p st)
    = syncEvents p (synchronousSlots (signal st)) ++ rest /\
    Forall notCallerInvoke rest.
Proof.
  unfold emitSignalUnsafe. rewrite bind_getSignal.
  rewrite (bind_returns _ _ st tt) by now rewrite sync_loop.
  rewrite sync_loop. cbn [final events outcome].
  eexists. split; [reflexivity|].
  match goal with |- Forall _ (events (?m st)) => enough (eventsAll notCallerInvoke m) by auto end.
  unfold runAsynchronous, runStrands, runThreadPooled.
  events_solve.
Qed.


(** ** The semaphore *)

Lemma semInv_semOf cap st st' : semOf st' = semOf st -> semInv cap st -> semInv cap st'.
Proof. unfold semOf, semInv. intros [= -> ->]. auto. Qed.

Lemma removeNth_length {A} (l : list A) : forall n x,
  nth_error l n = Some x -> length l = S (length (removeNth n l)).
Proof.
  induction l as [|y l IH]; intros [|n] x; simpl; try discriminate; auto.
  intros H. f_equal. eauto.
Qed.

Lemma detachedRuns_semInv cap n st :
  semInv cap st -> semInv cap (final (detachedRuns n st)).
Proof.
  destruct st as [[c [sc] g q t s1 s2 s3 s4 d] p]. unfold semInv.
  cbn [signal sem semCounter detached]. intros [H0 H1].
  unfold detachedRuns. rewrite bind_getSignal. cbn [signal detached].
  destruct (nth_error d n) as [[f a]|] eqn:E; cbn; [|lia].
  rewrite (removeNth_length _ _ _ E) in H1. lia.
Qed.

Lemma runAsynchronous_semInv cap f a st :
  semInv cap st -> semInv cap (final (runAsynchronous f a st)).
Proof.
  destruct st as [s p]. unfold semInv. cbn [signal]. intros [H0 H1].
  unfold runAsynchronous, acquire, bind. simpl.
  destruct (0 <? semCounter (sem s)) eqn:E; simpl.
  - apply Z.ltb_lt in E. destruct s; simpl in *. rewrite length_app. simpl. lia.
  - destruct (detached s) as [|[f0 a0] rest] eqn:Ed; simpl.
    + rewrite Ed. simpl in *. lia.
    + unfold detachedRuns, bind. simpl. rewrite Ed. simpl.
      destruct s; simpl in *. subst. rewrite length_app. simpl in *. lia.
Qed.

Lemma emitSignal_semInv cap p st :
  semInv cap st -> semInv cap (final (emitSignal p st)).
Proof.
  intros H. rewrite emitSignal_unfold. unfold emitSignalUnsafe.
  rewrite bind_getSignal.
  assert (Hframe : forall (m : M unit) st',
             preserves semOf m -> semInv cap st' -> semInv cap (final (m st'))).
  { intros m st' Hm. apply semInv_semOf, Hm. }
  apply (final_bind_inv (semInv cap)); [now rewrite sync_loop|]. intros _.
  rewrite sync_loop. cbn [final].
  assert (H1 : semInv cap (final (forEach (asynchronousSlots (signal st))
                                    (fun _ slot => runAsynchronous slot p) st))).
  { apply (forEach_inv (semInv cap)); auto.
    intros k v st' _. apply runAsynchronous_semInv. }
  apply (final_bind_inv (semInv cap)); [exact H1|]. intros _.
  assert (H2 : forall st', semInv cap st' ->
             semInv cap (final (forEach (strandSlots (signal st))
                                  (fun id slot => runStrands id slot p) st'))).
  { intros st'. apply Hframe. frame_solve. }
  apply (final_bind_inv (semInv cap)); [now apply H2|]. intros _.
  apply Hframe; [frame_solve | now apply H2].
Qed.

Lemma final_bind_ret {A B} (m : M A) (f : A -> B) st :
  final (bind m (fun a => ret (f a)) st) = final (m st).
Proof. unfold bind. destruct (outcome (m st)); reflexivity. Qed.

Lemma poolRuns_preserves_semOf : preserves semOf poolRuns.
Proof.
  intros [s pl]. unfold poolRuns. cbn.
  destruct (poolStarted pl); [|reflexivity]. destruct (poolQueue pl); reflexivity.
Qed.

Lemma perform_semInv cap a st :
  semInv cap st -> semInv cap (final (perform a st)).
Proof.
  intros H.
  assert (Hframe : forall A (m : M A),
             preserves semOf m -> semInv cap (final (m st))).
  { intros A m Hm. eapply semInv_semOf; [apply Hm | exact H]. }
  destruct a as [scheme slot|id| |p|id|n|]; cbn [perform];
    rewrite final_bind_ret.
  - apply Hframe. frame_solve.
  - apply Hframe. frame_solve.
  - apply Hframe. frame_solve.
  - now apply emitSignal_semInv.
  - apply Hframe. frame_solve.
  - now apply detachedRuns_semInv.
  - apply Hframe. apply poolRuns_preserves_semOf.
Qed.

Lemma performAll_semInv cap h : forall st,
  semInv cap st -> semInv cap (final (performAll h st)).
Proof.
  induction h as [|a h IH]; intros st H; [exact H|].
  cbn [performAll].
  apply (final_bind_inv (semInv cap)); [now apply perform_semInv|]. intros ids.
  apply (final_bind_inv (semInv cap)); [apply IH; now apply perform_semInv|].
  intros ids'. cbn [ret final]. apply IH. now apply perform_semInv.
Qed.

(** In every state of an engine built for [maxAsync] detached threads the
    counter is between zero and [maxAsync]. *)
Lemma reachableFrom_semInv guard maxAsync st :
  0 <= maxAsync -> reachableFrom guard maxAsync st -> semInv maxAsync st.
Proof.
  intros Hcap (h & evs & ids & Hrun).
  replace st with (final (performAll h (freshState guard maxAsync)))
    by now rewrite Hrun.
  apply performAll_semInv. unfold semInv. cbn. lia.
Qed.

Lemma semInv_canAcquire cap st : 0 < cap -> semInv cap st -> canAcquire (signal st).
Proof.
  unfold semInv, canAcquire. intros Hcap [H0 H1].
  destruct (detached (signal st)); [left; cbn in H1; lia | right; discriminate].
Qed.

(** ** A second [disconnectSlot] *)

Lemma slotMaps_slotsOf st st' :
  slotMaps st' = slotMaps st -> forall r, slotsOf r (signal st') = slotsOf r (signal st).
Proof. unfold slotMaps. intros [= H1 H2 H3 H4] []; assumption. Qed.

Lemma slotsOf_set_same r v s : slotsOf r (set_slotsOf r v s) = v.
Proof. destruct r; reflexivity. Qed.

Lemma slotsOf_set_other r r' v s :
  r' <> r -> slotsOf r' (set_slotsOf r v s) = slotsOf r' s.
Proof. destruct r, r'; intros H; try reflexivity; congruence. Qed.

(** The slot maps after a [disconnectSlot] that found [id] in the map [r]. *)
Lemma disconnectSlot_slots id st r :
  findSlotMapWithId id (signal st) = Some r ->
  outcome (disconnectSlot id st) = Returns tt ->
  slotsOf r (signal (final (disconnectSlot id st)))
  = StdMap.erase id (slotsOf r (signal st)) /\
  forall r', r' <> r ->
    slotsOf r' (signal (final (disconnectSlot id st))) = slotsOf r' (signal st).
Proof.
  intros Hfind Ho.
  destruct (SlotMapRef_eqb r StrandSlots) eqn:Hr.
  - assert (r = StrandSlots) by (destruct r; simpl in Hr; congruence). subst r.
    rewrite (disconnectSlot_strand_unfold _ _ Hfind) in *.
    destruct (bind_outcome_returns _ _ _ _ Ho) as ([] & Ho1 & _).
    rewrite (bind_returns _ _ _ _ Ho1). cbn [final].
    assert (Hs : slotMaps (final ((enqueue id None;; join id;; eraseThread id;;
                                   eraseQueue id) st)) = slotMaps st)
      by (apply (preserves_bind slotMaps); [|intros ?]; frame_solve).
    pose proof (slotMaps_slotsOf _ _ Hs) as Hs'.
    remember (final ((enqueue id None;; join id;; eraseThread id;;
                      eraseQueue id) st)) as st' eqn:Est.
    clear Est Ho Ho1 Hs.
    unfold eraseSlot, bind. cbn -[slotsOf set_slotsOf]. split.
    + rewrite slotsOf_set_same. now rewrite Hs'.
    + intros r' Hne. rewrite slotsOf_set_other by assumption. apply Hs'.
  - assert (Hne : r <> StrandSlots) by (intros ->; discriminate).
    rewrite (disconnectSlot_direct _ _ _ Hfind Hne). cbn [final signal]. split.
    + apply slotsOf_set_same.
    + intros r' Hr'. now apply slotsOf_set_other.
Qed.

Lemma disconnectSlot_absent_after id st :
  slotsDisjoint (signal st) ->
  outcome (disconnectSlot id st) = Returns tt ->
  findSlotMapWithId id (signal (final (disconnectSlot id st))) = None.
Proof.
  intros Hdis Ho.
  destruct (findSlotMapWithId id (signal st)) as [r|] eqn:Hfind.
  - destruct (disconnectSlot_slots _ _ _ Hfind Ho) as [Hr Hothers].
    apply findSlotMapWithId_none. intros r'.
    destruct (SlotMapRef_eqb r' r) eqn:E.
    + assert (r' = r) by (destruct r, r'; simpl in E; congruence). subst r'.
      rewrite Hr. apply StdMap.count_erase_same.
    + assert (Hne : r' <> r) by (intros ->; destruct r; discriminate).
      rewrite (Hothers _ Hne).
      destruct (StdMap.count id (slotsOf r' (signal st))) eqn:Ec; auto.
      exfalso. apply Hne.
      exact (Hdis id r' r Ec (findSlotMapWithId_some _ _ _ Hfind)).
  - now rewrite (disconnectSlot_unknown _ _ Hfind).
Qed.

(** ** The shared pool *)

Lemma connectSlot_pool scheme slot st :
  pool (final (connectSlot scheme slot st))
  = (if scheme =? THREAD_POOLED then started (pool st) else pool st) /\
  filter isPoolStartup (events (connectSlot scheme slot st))
  = (if scheme =? THREAD_POOLED then [EvPoolStartup] else []).
Proof.
  destruct (getSlotMap_cases scheme) as [[-> _]|[[-> _]|(H2 & H3 & Hr)]].
  - destruct (StdMap.count (currentId (signal st)) (strandThreads (signal st))) eqn:E.
    + destruct st as [s p]. unfold connectSlot, spawnListener, bind.
      cbn in *. rewrite E. auto.
    + rewrite (connectSlot_strand _ _ E). auto.
  - rewrite connectSlot_pooled. auto.
  - rewrite (connectSlot_plain _ _ _ H2 H3). cbn.
    destruct (Z.eqb_spec scheme THREAD_POOLED); [contradiction | auto].
Qed.

Lemma setNth_length {A} (l : list A) : forall n x, length (setNth n x l) = length l.
Proof. induction l as [|y l IH]; intros [|n] x; simpl; auto. Qed.

Lemma started_poolInv p :
  poolInv p -> poolInv (started p) /\ poolStarted (started p) = true.
Proof.
  unfold poolInv, started. destruct (poolStarted p) eqn:E; simpl.
  - rewrite E. auto.
  - intros ->. auto.
Qed.

Lemma connectOn_spec i scheme slot pr :
  let '(pr', evs, ok) := connectOn i scheme slot pr in
  length (engines pr') = length (engines pr) /\
  sharedPool pr'
  = (if (i <? length (engines pr))%nat && (scheme =? THREAD_POOLED)
     then started (sharedPool pr) else sharedPool pr) /\
  filter isPoolStartup evs
  = (if (i <? length (engines pr))%nat && (scheme =? THREAD_POOLED)
     then [EvPoolStartup] else []).
Proof.
  unfold connectOn.
  destruct (nth_error (engines pr) i) as [e|] eqn:E.
  - assert (Hi : (i <? length (engines pr))%nat = true).
    { apply Nat.ltb_lt. apply nth_error_Some. congruence. }
    rewrite Hi. cbn [andb].
    destruct (connectSlot_pool scheme slot {| signal := e; pool := sharedPool pr |})
      as [Hp He].
    cbn [engines sharedPool]. rewrite setNth_length. auto.
  - assert (Hi : (i <? length (engines pr))%nat = false).
    { apply Nat.ltb_ge. now apply nth_error_None. }
    rewrite Hi. auto.
Qed.

Lemma connectMany_spec calls : forall pr,
  poolInv (sharedPool pr) ->
  let '(pr', evs, ok) := connectMany calls pr in
  poolInv (sharedPool pr') /\
  (poolStarted (sharedPool pr) = true -> poolStarted (sharedPool pr') = true) /\
  (ok = true ->
   length (filter isPoolStartup evs) = pooledCalls (length (engines pr)) calls /\
   (pooledCalls (length (engines pr)) calls <> O ->
    poolStarted (sharedPool pr') = true)).
Proof.
  induction calls as [|[[i scheme] slot] calls IH]; intros pr Hinv.
  - cbn. repeat split; auto.
  - cbn [connectMany].
    pose proof (connectOn_spec i scheme slot pr) as Hon.
    destruct (connectOn i scheme slot pr) as [[pr1 evs1] ok1].
    destruct Hon as (Hlen & Hpool & Hevs).
    assert (Hinv1 : poolInv (sharedPool pr1) /\
                    (poolStarted (sharedPool pr) = true ->
                     poolStarted (sharedPool pr1) = true) /\
                    ((i <? length (engines pr))%nat && (scheme =? THREAD_POOLED) = true ->
                     poolStarted (sharedPool pr1) = true)).
    { rewrite Hpool.
      destruct ((i <? length (engines pr))%nat && (scheme =? THREAD_POOLED)).
      - destruct (started_poolInv _ Hinv). auto.
      - repeat split; auto. discriminate. }
    destruct Hinv1 as (Hinv1 & Hkeep & Hnow).
    destruct ok1.
    + specialize (IH pr1 Hinv1).
      destruct (connectMany calls pr1) as [[pr2 evs2] ok2].
      destruct IH as (Hinv2 & Hkeep2 & Hok2).
      split; [exact Hinv2|]. split; [auto|].
      intros Hok. destruct (Hok2 Hok) as [Hcount Hstart].
      rewrite Hlen in *. rewrite filter_app, length_app, Hevs, Hcount.
      unfold pooledCalls. cbn [filter].
      destruct ((i <? length (engines pr))%nat && (scheme =? THREAD_POOLED)) eqn:E;
        cbn [length]; split; auto.
    + split; [exact Hinv1|]. split; [auto|]. discriminate.
Qed.

(** ** No id in two slot maps, until the counter wraps *)

Lemma slotsDisjoint_slotMaps st st' :
  slotMaps st' = slotMaps st -> slotsDisjoint (signal st) -> slotsDisjoint (signal st').
Proof.
  intros H Hd id r r'. rewrite !(slotMaps_slotsOf _ _ H). apply Hd.
Qed.

Lemma slotsDisjoint_cleared s : slotsDisjoint (cleared s).
Proof. intros id [] r' H; discriminate. Qed.

Lemma connectSlot_signal scheme slot st id :
  outcome (connectSlot scheme slot st) = Returns id ->
  (forall r, slotsOf r (signal (final (connectSlot scheme slot st)))
             = slotsOf r (registered (getSlotMap scheme) (currentId (signal st))
                            slot (signal st))) /\
  currentId (signal (final (connectSlot scheme slot st)))
  = wrap32 (currentId (signal st) + 1).
Proof.
  intros Ho. destruct (connectSlot_id _ _ _ _ Ho) as [_ Hc]. split; [|exact Hc].
  destruct (getSlotMap_cases scheme) as [[-> _]|[[-> _]|(H2 & H3 & Hr)]].
  - destruct (StdMap.count (currentId (signal st)) (strandThreads (signal st))) eqn:E.
    + rewrite (connectSlot_strand_terminates _ _ E) in Ho. discriminate.
    + rewrite (connectSlot_strand _ _ E). intros []; reflexivity.
  - rewrite connectSlot_pooled. reflexivity.
  - rewrite (connectSlot_plain _ _ _ H2 H3). reflexivity.
Qed.

Lemma slotsOf_registered r id slot s r' :
  slotsOf r' (registered r id slot s)
  = if SlotMapRef_eqb r' r then StdMap.emplace id slot (slotsOf r s)
    else slotsOf r' s.
Proof. destruct r, r'; reflexivity. Qed.

Lemma SlotMapRef_eqb_eq r r' : SlotMapRef_eqb r r' = true <-> r = r'.
Proof. destruct r, r'; simpl; split; congruence. Qed.

(** [connectSlot] with a counter that no key has reached. *)
Lemma connectSlot_disjoint scheme slot st id :
  outcome (connectSlot scheme slot st) = Returns id ->
  slotsDisjoint (signal st) ->
  keysBelowCounter (signal st) ->
  0 <= currentId (signal st) ->
  slotsDisjoint (signal (final (connectSlot scheme slot st))) /\
  (currentId (signal st) + 1 < UINT32_MOD ->
   keysBelowCounter (signal (final (connectSlot scheme slot st)))).
Proof.
  intros Ho Hd Hk Hc0. destruct (connectSlot_signal _ _ _ _ Ho) as [Hs Hc].
  set (c := currentId (signal st)) in *.
  assert (Hcount : forall r' id',
            StdMap.count id' (slotsOf r' (signal (final (connectSlot scheme slot st))))
            = true ->
            (id' = c /\ r' = getSlotMap scheme) \/
            StdMap.count id' (slotsOf r' (signal st)) = true).
  { intros r' id'. rewrite Hs, slotsOf_registered.
    destruct (SlotMapRef_eqb r' (getSlotMap scheme)) eqn:E; auto.
    apply SlotMapRef_eqb_eq in E. subst r'.
    rewrite StdMap.count_emplace. intros H. apply orb_true_iff in H.
    destruct H as [H|H]; auto. apply Z.eqb_eq in H. auto. }
  split.
  - intros id' r r' H1 H2.
    destruct (Hcount _ _ H1) as [[-> ->]|H1'];
      destruct (Hcount _ _ H2) as [[E ->]|H2']; auto.
    + apply Hk in H2'. fold c in H2'. lia.
    + subst id'. apply Hk in H1'. fold c in H1'. lia.
    + eapply Hd; eauto.
  - intros Hlt r id' H. rewrite Hc. rewrite wrap32_small by lia.
    destruct (Hcount _ _ H) as [[-> _]|H']; [lia|].
    apply Hk in H'. fold c in H'. lia.
Qed.

Lemma disconnectSlot_disjoint id st :
  outcome (disconnectSlot id st) = Returns tt ->
  (slotsDisjoint (signal st) -> slotsDisjoint (signal (final (disconnectSlot id st)))) /\
  (keysBelowCounter (signal st) ->
   keysBelowCounter (signal (final (disconnectSlot id st)))).
Proof.
  intros Ho.
  assert (Hcount : forall r' id',
            StdMap.count id' (slotsOf r' (signal (final (disconnectSlot id st)))) = true ->
            StdMap.count id' (slotsOf r' (signal st)) = true).
  { destruct (findSlotMapWithId id (signal st)) as [r|] eqn:Hfind.
    - destruct (disconnectSlot_slots _ _ _ Hfind Ho) as [Hr Hothers].
      intros r' id'. destruct (SlotMapRef_eqb r' r) eqn:E.
      + apply SlotMapRef_eqb_eq in E. subst r'. rewrite Hr.
        intros H. apply StdMap.count_true_iff in H. apply StdMap.keys_erase in H.
        apply StdMap.count_true_iff. tauto.
      + rewrite Hothers; auto. intros ->.
        assert (SlotMapRef_eqb r r = true) by now apply SlotMapRef_eqb_eq.
        congruence.
    - rewrite (disconnectSlot_unknown _ _ Hfind). auto. }
  split.
  - intros Hd id' r r' H1 H2. eapply Hd; eauto.
  - intros Hk r id' H.
    rewrite (disconnectSlot_preserves_counter id st : currentId _ = _).
    apply (Hk r). now apply Hcount.
Qed.

Lemma perform_disjoint a st ids :
  outcome (perform a st) = Returns ids ->
  match a with
  | Connect _ _ =>
      slotsDisjoint (signal st) -> keysBelowCounter (signal st) ->
      0 <= currentId (signal st) ->
      slotsDisjoint (signal (final (perform a st))) /\
      (currentId (signal st) + 1 < UINT32_MOD ->
       keysBelowCounter (signal (final (perform a st))))
  | _ =>
      (slotsDisjoint (signal st) -> slotsDisjoint (signal (final (perform a st)))) /\
      (keysBelowCounter (signal st) -> keysBelowCounter (signal (final (perform a st))))
  end.
Proof.
  intros Ho.
  assert (Hframe : forall A (m : M A),
            preserves slotMaps m -> preserves counterOf m ->
            (slotsDisjoint (signal st) -> slotsDisjoint (signal (final (m st)))) /\
            (keysBelowCounter (signal st) -> keysBelowCounter (signal (final (m st))))).
  { intros A m Hm Hc. split.
    - apply slotsDisjoint_slotMaps, Hm.
    - intros Hk r id. rewrite (slotMaps_slotsOf _ _ (Hm st)).
      rewrite (Hc st : currentId _ = _). apply Hk. }
  destruct a as [scheme slot|id| |p|id|n|]; cbn [perform] in *;
    rewrite final_bind_ret;
    destruct (bind_outcome_returns _ _ _ _ Ho) as (x & Ho1 & _).
  - intros Hd Hk Hc. eapply connectSlot_disjoint; eauto.
  - destruct x. now apply disconnectSlot_disjoint.
  - destruct x. destruct (disconnectAllSlots_final _ Ho1) as [s2 Hs2].
    rewrite Hs2. split; intros _.
    + apply slotsDisjoint_cleared.
    + intros [] id' H; discriminate.
  - apply Hframe; [frame_solve | apply emitSignal_preserves_counter].
  - apply Hframe; [frame_solve | apply listenerRuns_preserves_counter].
  - apply Hframe; [frame_solve | apply detachedRuns_preserves_counter].
  - apply Hframe; [|apply poolRuns_preserves_counter].
    intros [s pl]. unfold poolRuns. cbn.
    destruct (poolStarted pl); [|reflexivity]. destruct (poolQueue pl); reflexivity.
Qed.

(** A history that does not take the counter past its range keeps the slot
    maps disjoint. *)
Lemma performAll_disjoint h : forall st ids,
  outcome (performAll h st) = Returns ids ->
  slotsDisjoint (signal st) ->
  connects h = O \/
    (keysBelowCounter (signal st) /\ 0 <= currentId (signal st) /\
     currentId (signal st) + Z.of_nat (connects h) <= UINT32_MOD) ->
  slotsDisjoint (signal (final (performAll h st))).
Proof.
  induction h as [|a h IH]; intros st ids Ho Hd Hk; [exact Hd|].
  cbn [performAll] in *.
  destruct (bind_outcome_returns _ _ _ _ Ho) as (ids1 & Ho1 & Ho').
  destruct (bind_outcome_returns _ _ _ _ Ho') as (ids2 & Ho2 & _).
  rewrite (bind_returns _ _ _ _ Ho1). cbn [final].
  rewrite final_bind_ret.
  pose proof (perform_disjoint _ _ _ Ho1) as Ha.
  pose proof (perform_ids _ _ _ Ho1) as Hi.
  destruct a as [scheme slot|id| |p|id|n|]; cbn [connects] in Hk;
    try (destruct Ha as [Hd' Hk']; destruct Hi as [_ Hc]; unfold counterOf in Hc;
         apply (IH _ _ Ho2); [now apply Hd'|];
         destruct Hk as [Hk|(Hk & Hc0 & Hle)]; [now left|right];
         rewrite Hc; auto).
  destruct Hk as [Hk|(Hk & Hc0 & Hle)]; [discriminate|].
  destruct (Ha Hd Hk Hc0) as [Hd' Hk']. destruct Hi as [_ Hc].
  unfold counterOf in Hc.
  apply (IH _ _ Ho2); [exact Hd'|].
  destruct (Nat.eq_dec (connects h) 0) as [Hz|Hnz]; [now left|right].
  rewrite Hc. rewrite wrap32_small by lia.
  split; [apply Hk'; lia | lia].
Qed.

Lemma reachable_disjoint guard maxAsync h ids :
  outcome (performAll h (freshState guard maxAsync)) = Returns ids ->
  Z.of_nat (connects h) <= UINT32_MOD ->
  slotsDisjoint (signal (final (performAll h (freshState guard maxAsync)))).
Proof.
  intros Ho Hle. apply (performAll_disjoint h _ ids Ho).
  - intros k [] r' H; discriminate.
  - right. split; [intros [] k Hk; discriminate|].
    cbn [signal freshState newSignal currentId]. lia.
Qed.

(** * The properties of the engine *)

Lemma filter_isAsyncDispatch_byCaller evs :
  filter isAsyncDispatch (filter byCaller evs) = filter isAsyncDispatch evs.
Proof.
  induction evs as [|e evs IH]; simpl; auto.
  destruct (byCaller e) eqn:Hb; simpl.
  - now rewrite IH.
  - destruct e as [[]| | | | | | | | | | | | | | | |]; simpl in *;
      try discriminate; auto.
Qed.

Lemma filter_isAsyncDispatch_dispatch p s :
  filter isAsyncDispatch (dispatchEvents p s) = asyncEvents p (asynchronousSlots s).
Proof.
  unfold dispatchEvents. rewrite !filter_app.
  assert (H1 : forall m, filter isAsyncDispatch (syncEvents p m) = [])
    by (induction m as [|[] m IH]; simpl; auto).
  assert (H2 : forall m, filter isAsyncDispatch (asyncEvents p m) = asyncEvents p m)
    by (induction m as [|[] m IH]; simpl; congruence).
  assert (H3 : forall m, filter isAsyncDispatch (strandEvents p m) = [])
    by (induction m as [|[] m IH]; simpl; auto).
  assert (H4 : forall m, filter isAsyncDispatch (pooledEvents p m) = [])
    by (induction m as [|[] m IH]; simpl; auto).
  now rewrite H1, H2, H3, H4, app_nil_r.
Qed.

Lemma filter_isCallerInvoke_dispatch p s :
  filter isCallerInvoke (dispatchEvents p s) = syncEvents p (synchronousSlots s).
Proof.
  unfold dispatchEvents. rewrite !filter_app.
  rewrite filter_isCallerInvoke_sync, filter_isCallerInvoke_async,
    filter_isCallerInvoke_strand, filter_isCallerInvoke_pooled.
  now rewrite !app_nil_r.
Qed.

Lemma emitSignal_dispatch guard maxAsync st p :
  asynchronousSlots (signal st) = [] \/ 0 < maxAsync ->
  reachableFrom guard maxAsync st ->
  outcome (emitSignal p st) = Returns tt /\
  filter byCaller (events (emitSignal p st)) = dispatchEvents p (signal st) /\
  filter isJoin (events (emitSignal p st)) = [].
Proof.
  intros Hcap Hreach. rewrite emitSignal_unfold.
  apply emitSignalUnsafe_dispatch.
  destruct Hcap as [Hnone|Hcap]; [now left | right].
  eapply semInv_canAcquire; [exact Hcap|].
  eapply reachableFrom_semInv; [lia | exact Hreach].
Qed.

(** C1: for every emission from a state the engine can be in, built for
    at least one detached thread or without asynchronous slots,
    [emitSignal] returns, and what the emitting thread did is, in this order:
    a call of every slot of [synchronousSlots], an acquire and a spawn for
    every slot of [asynchronousSlots], an enqueue for every slot of
    [strandSlots], a [run] on the pool for every slot of [threadPooledSlots];
    each map is visited in ascending key order.  In particular the calls the
    emitting thread makes are exactly one call for each synchronous slot,
    with the emitted arguments, and they come before anything else. *)
Theorem emit_dispatch_order guard maxAsync st p :
  asynchronousSlots (signal st) = [] \/ 0 < maxAsync ->
  reachableFrom guard maxAsync st ->
  outcome (emitSignal p st) = Returns tt /\
  filter byCaller (events (emitSignal p st))
  = syncEvents p (synchronousSlots (signal st)) ++
    asyncEvents p (asynchronousSlots (signal st)) ++
    strandEvents p (strandSlots (signal st)) ++
    pooledEvents p (threadPooledSlots (signal st)) /\
  (forall r, StronglySorted Z.lt (StdMap.keys (slotsOf r (signal st)))) /\
  filter isCallerInvoke (events (emitSignal p st))
  = syncEvents p (synchronousSlots (signal st)) /\
  (exists rest,
     events (emitSignal p st) = syncEvents p (synchronousSlots (signal st)) ++ rest /\
     Forall notCallerInvoke rest).
Proof.
  intros Hcap Hreach.
  destruct (emitSignal_dispatch guard maxAsync st p Hcap Hreach) as (Ho & He & _).
  repeat split; auto.
  - exact (wf_sorted_slots _ (reachableFrom_wf _ _ _ Hreach)).
  - rewrite <- filter_isCallerInvoke_byCaller, He.
    apply filter_isCallerInvoke_dispatch.
  - rewrite emitSignal_unfold. apply emitSignalUnsafe_sync_only.
Qed.

(** C10: for every emission, from any state and whatever its outcome, the
    four slot maps, the map of strand threads and the id counter are the same
    after [emitSignal] as before. *)
Theorem emit_leaves_registrations p st :
  synchronousSlots (signal (final (emitSignal p st))) = synchronousSlots (signal st) /\
  asynchronousSlots (signal (final (emitSignal p st))) = asynchronousSlots (signal st) /\
  strandSlots (signal (final (emitSignal p st))) = strandSlots (signal st) /\
  threadPooledSlots (signal (final (emitSignal p st))) = threadPooledSlots (signal st) /\
  strandThreads (signal (final (emitSignal p st))) = strandThreads (signal st) /\
  currentId (signal (final (emitSignal p st))) = currentId (signal st).
Proof.
  pose proof (emitSignal_preserves_registrations p st) as H.
  unfold registrations in H. injection H as H1 H2 H3 H4 H5 H6.
  repeat split; assumption.
Qed.

(** C7: [disconnectSlot] with an id that is in none of the four slot maps
    returns, does nothing and leaves the state as it is.  Hence, where no id
    is in two slot maps, a second [disconnectSlot] of the same id, after the
    first has returned, does nothing; and no id is in two slot maps in any
    state an engine reaches with at most [UINT32_MOD] calls of
    [connectSlot]. *)
Theorem disconnect_unknown_is_noop id st :
  (findSlotMapWithId id (signal st) = None ->
   disconnectSlot id st = {| final := st; events := []; outcome := Returns tt |}) /\
  (slotsDisjoint (signal st) ->
   outcome (disconnectSlot id st) = Returns tt ->
   disconnectSlot id (final (disconnectSlot id st))
   = {| final := final (disconnectSlot id st); events := [];
        outcome := Returns tt |}) /\
  (forall guard maxAsync h evs ids,
     performAll h (freshState guard maxAsync)
     = {| final := st; events := evs; outcome := Returns ids |} ->
     Z.of_nat (connects h) <= UINT32_MOD ->
     slotsDisjoint (signal st)).
Proof.
  split; [|split].
  - apply disconnectSlot_unknown.
  - intros Hd Ho. apply disconnectSlot_unknown.
    now apply disconnectSlot_absent_after.
  - intros guard maxAsync h evs ids Hrun Hle.
    replace st with (final (performAll h (freshState guard maxAsync)))
      by now rewrite Hrun.
    apply (reachable_disjoint guard maxAsync h ids); [now rewrite Hrun | exact Hle].
Qed.

(** C9: with a scheme that is none of the four named values, [connectSlot]
    does what it does with [SYNCHRONOUS]: it returns the id, starts no thread
    and no pool, and, the id being free, the slot is in [synchronousSlots]
    under that id and the next emission calls it on the emitting thread. *)
Theorem connect_unnamed_scheme scheme slot st :
  scheme <> SYNCHRONOUS -> scheme <> ASYNCHRONOUS ->
  scheme <> STRAND -> scheme <> THREAD_POOLED ->
  getSlotMap scheme = SynchronousSlots /\
  connectSlot scheme slot st = connectSlot SYNCHRONOUS slot st /\
  outcome (connectSlot scheme slot st) = Returns (to_int (currentId (signal st))) /\
  events (connectSlot scheme slot st) = [] /\
  (StdMap.count (currentId (signal st)) (synchronousSlots (signal st)) = false ->
   StdMap.find (currentId (signal st))
     (synchronousSlots (signal (final (connectSlot scheme slot st)))) = Some slot /\
   forall p,
     In (EvInvoke Caller slot p)
        (events (emitSignal p (final (connectSlot scheme slot st))))).
Proof.
  intros H0 H1 H2 H3.
  assert (Hmap : getSlotMap scheme = SynchronousSlots).
  { unfold getSlotMap.
    destruct (Z.eqb_spec scheme ASYNCHRONOUS); [contradiction|].
    destruct (Z.eqb_spec scheme STRAND); [contradiction|].
    destruct (Z.eqb_spec scheme THREAD_POOLED); [contradiction|]. reflexivity. }
  rewrite (connectSlot_plain scheme slot st H2 H3), Hmap.
  rewrite (connectSlot_plain SYNCHRONOUS slot st) by discriminate.
  cbn [final events outcome].
  repeat split.
  - cbn [final signal]. destruct st as [[] ?]. cbn in *.
    now apply StdMap.find_emplace_same.
  - intros p. rewrite emitSignal_unfold.
    destruct (emitSignalUnsafe_sync_first p
                {| signal := registered SynchronousSlots (currentId (signal st))
                               slot (signal st);
                   pool := pool st |}) as [rest ->].
    apply in_or_app. left. unfold syncEvents.
    apply (in_map (fun kv => EvInvoke Caller (snd kv) p) _
             (currentId (signal st), slot)).
    apply StdMap.find_In. destruct st as [[] ?]. cbn in *.
    now apply StdMap.find_emplace_same.
Qed.

(** *** Ids *)

Lemma idAfter_zero_small k : Z.of_nat k <= INT32_MAX -> idAfter 0 k = Z.of_nat k.
Proof.
  intros H. unfold idAfter. rewrite Z.add_0_l.
  rewrite wrap32_small by (unfold UINT32_MOD, INT32_MAX in *; lia).
  unfold to_int. destruct (Z.leb_spec (Z.of_nat k) INT32_MAX); lia.
Qed.

Lemma idAfter_zero_inj j k :
  Z.of_nat j < UINT32_MOD -> Z.of_nat k < UINT32_MOD ->
  idAfter 0 j = idAfter 0 k -> j = k.
Proof.
  intros Hj Hk. unfold idAfter. rewrite !Z.add_0_l.
  rewrite !wrap32_small by lia. unfold to_int.
  destruct (Z.leb_spec (Z.of_nat j) INT32_MAX);
    destruct (Z.leb_spec (Z.of_nat k) INT32_MAX);
    unfold UINT32_MOD, INT32_MAX in *; lia.
Qed.

Lemma sorted_of_nat_seq n : forall a, StronglySorted Z.lt (map Z.of_nat (seq a n)).
Proof.
  induction n as [|n IH]; intros a; simpl; constructor; auto.
  apply Forall_forall. intros z Hz. apply in_map_iff in Hz.
  destruct Hz as (k & <- & Hk). apply in_seq in Hk. lia.
Qed.

Lemma disconnectAllSlots_no_strands st :
  strandQueues (signal st) = [] ->
  strandThreads (signal st) = [] ->
  disconnectAllSlots st
  = {| final := {| signal := cleared (signal st); pool := pool st |};
       events := clearEvents;
       outcome := Returns tt |}.
Proof.
  intros Hq Ht. unfold disconnectAllSlots. rewrite bind_getSignal.
  rewrite Hq, Ht. destruct st as [[] ?]. reflexivity.
Qed.

Lemma performAll_cons_returns a h st ids1 ids2 :
  outcome (perform a st) = Returns ids1 ->
  outcome (performAll h (final (perform a st))) = Returns ids2 ->
  outcome (performAll (a :: h) st) = Returns (ids1 ++ ids2).
Proof.
  intros H1 H2. cbn [performAll].
  rewrite (bind_returns _ _ _ _ H1). cbn [outcome].
  rewrite (bind_returns _ _ _ _ H2). reflexivity.
Qed.

(** Connecting and disconnecting in turn goes on for ever. *)
Lemma churn_returns slot n : forall st,
  strandQueues (signal st) = [] ->
  strandThreads (signal st) = [] ->
  exists ids, outcome (performAll (churn slot n) st) = Returns ids.
Proof.
  induction n as [|n IH]; intros st Hq Ht; [cbn; eauto|].
  cbn [churn].
  assert (H1 : perform (Connect SYNCHRONOUS slot) st
               = {| final := {| signal := registered SynchronousSlots
                                            (currentId (signal st)) slot (signal st);
                                pool := pool st |};
                    events := [];
                    outcome := Returns [to_int (currentId (signal st))] |}).
  { cbn [perform].
    rewrite (bind_returns _ _ st (to_int (currentId (signal st))));
      rewrite connectSlot_plain by discriminate; reflexivity. }
  set (st1 := {| signal := registered SynchronousSlots (currentId (signal st))
                             slot (signal st);
                 pool := pool st |}) in *.
  assert (Hq1 : strandQueues (signal st1) = [])
    by (subst st1; destruct st as [[] ?]; exact Hq).
  assert (Ht1 : strandThreads (signal st1) = [])
    by (subst st1; destruct st as [[] ?]; exact Ht).
  assert (H2 : perform DisconnectAll st1
               = {| final := {| signal := cleared (signal st1); pool := pool st1 |};
                    events := clearEvents;
                    outcome := Returns [] |}).
  { cbn [perform].
    rewrite (bind_returns _ _ st1 tt);
      rewrite (disconnectAllSlots_no_strands st1 Hq1 Ht1); [|reflexivity].
    cbn. reflexivity. }
  destruct (IH {| signal := cleared (signal st1); pool := pool st1 |}
              eq_refl eq_refl) as [ids Hids].
  eexists. apply performAll_cons_returns; [now rewrite H1|].
  rewrite H1. cbn [final].
  apply performAll_cons_returns; [now rewrite H2|].
  rewrite H2. cbn [final]. exact Hids.
Qed.

Lemma connects_churn slot n : connects (churn slot n) = n.
Proof. induction n; simpl; congruence. Qed.

Lemma sorted_last_two (l : list Z) x y : StronglySorted Z.lt (l ++ [x; y]) -> x < y.
Proof.
  induction l as [|z l IH]; simpl; intros H; inversion H as [|? ? Hs Hall]; subst.
  - inversion Hall; subst. assumption.
  - auto.
Qed.

(** One [Connect] past [INT32_MAX + 1] and the ids are not increasing; one
    past [UINT32_MOD] and they are not distinct. *)
Lemma ids_past_the_range slot guard maxAsync n ids :
  outcome (performAll (churn slot n) (freshState guard maxAsync)) = Returns ids ->
  (Z.of_nat n = INT32_MAX + 2 -> ~ StronglySorted Z.lt ids) /\
  (Z.of_nat n = UINT32_MOD + 1 -> ~ NoDup ids).
Proof.
  intros Ho.
  apply performAll_ids in Ho;
    [|cbn [freshState signal newSignal currentId]; unfold UINT32_MOD; lia].
  rewrite connects_churn in Ho. cbn [freshState signal newSignal currentId] in Ho.
  subst ids. split; intros Hn.
  - assert (Hsplit : n = (n - 2 + 2)%nat) by (unfold INT32_MAX in Hn; lia).
    rewrite Hsplit, seq_app, map_app. cbn [seq map Nat.add].
    intros Hs. apply sorted_last_two in Hs.
    unfold idAfter, to_int, wrap32, UINT32_MOD, INT32_MAX in *.
    rewrite !Z.add_0_l in Hs.
    replace (Z.of_nat (n - 2)) with (2 ^ 31 - 1) in Hs by lia.
    replace (Z.of_nat (S (n - 2))) with (2 ^ 31) in Hs by lia.
    revert Hs. clear. intros Hs. vm_compute in Hs. discriminate.
  - assert (Hsplit : n = S (n - 2 + 1)%nat) by (unfold UINT32_MOD in Hn; lia).
    rewrite Hsplit. cbn [seq map]. rewrite seq_app, map_app. cbn [seq map].
    intros Hnd. inversion Hnd as [|? ? Hnin _]; subst. apply Hnin.
    apply in_or_app. right. left.
    unfold idAfter, to_int, wrap32, UINT32_MOD, INT32_MAX in *.
    replace (Z.of_nat (S (n - 2))) with (2 ^ 32) by lia.
    clear. reflexivity.
Qed.

(** C2, as the code has it: the first [connectSlot] on an engine returns 0
    and every later one the next integer, whatever the schemes and whatever
    is disconnected in between, for the first [INT32_MAX + 1] calls; so until
    then the ids are strictly increasing and no id is used twice.  The ids are
    pairwise distinct for the first [UINT32_MOD] calls.  A history of such
    calls alone returns every one of them. *)
Theorem connect_ids_until_wrap guard maxAsync h :
  (connectOnly h -> Z.of_nat (connects h) <= UINT32_MOD ->
   exists ids, outcome (performAll h (freshState guard maxAsync)) = Returns ids) /\
  (forall ids,
     outcome (performAll h (freshState guard maxAsync)) = Returns ids ->
     (Z.of_nat (connects h) <= INT32_MAX + 1 ->
      ids = map Z.of_nat (seq 0 (connects h)) /\ StronglySorted Z.lt ids) /\
     (Z.of_nat (connects h) <= UINT32_MOD -> NoDup ids)).
Proof.
  split.
  - intros Hco Hle. apply connectOnly_returns; auto;
      try (cbn [freshState signal newSignal currentId]; lia).
    intros id H. discriminate.
  - intros ids Ho.
    apply performAll_ids in Ho;
      [|cbn [freshState signal newSignal currentId]; unfold UINT32_MOD; lia].
    cbn [freshState signal newSignal currentId] in Ho.
    split; intros Hle.
    + assert (Heq : ids = map Z.of_nat (seq 0 (connects h))).
      { rewrite Ho. apply map_ext_in. intros k Hk. apply in_seq in Hk.
        apply idAfter_zero_small. lia. }
      split; [exact Heq|]. rewrite Heq. apply sorted_of_nat_seq.
    + rewrite Ho. apply NoDup_map_NoDup_ForallPairs; [|apply seq_NoDup].
      intros j k Hj Hk. apply in_seq in Hj, Hk.
      apply idAfter_zero_inj; lia.
Qed.

(** *** The hand-shake with a strand *)

Lemma precedes_In e1 e2 l1 l2 : In e1 l1 -> In e2 l2 -> precedes e1 e2 (l1 ++ l2).
Proof.
  intros H1 H2. apply in_split in H1. apply in_split in H2.
  destruct H1 as (a & b & ->). destruct H2 as (c & d & ->).
  exists a, (b ++ c), d. now rewrite <- !app_assoc.
Qed.

Lemma precedes_app_l e1 e2 l l' : precedes e1 e2 l -> precedes e1 e2 (l ++ l').
Proof.
  intros (a & b & c & ->). exists a, b, (c ++ l').
  rewrite <- !app_assoc. cbn. now rewrite <- !app_assoc.
Qed.

Lemma precedes_app_r e1 e2 l l' : precedes e1 e2 l -> precedes e1 e2 (l' ++ l).
Proof.
  intros (a & b & c & ->). exists (l' ++ a), b, c. now rewrite <- !app_assoc.
Qed.

Lemma In_flat_map_segment {A B} (F : A -> list B) (x : A) (m : list A) :
  In x m -> exists l1 l3, flat_map F m = l1 ++ F x ++ l3.
Proof.
  intros H. apply in_split in H. destruct H as (a & b & ->).
  exists (flat_map F a), (flat_map F b). now rewrite flat_map_app.
Qed.

(** C3, as the code has it: in every state the engine can be in, with a
    maximum wait not below the minimum, [disconnectSlot] of an id it finds in
    [strandSlots] returns, having put the shutdown entry on that strand's
    queue, then waited for the listener, which ran the tasks queued before
    the entry and returned, then joined, then erased the thread, then the
    queue, then the registration.
    [disconnectAllSlots] returns, having put the shutdown entry on every
    queue, then joined every listener, then cleared the threads, the queues
    and the slot maps; for every strand the entry precedes the listener's
    return, that the join, and the join every clear.
    [findSlotMapWithId] looks into [synchronousSlots] and [asynchronousSlots]
    first; in every state an engine reaches with at most [UINT32_MOD] calls of
    [connectSlot] it finds every id of [strandSlots] there. *)
Theorem strand_disconnect_handshake st :
  minWait <= maxWait ->
  reachable st ->
  (forall id,
     findSlotMapWithId id (signal st) = Some StrandSlots ->
     disconnectSlot id st
     = {| final := {| signal := withoutStrand id (signal st); pool := pool st |};
          events := EvEnqueue id None :: drainEvents id (queueOf id (signal st)) ++
                      [EvJoin id; EvEraseThread id; EvEraseQueue id;
                       EvEraseSlot StrandSlots id];
          outcome := Returns tt |}) /\
  disconnectAllSlots st
  = {| final := {| signal := cleared (signal st); pool := pool st |};
       events :=
         map (fun kv => EvEnqueue (fst kv) None) (strandQueues (signal st)) ++
         flat_map (fun kv => drainEvents (fst kv) (queueOf (fst kv) (signal st))
                             ++ [EvJoin (fst kv)])
                  (strandThreads (signal st)) ++
         clearEvents;
       outcome := Returns tt |} /\
  (forall id,
     StdMap.count id (strandSlots (signal st)) = true ->
     precedes (EvEnqueue id None) (EvListenerExit id) (events (disconnectAllSlots st)) /\
     precedes (EvListenerExit id) (EvJoin id) (events (disconnectAllSlots st)) /\
     precedes (EvJoin id) EvClearThreads (events (disconnectAllSlots st)) /\
     precedes (EvJoin id) EvClearQueues (events (disconnectAllSlots st)) /\
     precedes (EvJoin id) (EvClearSlots StrandSlots) (events (disconnectAllSlots st))) /\
  (forall guard maxAsync h evs ids,
     performAll h (freshState guard maxAsync)
     = {| final := st; events := evs; outcome := Returns ids |} ->
     Z.of_nat (connects h) <= UINT32_MOD ->
     forall id,
       StdMap.count id (strandSlots (signal st)) = true ->
       findSlotMapWithId id (signal st) = Some StrandSlots).
Proof.
  intros Hmax Hreach. pose proof (reachable_wf _ Hreach) as Hwf.
  split; [|split; [|split]].
  - intros id Hfind.
    pose proof (findSlotMapWithId_some _ _ _ Hfind) as Hc. simpl in Hc.
    assert (Hct : StdMap.count id (strandThreads (signal st)) = true)
      by now rewrite (wf_thread_keys _ Hwf).
    assert (Hcq : StdMap.count id (strandQueues (signal st)) = true)
      by now rewrite (wf_queue_keys _ Hwf).
    destruct (StdMap.count_find _ _ Hct) as [th Ht].
    destruct (StdMap.count_find _ _ Hcq) as [q Hq].
    unfold queueOf. unfold MPSCQueue, Task in *. rewrite Hq.
    apply (disconnectSlot_strand id st th q); auto.
    + exact (wf_threads _ Hwf _ _ Ht).
    + exact (wf_queues _ Hwf _ _ Hq).
  - now apply disconnectAllSlots_run.
  - intros id Hc. rewrite (disconnectAllSlots_run st Hmax Hwf). cbn [events].
    assert (Hct : StdMap.count id (strandThreads (signal st)) = true)
      by now rewrite (wf_thread_keys _ Hwf).
    assert (Hcq : StdMap.count id (strandQueues (signal st)) = true)
      by now rewrite (wf_queue_keys _ Hwf).
    destruct (StdMap.count_find _ _ Hct) as [th Ht].
    destruct (StdMap.count_find _ _ Hcq) as [q Hq].
    apply StdMap.find_In in Ht, Hq.
    set (F := fun kv : Z * Thread =>
                drainEvents (fst kv) (queueOf (fst kv) (signal st)) ++ [EvJoin (fst kv)]).
    assert (Henq : In (EvEnqueue id None)
                     (map (fun kv => EvEnqueue (fst kv) None) (strandQueues (signal st))))
      by (apply (in_map (fun kv => EvEnqueue (fst kv) None) _ (id, q)); exact Hq).
    destruct (In_flat_map_segment F (id, th) _ Ht) as (l1 & l3 & Hseg).
    assert (Hexit : In (EvListenerExit id) (flat_map F (strandThreads (signal st)))).
    { rewrite Hseg. apply in_or_app. right. apply in_or_app. left.
      unfold F, drainEvents. cbn [fst]. rewrite <- app_assoc.
      apply in_or_app. right. now left. }
    assert (Hjoin : In (EvJoin id) (flat_map F (strandThreads (signal st)))).
    { rewrite Hseg. apply in_or_app. right. apply in_or_app. left.
      unfold F. cbn [fst]. apply in_or_app. right. now left. }
    repeat split.
    + rewrite app_assoc. apply precedes_app_l. now apply precedes_In.
    + apply precedes_app_r, precedes_app_l. rewrite Hseg.
      unfold F, drainEvents. cbn [fst].
      exists (l1 ++ flat_map (runTask (StrandThread id)) (queueOf id (signal st))),
        [], l3.
      rewrite <- !app_assoc. reflexivity.
    + apply precedes_app_r, precedes_In; [exact Hjoin | cbn; auto].
    + apply precedes_app_r, precedes_In; [exact Hjoin | cbn; auto].
    + apply precedes_app_r, precedes_In; [exact Hjoin | cbn; auto 10].
  - intros guard maxAsync h evs ids Hrun Hle id Hc.
    assert (Hdisj : slotsDisjoint (signal st)).
    { replace st with (final (performAll h (freshState guard maxAsync)))
        by now rewrite Hrun.
      apply (reachable_disjoint _ _ _ ids); [now rewrite Hrun | exact Hle]. }
    destruct (findSlotMapWithId id (signal st)) as [r|] eqn:Hfind.
    + f_equal. apply (Hdisj id r StrandSlots); [|exact Hc].
      exact (findSlotMapWithId_some _ _ _ Hfind).
    + pose proof (proj1 (findSlotMapWithId_none _ _) Hfind StrandSlots) as Hn.
      cbn [slotsOf] in Hn. congruence.
Qed.

(** *** The listener *)

(** C4: the loop of [queueListener], with a maximum wait not below the
    minimum.  One round with a task at the head of the queue takes the task,
    runs it and sets the wait to the minimum; with the shutdown entry at the
    head it takes the entry, runs nothing and the loop ends; with an empty
    queue it sleeps for the wait and doubles it, and that is the round as
    long as the doubled wait is within the maximum.  Once the doubled wait is
    above the maximum the round goes on to the blocking dequeue: the listener
    waits while the queue is empty, takes the next entry when there is one,
    runs it (or ends the loop, if it is the shutdown entry) and sets the wait
    to the minimum. *)
Theorem listener_loop_rounds id c w q :
  minWait <= maxWait ->
  (forall c',
     listen 2 id (Listener (Some c) w AtLoopTest) (Some c' :: q)
     = (Listener (Some c') minWait AtLoopTest, q,
        runTask (StrandThread id) (Some c'))) /\
  listen 3 id (Listener (Some c) w AtLoopTest) (None :: q)
  = (Listener None minWait Finished, q, [EvListenerExit id]) /\
  (w * 2 <= maxWait ->
   listen 2 id (Listener (Some c) w AtLoopTest) []
   = (Listener (Some c) (w * 2) AtLoopTest, [], [EvSleep id w])) /\
  (maxWait < w * 2 ->
   queueListener id (Some c) w AtLoopTest []
   = Some (Listener (Some c) (w * 2) AtMaxCheck, [], [EvSleep id w]) /\
   queueListener id (Some c) (w * 2) AtMaxCheck [] = None /\
   (forall t q',
      queueListener id (Some c) (w * 2) AtMaxCheck (t :: q')
      = Some (Listener t minWait AtLoopTest, q', runTask (StrandThread id) t)) /\
   (forall q',
      listen 2 id (Listener (Some c) (w * 2) AtMaxCheck) (None :: q')
      = (Listener None minWait Finished, q', [EvListenerExit id]))).
Proof.
  intros Hmax. pose proof (maxWait_not_below_min Hmax) as Hmin.
  split; [|split; [|split]].
  - intros c'. cbn -[minWait]. rewrite Hmin. cbn. now rewrite app_nil_r.
  - cbn -[minWait]. rewrite Hmin. reflexivity.
  - intros Hle. cbn -[minWait].
    destruct (Z.ltb_spec maxWait (w * 2)); [lia|]. reflexivity.
  - intros Hlt.
    assert (Hb : (maxWait <? w * 2) = true) by now apply Z.ltb_lt.
    repeat split.
    + cbn -[minWait]. now rewrite Hb.
    + intros t q'. cbn -[minWait]. now rewrite Hb.
    + intros q'. cbn -[minWait]. rewrite Hb. reflexivity.
Qed.

(** *** Asynchronous slots *)

Lemma detachedRuns_run n f p st :
  nth_error (detached (signal st)) n = Some (f, p) ->
  events (detachedRuns n st) = [EvInvoke DetachedThread f p; EvSemRelease] /\
  semCounter (sem (signal (final (detachedRuns n st))))
  = semCounter (sem (signal st)) + 1 /\
  detached (signal (final (detachedRuns n st))) = removeNth n (detached (signal st)).
Proof.
  intros H. destruct st as [s pl]. unfold detachedRuns, bind. cbn in *.
  rewrite H. cbn. destruct s; auto.
Qed.

(** C5: in every state of an engine built for at least one detached
    thread, dispatching an asynchronous slot returns; the emitting thread
    acquires the semaphore, then spawns a detached thread for the slot and
    the arguments; that thread, when it runs, calls the slot with these
    arguments and then releases the semaphore.  An emission does this for
    every slot of [asynchronousSlots], in order, and joins nothing; the
    detached threads are no concern of [disconnectSlot] and
    [disconnectAllSlots]. *)
Theorem asynchronous_dispatch guard maxAsync st :
  0 < maxAsync ->
  reachableFrom guard maxAsync st ->
  (forall f p,
     outcome (runAsynchronous f p st) = Returns tt /\
     filter byCaller (events (runAsynchronous f p st))
     = [EvSemAcquire; EvSpawnDetached f p] /\
     exists rest,
       detached (signal (final (runAsynchronous f p st))) = rest ++ [(f, p)]) /\
  (forall p,
     filter isAsyncDispatch (events (emitSignal p st))
     = asyncEvents p (asynchronousSlots (signal st)) /\
     filter isJoin (events (emitSignal p st)) = []) /\
  (forall n f p,
     nth_error (detached (signal st)) n = Some (f, p) ->
     events (detachedRuns n st) = [EvInvoke DetachedThread f p; EvSemRelease] /\
     semCounter (sem (signal (final (detachedRuns n st))))
     = semCounter (sem (signal st)) + 1 /\
     detached (signal (final (detachedRuns n st)))
     = removeNth n (detached (signal st))) /\
  (forall id,
     detached (signal (final (disconnectSlot id st))) = detached (signal st)) /\
  detached (signal (final (disconnectAllSlots st))) = detached (signal st).
Proof.
  intros Hcap Hreach.
  assert (Hcan : canAcquire (signal st)).
  { eapply semInv_canAcquire; [exact Hcap|].
    eapply reachableFrom_semInv; [lia | exact Hreach]. }
  split; [|split; [|split; [|split]]].
  - intros f p.
    destruct (runAsynchronous_returns f p st Hcan) as (Ho & He & _ & Hd). auto.
  - intros p.
    destruct (emitSignal_dispatch guard maxAsync st p (or_intror Hcap) Hreach)
      as (_ & He & Hj).
    split; [|exact Hj].
    rewrite <- filter_isAsyncDispatch_byCaller, He.
    apply filter_isAsyncDispatch_dispatch.
  - intros n f p. apply detachedRuns_run.
  - intros id.
    assert (H : preserves detachedOf (disconnectSlot id)) by frame_solve.
    apply H.
  - assert (H : preserves detachedOf disconnectAllSlots) by frame_solve.
    apply H.
Qed.

(** *** The shutdown entry *)

Lemma emitSignal_enqueuesBound p : eventsAll (enqueuesBound p) (emitSignal p).
Proof. events_solve. Qed.

(** C6: in every state the engine can be in, no queue of a strand holds
    the shutdown entry.  No action but [Disconnect] and [DisconnectAll] puts
    one on a queue; what an emission puts on a queue is the slot bound to the
    emitted arguments, a non-empty function.  A listener that takes a task
    goes on with a non-empty [func]; the only way for it to return is the
    loop test with an empty [func]. *)
Theorem shutdown_entry_is_exclusive :
  (forall st, reachable st ->
     forall id q, StdMap.find id (strandQueues (signal st)) = Some q ->
                  Forall (fun t => t <> None) q) /\
  (forall a st,
     match a with Disconnect _ | DisconnectAll => False | _ => True end ->
     Forall notShutdown (events (perform a st))) /\
  (forall p st id t,
     In (EvEnqueue id t) (events (emitSignal p st)) ->
     exists f, t = Some (Bound f p)) /\
  (forall id c w q t,
     queueListener id (Some c) w AtLoopTest (t :: q)
     = Some (Listener t minWait AtMaxCheck, q, runTask (StrandThread id) t)) /\
  (forall id func w pc q func' w' q' evs,
     queueListener id func w pc q = Some (Listener func' w' Finished, q', evs) ->
     func = None /\ pc = AtLoopTest /\ evs = [EvListenerExit id]).
Proof.
  split; [|split; [|split; [|split]]].
  - intros st Hreach id q Hq.
    exact (wf_queues _ (reachable_wf _ Hreach) _ _ Hq).
  - intros a st Ha. now apply perform_notShutdown.
  - intros p st id t Hin.
    pose proof (emitSignal_enqueuesBound p st) as H.
    rewrite Forall_forall in H. exact (H _ Hin).
  - reflexivity.
  - intros id func w pc q func' w' q' evs. unfold queueListener.
    destruct pc; [| |discriminate].
    + destruct func; [|intros [= <- <- <- <-]; auto].
      destruct q; discriminate.
    + destruct (maxWait <? w); [destruct q|]; discriminate.
Qed.

(** *** The pool *)

(** C8, against the pool as the spec describes it: [connectSlot] with
    [THREAD_POOLED] returns and calls [WheeledThreadPool::startup()], on
    whatever engine.  In a process whose pool has not been started, after any
    calls of [connectSlot] on any of its engines the pool has been started at
    most once; when all the calls returned, [startup()] was called once for
    each [THREAD_POOLED] call and, if there was one, the pool has been started
    exactly once. *)
Theorem pool_started_once calls es :
  (forall slot st,
     outcome (connectSlot THREAD_POOLED slot st)
     = Returns (to_int (currentId (signal st))) /\
     events (connectSlot THREAD_POOLED slot st) = [EvPoolStartup] /\
     pool (final (connectSlot THREAD_POOLED slot st)) = started (pool st)) /\
  (forall p, started (started p) = started p) /\
  (poolStartups
     (sharedPool (fst (fst (connectMany calls {| engines := es; sharedPool := newPool |}))))
   <= 1)%nat /\
  (snd (connectMany calls {| engines := es; sharedPool := newPool |}) = true ->
   length (filter isPoolStartup
             (snd (fst (connectMany calls {| engines := es; sharedPool := newPool |}))))
   = pooledCalls (length es) calls /\
   (pooledCalls (length es) calls <> O ->
    poolStartups
      (sharedPool (fst (fst (connectMany calls {| engines := es; sharedPool := newPool |}))))
    = 1%nat)).
Proof.
  split; [|split].
  - intros slot st. rewrite connectSlot_pooled. auto.
  - intros p. unfold started. destruct (poolStarted p) eqn:E; cbn; now rewrite ?E.
  - pose proof (connectMany_spec calls {| engines := es; sharedPool := newPool |}
                  eq_refl) as H.
    destruct (connectMany calls {| engines := es; sharedPool := newPool |})
      as [[pr' evs] ok].
    cbn [fst snd engines sharedPool] in *.
    destruct H as (Hinv & _ & Hok). unfold poolInv in Hinv. split.
    + rewrite Hinv. destruct (poolStarted (sharedPool pr')); lia.
    + intros ->. destruct (Hok eq_refl) as [Hcount Hstart].
      split; [exact Hcount|]. intros Hne. rewrite Hinv, (Hstart Hne). reflexivity.
Qed.

(** * More of the engine *)

(** ** The listener *)

Lemma runTask_isInvoke who t : filter isInvoke (runTask who t) = runTask who t.
Proof. destruct t as [[|f p]|]; reflexivity. Qed.

(** A transition takes the head of the queue or nothing, and calls what it
    takes. *)
Lemma queueListener_takes id func w pc q th' q' evs :
  queueListener id func w pc q = Some (th', q', evs) ->
  (q = q' /\ filter isInvoke evs = []) \/
  (exists t, q = t :: q' /\ filter isInvoke evs = runTask (StrandThread id) t).
Proof.
  unfold queueListener. destruct pc.
  - destruct func as [c|].
    + destruct q as [|t q0]; intros [= <- <- <-].
      * now left.
      * right. exists t. split; [reflexivity | apply runTask_isInvoke].
    + intros [= <- <- <-]. now left.
  - destruct (maxWait <? w).
    + destruct q as [|t q0]; [discriminate|]. intros [= <- <- <-].
      right. exists t. split; [reflexivity | apply runTask_isInvoke].
    + intros [= <- <- <-]. now left.
  - discriminate.
Qed.

(** X1: whatever the number of transitions a listener takes, from whatever
    point of its loop and with whatever wait: what it has taken from its queue
    is a front part of the queue, the rest is still queued in the same order,
    and the slots it called are those of the entries taken, each once and in
    queue order. *)
Theorem listener_takes_in_order fuel id th q :
  exists taken,
    q = taken ++ snd (fst (listen fuel id th q)) /\
    filter isInvoke (snd (listen fuel id th q))
    = flat_map (runTask (StrandThread id)) taken.
Proof.
  revert th q. induction fuel as [|fuel IH]; intros th q.
  - exists []. split; reflexivity.
  - cbn [listen]. destruct th as [|func w pc]; [exists []; split; reflexivity|].
    destruct (queueListener id func w pc q) as [[[th' q'] evs]|] eqn:Hstep;
      [|exists []; split; reflexivity].
    destruct (IH th' q') as (taken & Hq & Hev).
    destruct (listen fuel id th' q') as [[th'' q''] evs'].
    cbn [fst snd] in *. rewrite filter_app, Hev.
    destruct (queueListener_takes _ _ _ _ _ _ _ _ Hstep)
      as [[-> Hnone]|(t & -> & Hrun)].
    + exists taken. split; [exact Hq|]. now rewrite Hnone.
    + exists (t :: taken). split; [cbn; now rewrite <- Hq|].
      cbn [flat_map]. now rewrite Hrun.
Qed.

Lemma listen_idle id c : forall (n : nat) w,
  0 < w ->
  (Z.to_nat (maxWait + 1 - w) <= n)%nat ->
  exists k,
    (0 < k)%nat /\
    maxWait < w * 2 ^ Z.of_nat k /\
    (forall j, (0 < j < k)%nat -> w * 2 ^ Z.of_nat j <= maxWait) /\
    forall fuel, (2 * k <= fuel)%nat ->
      listen fuel id (Listener (Some c) w AtLoopTest) []
      = (Listener (Some c) (w * 2 ^ Z.of_nat k) AtMaxCheck, [], sleeps id w k).
Proof.
  assert (Hone : forall w, 0 < w -> maxWait < w * 2 ->
    exists k,
      (0 < k)%nat /\
      maxWait < w * 2 ^ Z.of_nat k /\
      (forall j, (0 < j < k)%nat -> w * 2 ^ Z.of_nat j <= maxWait) /\
      forall fuel, (2 * k <= fuel)%nat ->
        listen fuel id (Listener (Some c) w AtLoopTest) []
        = (Listener (Some c) (w * 2 ^ Z.of_nat k) AtMaxCheck, [], sleeps id w k)).
  { intros w Hw Hmax. exists 1%nat.
    change (2 ^ Z.of_nat 1) with 2.
    split; [lia|]. split; [exact Hmax|]. split; [intros j Hj; lia|].
    intros [|[|fuel]] Hfuel; try lia.
    cbn [listen queueListener].
    destruct (Z.ltb_spec maxWait (w * 2)); [reflexivity | lia]. }
  induction n as [|n IH]; intros w Hw Hn.
  - apply Hone; [exact Hw | lia].
  - destruct (Z.ltb_spec maxWait (w * 2)) as [Hmax|Hmax]; [now apply Hone|].
    destruct (IH (w * 2)) as (k & Hk & Habove & Hbelow & Hrun); [lia | lia |].
    exists (S k).
    assert (Hpow : forall j, w * 2 ^ Z.of_nat (S j) = w * 2 * 2 ^ Z.of_nat j).
    { intros j. rewrite Nat2Z.inj_succ, Z.pow_succ_r by lia. ring. }
    split; [lia|]. split; [now rewrite Hpow|]. split.
    + intros [|j] Hj; [lia|]. rewrite Hpow. destruct j as [|j].
      * change (2 ^ Z.of_nat 0) with 1. lia.
      * apply Hbelow. lia.
    + intros [|[|fuel]] Hfuel; try lia.
      cbn [listen queueListener].
      destruct (Z.ltb_spec maxWait (w * 2)); [lia|].
      rewrite Hrun by lia. now rewrite Hpow.
Qed.

(** X2: a listener with a non-empty [func], a positive wait [w] and an
    empty queue sleeps for [w], [2 w], [4 w], ... as long as the doubled wait
    is within the maximum; with the first doubled wait above the maximum it
    goes to the blocking dequeue and stays there.  It calls nothing and it
    does not return; the number of sleeps is finite. *)
Theorem idle_listener_backs_off id c w :
  0 < w ->
  exists k,
    (0 < k)%nat /\
    maxWait < w * 2 ^ Z.of_nat k /\
    (forall j, (0 < j < k)%nat -> w * 2 ^ Z.of_nat j <= maxWait) /\
    forall fuel, (2 * k <= fuel)%nat ->
      listen fuel id (Listener (Some c) w AtLoopTest) []
      = (Listener (Some c) (w * 2 ^ Z.of_nat k) AtMaxCheck, [], sleeps id w k).
Proof.
  intros Hw. apply (listen_idle id c (Z.to_nat (maxWait + 1 - w))); [exact Hw | lia].
Qed.

(** ** What holds between two actions *)

(** X3: in every state the engine can be in, the strand threads, the
    strand queues and the strand registrations have the same keys: a strand
    has its listener and its queue exactly as long as its slot is
    registered.  Every such thread is a listener inside its loop, and the
    three maps are sorted by key. *)
Theorem strand_resources_in_step st :
  reachable st ->
  (forall id,
     StdMap.count id (strandThreads (signal st))
     = StdMap.count id (strandSlots (signal st)) /\
     StdMap.count id (strandQueues (signal st))
     = StdMap.count id (strandSlots (signal st))) /\
  (forall id th,
     StdMap.find id (strandThreads (signal st)) = Some th ->
     exists c w pc, th = Listener (Some c) w pc /\ pc <> Finished) /\
  StdMap.sorted (strandThreads (signal st)) /\
  StdMap.sorted (strandQueues (signal st)) /\
  StdMap.sorted (strandSlots (signal st)).
Proof.
  intros Hreach. pose proof (reachable_wf _ Hreach) as Hwf.
  split; [|split; [|split; [|split]]].
  - intros id. split; [apply (wf_thread_keys _ Hwf) | apply (wf_queue_keys _ Hwf)].
  - intros id th Hth. exact (wf_threads _ Hwf _ _ Hth).
  - exact (wf_sorted_threads _ Hwf).
  - exact (wf_sorted_queues _ Hwf).
  - exact (wf_sorted_slots _ Hwf StrandSlots).
Qed.

(** X4: in every state of an engine built for [maxAsync] detached threads,
    the counter of the semaphore is between 0 and [maxAsync], and the
    detached threads that have not released yet are as many as the counter
    is below [maxAsync]: never more than [maxAsync] of them at a time. *)
Theorem semaphore_counts_detached guard maxAsync st :
  0 <= maxAsync ->
  reachableFrom guard maxAsync st ->
  0 <= semCounter (sem (signal st)) <= maxAsync /\
  Z.of_nat (length (detached (signal st)))
  = maxAsync - semCounter (sem (signal st)) /\
  Z.of_nat (length (detached (signal st))) <= maxAsync.
Proof.
  intros Hcap Hreach.
  destruct (reachableFrom_semInv _ _ _ Hcap Hreach) as [H0 Hsum]. lia.
Qed.

(** ** Emission *)

Lemma emitSignal_no_slots p st :
  (forall r, slotsOf r (signal st) = []) ->
  emitSignal p st = {| final := st; events := []; outcome := Returns tt |}.
Proof.
  intros Hnone. rewrite emitSignal_unfold. unfold emitSignalUnsafe.
  rewrite bind_getSignal.
  pose proof (Hnone SynchronousSlots) as H1.
  pose proof (Hnone AsynchronousSlots) as H2.
  pose proof (Hnone StrandSlots) as H3.
  pose proof (Hnone ThreadPooledSlots) as H4.
  cbn [slotsOf] in *. rewrite H1, H2, H3, H4. reflexivity.
Qed.

(** X5: with no slot in any of the four maps, [emitSignal] returns, does
    nothing and leaves the state as it is. *)
Theorem emit_without_slots p st :
  (forall r, slotsOf r (signal st) = []) ->
  emitSignal p st = {| final := st; events := []; outcome := Returns tt |}.
Proof.
  intros Hnone. rewrite emitSignal_unfold. unfold emitSignalUnsafe.
  rewrite bind_getSignal.
  rewrite (Hnone SynchronousSlots : synchronousSlots (signal st) = []).
  rewrite (Hnone AsynchronousSlots : asynchronousSlots (signal st) = []).
  rewrite (Hnone StrandSlots : strandSlots (signal st) = []).
  rewrite (Hnone ThreadPooledSlots : threadPooledSlots (signal st) = []).
  reflexivity.
Qed.

Lemma bind_stops {A B} (m : M A) (k : A -> M B) st why :
  outcome (m st) = Stops why ->
  bind m k st
  = {| final := final (m st); events := events (m st); outcome := Stops why |}.
Proof. intros H. unfold bind. now rewrite H. Qed.

(** With capacity left nowhere, [acquire] waits for ever. *)
Lemma async_loop_blocks p k f m st :
  semCounter (sem (signal st)) = 0 ->
  detached (signal st) = [] ->
  forEach ((k, f) :: m) (fun _ slot => runAsynchronous slot p) st
  = {| final := st; events := []; outcome := Stops Deadlock |}.
Proof.
  intros Hc Hd. destruct st as [s pl]. cbn [signal] in *.
  cbn [forEach]. unfold runAsynchronous, acquire, bind. cbn.
  rewrite Hc, Hd. reflexivity.
Qed.

(** X6: on an engine built with [maxAsyncThreads = 0] that has an
    asynchronous slot, [emitSignal] calls the synchronous slots and then
    waits in [sem.acquire()] for ever: it does not return, nothing is spawned,
    put on a queue or handed to the pool, and the state is as before. *)
Theorem emit_blocks_without_capacity guard st p :
  reachableFrom guard 0 st ->
  asynchronousSlots (signal st) <> [] ->
  emitSignal p st
  = {| final := st;
       events := syncEvents p (synchronousSlots (signal st));
       outcome := Stops Deadlock |}.
Proof.
  intros Hreach Hsome.
  destruct (reachableFrom_semInv _ _ _ (Z.le_refl 0) Hreach) as [H0 Hsum].
  assert (Hc : semCounter (sem (signal st)) = 0) by lia.
  assert (Hd : detached (signal st) = []).
  { destruct (detached (signal st)); [reflexivity | cbn in Hsum; lia]. }
  rewrite emitSignal_unfold. unfold emitSignalUnsafe. rewrite bind_getSignal.
  rewrite (bind_returns _ _ st tt) by now rewrite sync_loop.
  rewrite sync_loop. cbn [final events outcome].
  destruct (asynchronousSlots (signal st)) as [|[k f] m]; [contradiction|].
  rewrite (bind_stops _ _ st Deadlock)
    by now rewrite (async_loop_blocks _ _ _ _ _ Hc Hd).
  rewrite (async_loop_blocks _ _ _ _ _ Hc Hd).
  cbn [final events outcome]. now rewrite app_nil_r.
Qed.

(** What the loop over [strandSlots] leaves on the queue of a strand. *)
Lemma strand_loop_queues p (m : StdMap.t Slot) : forall st id,
  NoDup (StdMap.keys m) ->
  StdMap.find id
    (strandQueues (signal (final (forEach m (fun id slot => runStrands id slot p) st))))
  = match StdMap.find id m with
    | Some f => Some (queueOf id (signal st) ++ [Some (Bound f p)])
    | None => StdMap.find id (strandQueues (signal st))
    end.
Proof.
  induction m as [|[k f] m IH]; intros st id Hnd; [reflexivity|].
  inversion Hnd as [|? ? Hnotin Hnd']; subst.
  cbn [forEach]. rewrite (bind_returns _ _ st tt) by reflexivity.
  cbn [final]. rewrite (IH _ id Hnd').
  assert (Hq : forall id',
    StdMap.find id' (strandQueues (signal (final (runStrands k f p st))))
    = if id' =? k then Some (queueOf k (signal st) ++ [Some (Bound f p)])
      else StdMap.find id' (strandQueues (signal st))).
  { intros id'. destruct st as [s pl]. unfold runStrands, enqueue, bind.
    cbn [modifySignal logEvent final events outcome signal].
    destruct s. cbn [set_strandQueues strandQueues]. unfold queueOf.
    cbn [strandQueues]. unfold MPSCQueue, Task in *.
    destruct (Z.eqb_spec id' k) as [->|Hne].
    - erewrite StdMap.find_update_same by apply StdMap.find_subscript_same.
      reflexivity.
    - rewrite StdMap.find_update_other by assumption.
      now rewrite StdMap.find_subscript_other by assumption. }
  cbn [StdMap.find].
  destruct (Z.eqb_spec k id) as [->|Hne].
  - assert (Hnone : StdMap.find id m = None).
    { apply StdMap.find_none_count, StdMap.count_false_iff. exact Hnotin. }
    rewrite Hnone, Hq, Z.eqb_refl. reflexivity.
  - destruct (StdMap.find id m) as [g|].
    + unfold queueOf at 1. rewrite Hq.
      destruct (Z.eqb_spec id k); [congruence|]. reflexivity.
    + rewrite Hq. destruct (Z.eqb_spec id k); [congruence|]. reflexivity.
Qed.

Lemma emitSignalUnsafe_queues p st :
  outcome (emitSignalUnsafe p st) = Returns tt ->
  exists st1,
    strandQueues (signal st1) = strandQueues (signal st) /\
    strandQueues (signal (final (emitSignalUnsafe p st)))
    = strandQueues
        (signal (final (forEach (strandSlots (signal st))
                          (fun id slot => runStrands id slot p) st1))).
Proof.
  unfold emitSignalUnsafe. rewrite bind_getSignal.
  rewrite (bind_returns _ _ st tt) by now rewrite sync_loop.
  rewrite sync_loop. cbn [final events outcome]. intros Ho.
  destruct (bind_outcome_returns _ _ _ _ Ho) as ([] & Ho1 & Ho2).
  rewrite (bind_returns _ _ _ _ Ho1). cbn [final].
  set (st1 := final (forEach (asynchronousSlots (signal st))
                       (fun _ slot => runAsynchronous slot p) st)) in *.
  exists st1. split.
  - assert (Hm : maps st1 = maps st).
    { subst st1. apply preserves_forEach. intros k v.
      apply runAsynchronous_preserves_maps. }
    unfold maps in Hm. congruence.
  - destruct (bind_outcome_returns _ _ _ _ Ho2) as ([] & Ho3 & _).
    rewrite (bind_returns _ _ _ _ Ho3). cbn [final].
    set (st2 := final (forEach (strandSlots (signal st))
                         (fun id slot => runStrands id slot p) st1)).
    assert (Hm : maps (final (forEach (threadPooledSlots (signal st))
                                (fun _ slot => runThreadPooled slot p) st2))
                 = maps st2).
    { apply preserves_forEach. intros k v. apply runThreadPooled_preserves_maps. }
    unfold maps in Hm. congruence.
Qed.

Lemma emitSignal_queue p st id :
  StdMap.sorted (strandSlots (signal st)) ->
  outcome (emitSignal p st) = Returns tt ->
  StdMap.find id (strandQueues (signal (final (emitSignal p st))))
  = match StdMap.find id (strandSlots (signal st)) with
    | Some f => Some (queueOf id (signal st) ++ [Some (Bound f p)])
    | None => StdMap.find id (strandQueues (signal st))
    end.
Proof.
  intros Hsorted. rewrite emitSignal_unfold. intros Ho.
  destruct (emitSignalUnsafe_queues _ _ Ho) as (st1 & Hsame & ->).
  rewrite strand_loop_queues by now apply sorted_NoDup.
  unfold queueOf. now rewrite Hsame.
Qed.

(** X7: an emission that returns has put, for every registered strand, the
    slot bound to the emitted arguments at the end of that strand's queue,
    behind what was queued, once; the queues of other ids are as before. *)
Theorem emit_queues_behind p st id :
  StdMap.sorted (strandSlots (signal st)) ->
  outcome (emitSignal p st) = Returns tt ->
  StdMap.find id (strandQueues (signal (final (emitSignal p st))))
  = match StdMap.find id (strandSlots (signal st)) with
    | Some f => Some (queueOf id (signal st) ++ [Some (Bound f p)])
    | None => StdMap.find id (strandQueues (signal st))
    end.
Proof.
  intros Hsorted. rewrite emitSignal_unfold. intros Ho.
  destruct (emitSignalUnsafe_queues _ _ Ho) as (st1 & Hsame & Hfinal).
  rewrite Hfinal, strand_loop_queues by now apply sorted_NoDup.
  destruct (StdMap.find id (strandSlots (signal st))) as [f|].
  - unfold queueOf. now rewrite Hsame.
  - now rewrite Hsame.
Qed.

(** ** [disconnectSlot] *)

Lemma disconnectSlot_strand_after id st :
  findSlotMapWithId id (signal st) = Some StrandSlots ->
  outcome (disconnectSlot id st) = Returns tt ->
  final (disconnectSlot id st)
  = {| signal := withoutStrand id (signal st); pool := pool st |}.
Proof.
  intros Hfind. rewrite (disconnectSlot_strand_unfold _ _ Hfind).
  intros Ho.
  set (st1 := final (enqueue id None st)).
  assert (Ht1 : strandThreads (signal st1) = strandThreads (signal st))
    by (destruct st as [[] ?]; reflexivity).
  assert (Hq1 : StdMap.find id (strandQueues (signal st1))
                = Some (queueOf id (signal st) ++ [None])).
  { destruct st as [[] ?]. unfold queueOf. simpl.
    unfold MPSCQueue, Task in *.
    erewrite StdMap.find_update_same by apply StdMap.find_subscript_same.
    reflexivity. }
  destruct (bind_outcome_returns _ _ _ _ Ho) as ([] & Ho1 & _).
  rewrite (bind_returns _ _ _ _ Ho1). cbn [final].
  rewrite (bind_returns (enqueue id None) _ st tt eq_refl) in Ho1 |- *.
  cbn [final outcome] in Ho1 |- *. fold st1 in Ho1 |- *.
  destruct (bind_outcome_returns _ _ _ _ Ho1) as ([] & Hoj & _).
  destruct (StdMap.find id (strandThreads (signal st1))) as [th|] eqn:Eth.
  - destruct (join_final id st1 th _ Eth Hq1) as (th' & q' & Hj).
    rewrite (bind_returns _ _ _ _ Hoj). cbn [final]. rewrite Hj.
    subst st1. destruct st as [[] ?].
    unfold withoutStrand, withStrand, set_slotsOf, set_strandQueues,
      set_strandThreads. cbn.
    unfold MPSCQueue, Task in *.
    now rewrite !StdMap.erase_update, StdMap.erase_subscript.
  - exfalso. unfold join in Hoj. rewrite bind_getSignal, Eth in Hoj.
    unfold bind in Hoj. cbn in Hoj. discriminate.
Qed.

(** X8: a [disconnectSlot] that finds the id in the slot map [r] and
    returns has erased the id from [r] and changed no other slot map; for a
    strand it has erased the id from the threads and the queues as well, and
    otherwise left those alone.  The counter, the semaphore, the detached
    threads and the pool are as before. *)
Theorem disconnect_removes_one id st r :
  findSlotMapWithId id (signal st) = Some r ->
  outcome (disconnectSlot id st) = Returns tt ->
  slotsOf r (signal (final (disconnectSlot id st)))
  = StdMap.erase id (slotsOf r (signal st)) /\
  (forall r', r' <> r ->
     slotsOf r' (signal (final (disconnectSlot id st))) = slotsOf r' (signal st)) /\
  strandThreads (signal (final (disconnectSlot id st)))
  = (if SlotMapRef_eqb r StrandSlots
     then StdMap.erase id (strandThreads (signal st))
     else strandThreads (signal st)) /\
  strandQueues (signal (final (disconnectSlot id st)))
  = (if SlotMapRef_eqb r StrandSlots
     then StdMap.erase id (strandQueues (signal st))
     else strandQueues (signal st)) /\
  besidesStrands (final (disconnectSlot id st)) = besidesStrands st.
Proof.
  intros Hfind Ho.
  destruct (disconnectSlot_slots _ _ _ Hfind Ho) as [Hr Hother].
  split; [exact Hr|]. split; [exact Hother|].
  destruct r;
    try (rewrite (disconnectSlot_direct _ _ _ Hfind) by discriminate;
         destruct st as [[] ?]; repeat split; reflexivity).
  rewrite (disconnectSlot_strand_after _ _ Hfind Ho).
  destruct st as [[] ?]. repeat split; reflexivity.
Qed.

(** ** [disconnectAllSlots] *)

Lemma disconnectAllSlots_preserves_besidesStrands :
  preserves besidesStrands disconnectAllSlots.
Proof. frame_solve. Qed.

Lemma disconnectAllSlots_after st :
  outcome (disconnectAllSlots st) = Returns tt ->
  final (disconnectAllSlots st)
  = {| signal := cleared (signal st); pool := pool st |}.
Proof.
  intros Ho. destruct (disconnectAllSlots_final _ Ho) as [s2 Hs2].
  pose proof (disconnectAllSlots_preserves_besidesStrands st) as Hb.
  destruct (final (disconnectAllSlots st)) as [s' p'].
  destruct st as [s p]. cbn [signal pool] in *.
  destruct (cleared_besidesStrands _ _ _ _ Hb) as [Hc ->].
  f_equal. rewrite <- Hc, Hs2. reflexivity.
Qed.

(** X9: after a [disconnectAllSlots] that returned, the six maps are
    empty and the rest of the object and the pool are as before; a further
    emission does nothing, a [disconnectSlot] of whatever id does nothing,
    and a second [disconnectAllSlots] puts nothing on a queue, joins nothing
    and only clears the empty maps. *)
Theorem disconnect_all_leaves_nothing st :
  outcome (disconnectAllSlots st) = Returns tt ->
  final (disconnectAllSlots st)
  = {| signal := cleared (signal st); pool := pool st |} /\
  (forall p,
     emitSignal p (final (disconnectAllSlots st))
     = {| final := final (disconnectAllSlots st); events := [];
          outcome := Returns tt |}) /\
  (forall id,
     disconnectSlot id (final (disconnectAllSlots st))
     = {| final := final (disconnectAllSlots st); events := [];
          outcome := Returns tt |}) /\
  disconnectAllSlots (final (disconnectAllSlots st))
  = {| final := final (disconnectAllSlots st); events := clearEvents;
       outcome := Returns tt |}.
Proof.
  intros Ho. rewrite (disconnectAllSlots_after _ Ho).
  split; [reflexivity|]. split; [|split].
  - intros p. apply emitSignal_no_slots. intros []; reflexivity.
  - intros id. apply disconnectSlot_unknown. reflexivity.
  - rewrite disconnectAllSlots_no_strands by reflexivity. reflexivity.
Qed.

(** ** [connectSlot] *)

(** The [uint32_t] parameter of [disconnectSlot] made from the [int] that
    [connectSlot] returned is the id again. *)
Lemma wrap32_to_int c : 0 <= c < UINT32_MOD -> wrap32 (to_int c) = c.
Proof.
  intros H. unfold to_int, wrap32.
  destruct (c <=? INT32_MAX).
  - now apply Z.mod_small.
  - replace (c - UINT32_MOD) with (c + (-1) * UINT32_MOD) by ring.
    rewrite Z_mod_plus_full. now apply Z.mod_small.
Qed.

Lemma performAll_counter_range h : forall st ids,
  0 <= currentId (signal st) < UINT32_MOD ->
  outcome (performAll h st) = Returns ids ->
  0 <= currentId (signal (final (performAll h st))) < UINT32_MOD.
Proof.
  induction h as [|a h IH]; intros st ids Hc Ho; [exact Hc|].
  cbn [performAll] in *.
  destruct (bind_outcome_returns _ _ _ _ Ho) as (ids1 & Ho1 & Ho').
  destruct (bind_outcome_returns _ _ _ _ Ho') as (ids2 & Ho2 & _).
  rewrite (bind_returns _ _ _ _ Ho1). cbn [final].
  rewrite final_bind_ret.
  apply (IH _ ids2); [|exact Ho2].
  pose proof (perform_ids _ _ _ Ho1) as Hi. unfold counterOf in Hi.
  destruct a; destruct Hi as [_ ->]; auto using wrap32_range.
Qed.

Lemma reachable_counter_range st :
  reachable st -> 0 <= currentId (signal st) < UINT32_MOD.
Proof.
  intros (guard & maxAsync & _ & h & evs & ids & Hrun).
  replace st with (final (performAll h (freshState guard maxAsync)))
    by now rewrite Hrun.
  apply (performAll_counter_range h _ ids).
  - cbn. unfold UINT32_MOD. lia.
  - now rewrite Hrun.
Qed.

Lemma findSlotMapWithId_slotsOf id s s' :
  (forall r, slotsOf r s' = slotsOf r s) ->
  findSlotMapWithId id s' = findSlotMapWithId id s.
Proof.
  intros H. unfold findSlotMapWithId.
  pose proof (H SynchronousSlots) as H1.
  pose proof (H AsynchronousSlots) as H2.
  pose proof (H StrandSlots) as H3.
  pose proof (H ThreadPooledSlots) as H4.
  cbn [slotsOf] in *. now rewrite H1, H2, H3, H4.
Qed.

Lemma findSlotMapWithId_registered r id slot s :
  (forall r', StdMap.count id (slotsOf r' s) = false) ->
  findSlotMapWithId id (registered r id slot s) = Some r.
Proof.
  intros Hfree.
  pose proof (Hfree SynchronousSlots) as H1.
  pose proof (Hfree AsynchronousSlots) as H2.
  pose proof (Hfree StrandSlots) as H3.
  pose proof (Hfree ThreadPooledSlots) as H4.
  unfold findSlotMapWithId. destruct s, r; cbn in *;
    rewrite ?H1, ?H2, ?H3, ?H4, ?StdMap.count_emplace, ?Z.eqb_refl;
    reflexivity.
Qed.

(** X10: [connectSlot] with an id that is in none of the slot maps: the
    [int] it returns, converted back to [uint32_t], is the id it took;
    [findSlotMapWithId] finds that id in the map of the scheme, and the map
    holds the slot under it. *)
Theorem connect_then_find scheme slot st id :
  0 <= currentId (signal st) < UINT32_MOD ->
  (forall r, StdMap.count (currentId (signal st)) (slotsOf r (signal st)) = false) ->
  outcome (connectSlot scheme slot st) = Returns id ->
  wrap32 id = currentId (signal st) /\
  findSlotMapWithId (wrap32 id) (signal (final (connectSlot scheme slot st)))
  = Some (getSlotMap scheme) /\
  StdMap.find (wrap32 id)
    (slotsOf (getSlotMap scheme) (signal (final (connectSlot scheme slot st))))
  = Some slot.
Proof.
  intros Hc Hfree Ho.
  destruct (connectSlot_id _ _ _ _ Ho) as [-> _].
  destruct (connectSlot_signal _ _ _ _ Ho) as [Hmaps _].
  rewrite (wrap32_to_int _ Hc). split; [reflexivity|]. split.
  - rewrite (findSlotMapWithId_slotsOf _ _ _ Hmaps).
    now apply findSlotMapWithId_registered.
  - rewrite Hmaps, slotsOf_registered.
    rewrite (proj2 (SlotMapRef_eqb_eq _ _) eq_refl).
    apply StdMap.find_emplace_same, Hfree.
Qed.

Lemma withoutStrand_withNewStrand id slot s :
  StdMap.count id (strandThreads s) = false ->
  StdMap.count id (strandQueues s) = false ->
  StdMap.count id (strandSlots s) = false ->
  withoutStrand id (withNewStrand id (registered StrandSlots id slot s))
  = set_currentId (wrap32 (currentId s + 1)) s.
Proof.
  intros Ht Hq Hs. destruct s.
  cbv [strandThreads strandQueues strandSlots] in Ht, Hq, Hs.
  cbv [withoutStrand withNewStrand registered set_slotsOf set_strandQueues
       set_strandThreads set_currentId slotsOf currentId sem
       enableEmissionGuard strandQueues strandThreads synchronousSlots
       asynchronousSlots strandSlots threadPooledSlots detached].
  unfold MPSCQueue, Task in *.
  rewrite StdMap.erase_emplace, StdMap.erase_subscript, StdMap.erase_emplace.
  now rewrite !StdMap.erase_absent by assumption.
Qed.

Lemma erase_registered r id slot s :
  StdMap.count id (slotsOf r s) = false ->
  set_slotsOf r (StdMap.erase id (slotsOf r (registered r id slot s)))
    (registered r id slot s)
  = set_currentId (wrap32 (currentId s + 1)) s.
Proof.
  intros Hfree.
  destruct s, r; unfold registered, set_slotsOf, set_currentId; cbn in *;
    now rewrite StdMap.erase_emplace, StdMap.erase_absent by assumption.
Qed.

(** X11: in every state the engine can be in, with a maximum wait not
    below the minimum: [connectSlot] with an id that is in none of the slot
    maps, followed by [disconnectSlot] of the id it returned, returns and
    leaves the object as it was before the two calls, but for the counter,
    which has gone on by one.  For a strand the listener just started has
    been shut down and joined. *)
Theorem connect_then_disconnect scheme slot st id :
  minWait <= maxWait ->
  reachable st ->
  (forall r, StdMap.count (currentId (signal st)) (slotsOf r (signal st)) = false) ->
  outcome (connectSlot scheme slot st) = Returns id ->
  outcome (perform (Disconnect id) (final (connectSlot scheme slot st))) = Returns [] /\
  signal (final (perform (Disconnect id) (final (connectSlot scheme slot st))))
  = set_currentId (wrap32 (currentId (signal st) + 1)) (signal st) /\
  pool (final (perform (Disconnect id) (final (connectSlot scheme slot st))))
  = pool (final (connectSlot scheme slot st)).
Proof.
  intros Hwait Hreach Hfree Ho.
  pose proof (reachable_wf _ Hreach) as Hwf.
  pose proof (reachable_counter_range _ Hreach) as Hc.
  destruct (connectSlot_id _ _ _ _ Ho) as [-> _].
  cbn [perform]. rewrite (wrap32_to_int _ Hc).
  set (c := currentId (signal st)) in *.
  assert (Hdirect : forall r pl,
    r <> StrandSlots ->
    disconnectSlot c {| signal := registered r c slot (signal st); pool := pl |}
    = {| final := {| signal := set_currentId (wrap32 (c + 1)) (signal st);
                     pool := pl |};
         events := [EvEraseSlot r c]; outcome := Returns tt |}).
  { intros r pl Hr.
    rewrite (disconnectSlot_direct c _ r)
      by (try exact Hr; now apply findSlotMapWithId_registered).
    cbn [signal pool]. now rewrite erase_registered by apply Hfree. }
  destruct (getSlotMap_cases scheme) as [[-> _]|[[-> _]|(H2 & H3 & Hr)]].
  - assert (Ht : StdMap.count c (strandThreads (signal st)) = false)
      by (rewrite (wf_thread_keys _ Hwf); apply (Hfree StrandSlots)).
    assert (Hq : StdMap.count c (strandQueues (signal st)) = false)
      by (rewrite (wf_queue_keys _ Hwf); apply (Hfree StrandSlots)).
    rewrite (connectSlot_strand _ _ Ht). cbn [final].
    fold c.
    set (st1 := {| signal := withNewStrand c (registered StrandSlots c slot (signal st));
                   pool := pool st |}).
    assert (Hrun : disconnectSlot c st1
                   = {| final := {| signal := withoutStrand c (signal st1);
                                    pool := pool st1 |};
                        events := EvEnqueue c None :: drainEvents c [] ++
                                    [EvJoin c; EvEraseThread c; EvEraseQueue c;
                                     EvEraseSlot StrandSlots c];
                        outcome := Returns tt |}).
    { apply (disconnectSlot_strand c st1 newListener []).
      - exact Hwait.
      - subst st1. cbn [signal].
        rewrite (findSlotMapWithId_slotsOf c (registered StrandSlots c slot (signal st)))
          by (intros []; destruct (signal st); reflexivity).
        now apply findSlotMapWithId_registered.
      - subst st1. destruct (signal st). cbn in *.
        now apply StdMap.find_emplace_same.
      - exists NopLambda, minWait, AtLoopTest. split; [reflexivity | discriminate].
      - subst st1. destruct (signal st). cbn in *.
        unfold MPSCQueue, Task in *. rewrite StdMap.find_subscript_same.
        apply StdMap.find_none_count in Hq. now rewrite Hq.
      - constructor. }
    rewrite (bind_returns _ _ st1 tt) by now rewrite Hrun.
    rewrite Hrun. cbn [final events outcome ret signal pool]. subst st1.
    cbn [signal pool].
    rewrite withoutStrand_withNewStrand by (try assumption; apply (Hfree StrandSlots)).
    repeat split.
  - rewrite connectSlot_pooled. cbn [final]. fold c.
    rewrite (bind_returns _ _ _ tt) by now rewrite Hdirect.
    rewrite Hdirect by discriminate. repeat split.
  - rewrite (connectSlot_plain _ _ _ H2 H3). cbn [final]. fold c.
    rewrite (bind_returns _ _ _ tt) by now rewrite Hdirect.
    rewrite Hdirect by exact Hr. repeat split.
Qed.

Lemma performAll_keysBelow h : forall st ids,
  outcome (performAll h st) = Returns ids ->
  slotsDisjoint (signal st) ->
  keysBelowCounter (signal st) ->
  0 <= currentId (signal st) ->
  currentId (signal st) + Z.of_nat (connects h) < UINT32_MOD ->
  keysBelowCounter (signal (final (performAll h st))).
Proof.
  induction h as [|a h IH]; intros st ids Ho Hd Hk Hc0 Hlt; [exact Hk|].
  cbn [performAll] in *.
  destruct (bind_outcome_returns _ _ _ _ Ho) as (ids1 & Ho1 & Ho').
  destruct (bind_outcome_returns _ _ _ _ Ho') as (ids2 & Ho2 & _).
  rewrite (bind_returns _ _ _ _ Ho1). cbn [final].
  rewrite final_bind_ret.
  pose proof (perform_disjoint _ _ _ Ho1) as Ha.
  pose proof (perform_ids _ _ _ Ho1) as Hi.
  destruct a as [scheme slot|id| |p|id|n|]; cbn [connects] in Hlt;
    try (destruct Ha as [Hd' Hk']; destruct Hi as [_ Hc]; unfold counterOf in Hc;
         apply (IH _ _ Ho2); [now apply Hd' | now apply Hk' | | ];
         rewrite Hc; assumption).
  destruct (Ha Hd Hk Hc0) as [Hd' Hk']. destruct Hi as [_ Hc].
  unfold counterOf in Hc.
  assert (Hc' : currentId (signal (final (perform (Connect scheme slot) st)))
                = currentId (signal st) + 1)
    by (rewrite Hc; apply wrap32_small; lia).
  apply (IH _ _ Ho2); [exact Hd' | apply Hk'; lia | |]; rewrite Hc'; lia.
Qed.

(** X12: where every key of the slot maps is below the counter,
    [connectSlot] puts the new slot behind all others of its map, so that an
    emission reaches it last among the slots of its scheme, and leaves the
    other slot maps as they are.  The keys are below the counter in every
    state an engine reaches with fewer than [UINT32_MOD] calls of
    [connectSlot]. *)
Theorem connect_appends_last scheme slot st id :
  (keysBelowCounter (signal st) ->
   outcome (connectSlot scheme slot st) = Returns id ->
   forall r,
     slotsOf r (signal (final (connectSlot scheme slot st)))
     = if SlotMapRef_eqb r (getSlotMap scheme)
       then slotsOf r (signal st) ++ [(currentId (signal st), slot)]
       else slotsOf r (signal st)) /\
  (forall guard maxAsync h evs ids,
     performAll h (freshState guard maxAsync)
     = {| final := st; events := evs; outcome := Returns ids |} ->
     Z.of_nat (connects h) < UINT32_MOD ->
     keysBelowCounter (signal st)).
Proof.
  split.
  - intros Hk Ho r.
    destruct (connectSlot_signal _ _ _ _ Ho) as [-> _].
    rewrite slotsOf_registered.
    destruct (SlotMapRef_eqb r (getSlotMap scheme)) eqn:Er; [|reflexivity].
    apply SlotMapRef_eqb_eq in Er. subst r.
    apply StdMap.emplace_above. apply Forall_forall. intros k Hin.
    apply StdMap.count_true_iff in Hin. apply (Hk _ _ Hin).
  - intros guard maxAsync h evs ids Hrun Hlt.
    replace st with (final (performAll h (freshState guard maxAsync)))
      by now rewrite Hrun.
    apply (performAll_keysBelow h _ ids).
    + now rewrite Hrun.
    + intros k [] r' H; discriminate.
    + intros [] k H; discriminate.
    + cbn. lia.
    + cbn [signal freshState newSignal currentId]. lia.
Qed.

(** [emplace] with a key the map holds changes nothing. *)
Lemma emplace_present {V} k (v : V) (m : StdMap.t V) :
  StdMap.sorted m -> StdMap.count k m = true -> StdMap.emplace k v m = m.
Proof.
  unfold StdMap.sorted. induction m as [|[k0 v0] m IH]; simpl; intros Hs Hc.
  - discriminate.
  - inversion Hs as [|? ? Hs' Hall]; subst.
    apply StdMap.count_true_iff in Hc. simpl in Hc.
    destruct (Z.ltb_spec k k0) as [Hlt|Hge].
    + exfalso. destruct Hc as [Hc|Hc]; [lia|].
      rewrite Forall_forall in Hall. specialize (Hall _ Hc). lia.
    + destruct (Z.eqb_spec k k0) as [->|Hne]; [reflexivity|].
      f_equal. apply IH; [exact Hs'|].
      apply StdMap.count_true_iff. destruct Hc as [Hc|Hc]; [congruence | exact Hc].
Qed.

Lemma connectSlot_slotsOf scheme slot st r :
  slotsOf r (signal (final (connectSlot scheme slot st)))
  = slotsOf r (registered (getSlotMap scheme) (currentId (signal st)) slot
                 (signal st)).
Proof.
  destruct (getSlotMap_cases scheme) as [[-> _]|[[-> _]|(H2 & H3 & Hr)]].
  - destruct (StdMap.count (currentId (signal st)) (strandThreads (signal st))) eqn:E.
    + destruct st as [s p]. unfold connectSlot, spawnListener, bind.
      cbn in *. rewrite E. destruct r; reflexivity.
    + rewrite (connectSlot_strand _ _ E). destruct r; reflexivity.
  - rewrite connectSlot_pooled. reflexivity.
  - rewrite (connectSlot_plain _ _ _ H2 H3). reflexivity.
Qed.

(** X13: [connectSlot] never replaces and never removes a registration:
    with sorted slot maps, whatever the scheme and the outcome, a slot that
    was in a slot map under some id is there under that id afterwards.  In
    particular, when the id the counter gives is already a key of the map of
    the scheme, the old slot stays and the new one is not registered. *)
Theorem connect_keeps_existing scheme slot st :
  (forall r, StdMap.sorted (slotsOf r (signal st))) ->
  (forall r k f,
     StdMap.find k (slotsOf r (signal st)) = Some f ->
     StdMap.find k (slotsOf r (signal (final (connectSlot scheme slot st))))
     = Some f) /\
  (StdMap.count (currentId (signal st))
     (slotsOf (getSlotMap scheme) (signal st)) = true ->
   forall r,
     slotsOf r (signal (final (connectSlot scheme slot st)))
     = slotsOf r (signal st)).
Proof.
  intros Hsorted. split.
  - intros r k f Hfind. rewrite connectSlot_slotsOf, slotsOf_registered.
    destruct (SlotMapRef_eqb r (getSlotMap scheme)) eqn:Er; [|exact Hfind].
    apply SlotMapRef_eqb_eq in Er. subst r.
    destruct (Z.eq_dec k (currentId (signal st))) as [->|Hne].
    + rewrite emplace_present; [exact Hfind | apply Hsorted |].
      eapply StdMap.find_some_count; eauto.
    + now rewrite StdMap.find_emplace_other.
  - intros Htaken r. rewrite connectSlot_slotsOf, slotsOf_registered.
    destruct (SlotMapRef_eqb r (getSlotMap scheme)) eqn:Er; [|reflexivity].
    apply SlotMapRef_eqb_eq in Er. subst r.
    now apply emplace_present.
Qed.

(** ** Emission and disconnection of a strand *)

(** X14: in every state the engine can be in, with a maximum wait not
    below the minimum: after an emission that returned, [disconnectSlot] of a
    registered strand returns, and before the listener returns it has called
    what was queued and then the slot with the arguments of that emission:
    the tasks of a strand are run in the order of the emissions, the newest
    last, and none is lost at the disconnect. *)
Theorem emit_then_disconnect_strand st p id f :
  minWait <= maxWait ->
  reachable st ->
  StdMap.find id (strandSlots (signal st)) = Some f ->
  findSlotMapWithId id (signal st) = Some StrandSlots ->
  outcome (emitSignal p st) = Returns tt ->
  outcome (disconnectSlot id (final (emitSignal p st))) = Returns tt /\
  events (disconnectSlot id (final (emitSignal p st)))
  = EvEnqueue id None ::
    flat_map (runTask (StrandThread id)) (queueOf id (signal st)) ++
    [EvInvoke (StrandThread id) f p; EvListenerExit id; EvJoin id;
     EvEraseThread id; EvEraseQueue id; EvEraseSlot StrandSlots id].
Proof.
  intros Hwait Hreach Hslot Hfind Ho.
  pose proof (reachable_wf _ Hreach) as Hwf.
  assert (Hwf' : wf (signal (final (emitSignal p st))))
    by (rewrite emitSignal_unfold; now apply emitSignalUnsafe_wf).
  pose proof (emitSignal_preserves_registrations p st) as Hreg.
  unfold registrations in Hreg.
  assert (Hslots : forall r, slotsOf r (signal (final (emitSignal p st)))
                             = slotsOf r (signal st))
    by (intros []; cbn [slotsOf]; congruence).
  pose proof (Hslots StrandSlots) as Hstrand. cbn [slotsOf] in Hstrand.
  assert (Hfind' : findSlotMapWithId id (signal (final (emitSignal p st)))
                   = Some StrandSlots)
    by now rewrite (findSlotMapWithId_slotsOf id (signal st)).
  pose proof (emitSignal_queue p st id (wf_sorted_slots _ Hwf StrandSlots) Ho) as Hq.
  rewrite Hslot in Hq.
  assert (Hcount : StdMap.count id (strandThreads (signal (final (emitSignal p st))))
                   = true).
  { rewrite (wf_thread_keys _ Hwf'), Hstrand.
    eapply StdMap.find_some_count; eauto. }
  destruct (StdMap.count_find _ _ Hcount) as [th Hth].
  rewrite (disconnectSlot_strand id _ th _ Hwait Hfind' Hth
             (wf_threads _ Hwf' _ _ Hth) Hq (wf_queues _ Hwf' _ _ Hq)).
  cbn [events outcome]. split; [reflexivity|].
  unfold drainEvents. rewrite flat_map_app. cbn [flat_map runTask].
  now rewrite <- !app_assoc.
Qed.

(** ** Calls that return *)

Lemma disconnectSlot_returns st id :
  minWait <= maxWait ->
  wf (signal st) ->
  outcome (disconnectSlot id st) = Returns tt.
Proof.
  intros Hwait Hwf.
  destruct (findSlotMapWithId id (signal st)) as [r|] eqn:Hfind.
  - destruct (SlotMapRef_eqb r StrandSlots) eqn:Er.
    + apply SlotMapRef_eqb_eq in Er. subst r.
      pose proof (findSlotMapWithId_some _ _ _ Hfind) as Hin.
      cbn [slotsOf] in Hin.
      assert (Hth : StdMap.count id (strandThreads (signal st)) = true)
        by now rewrite (wf_thread_keys _ Hwf).
      assert (Hq : StdMap.count id (strandQueues (signal st)) = true)
        by now rewrite (wf_queue_keys _ Hwf).
      destruct (StdMap.count_find _ _ Hth) as [th Eth].
      destruct (StdMap.count_find _ _ Hq) as [q Eq].
      now rewrite (disconnectSlot_strand id st th q Hwait Hfind Eth
                     (wf_threads _ Hwf _ _ Eth) Eq (wf_queues _ Hwf _ _ Eq)).
    + rewrite (disconnectSlot_direct _ _ _ Hfind); [reflexivity|].
      intros ->. discriminate.
  - now rewrite (disconnectSlot_unknown _ _ Hfind).
Qed.

(** X15: in every state the engine can be in, with a maximum wait not
    below the minimum, [disconnectSlot] returns, whatever the id: it does not
    wait for ever for a listener and it joins no thread that is not there.
    The state it leaves is again one in which this holds. *)
Theorem disconnect_returns st id :
  minWait <= maxWait ->
  reachable st ->
  outcome (disconnectSlot id st) = Returns tt /\
  wf (signal (final (disconnectSlot id st))).
Proof.
  intros Hwait Hreach. pose proof (reachable_wf _ Hreach) as Hwf.
  pose proof (disconnectSlot_returns st id Hwait Hwf) as Ho.
  split; [exact Ho | now apply disconnectSlot_wf].
Qed.

(** X16: in every state an engine reaches with fewer than [UINT32_MOD]
    calls of [connectSlot], whatever else was called in between,
    [connectSlot] returns for every scheme, and the id it takes is in none
    of the slot maps and the key of no strand thread. *)
Theorem connect_returns guard maxAsync h evs ids st scheme slot :
  performAll h (freshState guard maxAsync)
  = {| final := st; events := evs; outcome := Returns ids |} ->
  Z.of_nat (connects h) < UINT32_MOD ->
  outcome (connectSlot scheme slot st) = Returns (to_int (currentId (signal st))) /\
  (forall r, StdMap.count (currentId (signal st)) (slotsOf r (signal st)) = false) /\
  StdMap.count (currentId (signal st)) (strandThreads (signal st)) = false.
Proof.
  intros Hrun Hlt.
  assert (Hwf : wf (signal st)).
  { apply (reachableFrom_wf guard maxAsync). now exists h, evs, ids. }
  assert (Hk : keysBelowCounter (signal st)).
  { replace st with (final (performAll h (freshState guard maxAsync)))
      by now rewrite Hrun.
    apply (performAll_keysBelow h _ ids).
    - now rewrite Hrun.
    - intros k [] r' H; discriminate.
    - intros [] k H; discriminate.
    - cbn. lia.
    - cbn [signal freshState newSignal currentId]. lia. }
  assert (Hfree : forall r,
            StdMap.count (currentId (signal st)) (slotsOf r (signal st)) = false).
  { intros r.
    destruct (StdMap.count (currentId (signal st)) (slotsOf r (signal st))) eqn:E;
      [|reflexivity].
    specialize (Hk _ _ E). lia. }
  assert (Hth : StdMap.count (currentId (signal st)) (strandThreads (signal st))
                = false)
    by (rewrite (wf_thread_keys _ Hwf); apply (Hfree StrandSlots)).
  split; [|split; assumption].
  destruct (getSlotMap_cases scheme) as [[-> _]|[[-> _]|(H2 & H3 & _)]].
  - now rewrite (connectSlot_strand _ _ Hth).
  - now rewrite connectSlot_pooled.
  - now rewrite (connectSlot_plain _ _ _ H2 H3).
Qed.

(** ** The listener and the rest of the object *)

Lemma listenerRuns_preserves_slotMaps id : preserves slotMaps (listenerRuns id).
Proof. frame_solve. Qed.

Lemma listenerRuns_final id st :
  final (listenerRuns id st) = st \/
  exists th q, final (listenerRuns id st)
               = {| signal := withStrand id th q (signal st); pool := pool st |}.
Proof.
  destruct (StdMap.find id (strandThreads (signal st))) as [[|func w pc]|] eqn:Et;
    try (left; unfold listenerRuns, bind; cbn; rewrite Et; reflexivity).
  destruct (StdMap.find id (strandQueues (signal st))) as [q|] eqn:Eq;
    [|left; unfold listenerRuns, bind; cbn; rewrite Et, Eq; reflexivity].
  rewrite (listenerRuns_step _ _ _ _ _ _ Et Eq).
  destruct (queueListener id func w pc q) as [[[th' q'] evs]|];
    [right; now exists th', q' | now left].
Qed.

(** X17: a transition of the listener of strand [id], from whatever
    state, changes nothing but the local variables of that listener and the
    queue of that strand: the slot maps, the counter, the semaphore, the
    detached threads and the pool are as before, no thread and no queue is
    added or removed, and the listeners and queues of the other strands are
    as before. *)
Theorem listener_is_confined id st :
  slotMaps (final (listenerRuns id st)) = slotMaps st /\
  besidesStrands (final (listenerRuns id st)) = besidesStrands st /\
  (forall id',
     StdMap.count id' (strandThreads (signal (final (listenerRuns id st))))
     = StdMap.count id' (strandThreads (signal st)) /\
     StdMap.count id' (strandQueues (signal (final (listenerRuns id st))))
     = StdMap.count id' (strandQueues (signal st))) /\
  (forall id', id' <> id ->
     StdMap.find id' (strandThreads (signal (final (listenerRuns id st))))
     = StdMap.find id' (strandThreads (signal st)) /\
     StdMap.find id' (strandQueues (signal (final (listenerRuns id st))))
     = StdMap.find id' (strandQueues (signal st))).
Proof.
  split; [apply listenerRuns_preserves_slotMaps|].
  split; [apply listenerRuns_preserves_besidesStrands|].
  destruct (listenerRuns_final id st) as [->|(th & q & ->)].
  - split; intros; split; reflexivity.
  - cbn [signal]. split.
    + intros id'. destruct (signal st). unfold withStrand. cbn.
      unfold MPSCQueue, Task in *. now rewrite !StdMap.count_update.
    + intros id' Hne. split.
      * now apply withStrand_find_thread_other.
      * now apply withStrand_find_queue_other.
Qed.

(** ** Histories that go on *)

Lemma performAll_snoc h a : forall st0 st evs ids ids',
  performAll h st0 = {| final := st; events := evs; outcome := Returns ids |} ->
  outcome (perform a st) = Returns ids' ->
  exists evs' ids'',
    performAll (h ++ [a]) st0
    = {| final := final (perform a st); events := evs'; outcome := Returns ids'' |}.
Proof.
  induction h as [|b h IH]; intros st0 st evs ids ids' Hrun Ha.
  - injection Hrun as <- _ _. cbn [app performAll].
    rewrite (bind_returns _ _ _ _ Ha). unfold bind, ret.
    cbn [final events outcome]. eauto.
  - cbn [app performAll] in *.
    assert (Ho : outcome ((ids0 <- perform b;; ids1 <- performAll h;; ret (ids0 ++ ids1)) st0)
                 = Returns ids) by now rewrite Hrun.
    destruct (bind_outcome_returns _ _ _ _ Ho) as (i1 & Ho1 & Ho').
    destruct (bind_outcome_returns _ _ _ _ Ho') as (i2 & Ho2 & _).
    assert (Hfin : final (performAll h (final (perform b st0))) = st).
    { rewrite (bind_returns _ _ _ _ Ho1) in Hrun. cbn [final] in Hrun.
      rewrite (bind_returns _ _ _ _ Ho2) in Hrun. cbn [final ret] in Hrun.
      now injection Hrun as Hf _ _. }
    destruct (IH (final (perform b st0)) st
                (events (performAll h (final (perform b st0)))) i2 ids')
      as (evs' & ids'' & Hrun'); [|exact Ha|].
    { destruct (performAll h (final (perform b st0))) as [f e o].
      cbn [final events outcome] in *. now subst. }
    assert (Ho3 : outcome (performAll (h ++ [a]) (final (perform b st0)))
                  = Returns ids'') by now rewrite Hrun'.
    rewrite (bind_returns _ _ _ _ Ho1). cbn [final events outcome].
    rewrite (bind_returns _ _ _ _ Ho3). cbn [final events outcome ret].
    rewrite Hrun'. cbn [final]. eauto.
Qed.

Lemma reachableFrom_step guard maxAsync st a ids :
  reachableFrom guard maxAsync st ->
  outcome (perform a st) = Returns ids ->
  reachableFrom guard maxAsync (final (perform a st)).
Proof.
  intros (h & evs & ids0 & Hrun) Ha.
  destruct (performAll_snoc h a _ _ _ _ _ Hrun Ha) as (evs' & ids' & Hrun').
  now exists (h ++ [a]), evs', ids'.
Qed.

Lemma reachableFrom_connect guard maxAsync st scheme slot id :
  reachableFrom guard maxAsync st ->
  outcome (connectSlot scheme slot st) = Returns id ->
  reachableFrom guard maxAsync (final (connectSlot scheme slot st)).
Proof.
  intros Hreach Ho.
  rewrite <- (final_bind_ret (connectSlot scheme slot) (fun id => [id]) st).
  apply (reachableFrom_step _ _ _ (Connect scheme slot) [id] Hreach).
  cbn [perform]. now rewrite (bind_returns _ _ _ _ Ho).
Qed.

Lemma reachableFrom_disconnect guard maxAsync st id :
  reachableFrom guard maxAsync st ->
  0 <= id < UINT32_MOD ->
  outcome (disconnectSlot id st) = Returns tt ->
  reachableFrom guard maxAsync (final (disconnectSlot id st)).
Proof.
  intros Hreach Hid Ho.
  assert (Hp : perform (Disconnect id) st = (disconnectSlot id ;; ret []) st)
    by (cbn [perform]; now rewrite (wrap32_small id Hid)).
  pose proof (reachableFrom_step _ _ _ (Disconnect id) [] Hreach) as H.
  rewrite Hp, final_bind_ret in H. apply H.
  now rewrite (bind_returns _ _ _ _ Ho).
Qed.

(** ** Connecting, disconnecting and the next emission *)

Lemma In_dispatchEvents r id f p s :
  In (id, f) (slotsOf r s) -> In (dispatchOf r id f p) (dispatchEvents p s).
Proof.
  intros Hin. unfold dispatchEvents. rewrite !in_app_iff.
  destruct r; cbn [slotsOf dispatchOf] in *.
  - left. unfold syncEvents.
    apply (in_map (fun kv => EvInvoke Caller (snd kv) p) _ _ Hin).
  - right. left. unfold asyncEvents. apply in_flat_map.
    exists (id, f). split; [exact Hin | right; now left].
  - right. right. left. unfold strandEvents.
    apply (in_map (fun kv => EvEnqueue (fst kv) (Some (Bound (snd kv) p))) _ _ Hin).
  - right. right. right. unfold pooledEvents.
    apply (in_map (fun kv => EvPoolRun (Bound (snd kv) p)) _ _ Hin).
Qed.

Lemma emitSignal_reaches guard maxAsync st p r id f :
  0 < maxAsync ->
  reachableFrom guard maxAsync st ->
  StdMap.find id (slotsOf r (signal st)) = Some f ->
  outcome (emitSignal p st) = Returns tt /\
  In (dispatchOf r id f p) (events (emitSignal p st)).
Proof.
  intros Hcap Hreach Hfind.
  destruct (emitSignal_dispatch guard maxAsync st p (or_intror Hcap) Hreach)
    as (Ho & Hev & _).
  split; [exact Ho|].
  apply (proj1 (filter_In byCaller _ _)). rewrite Hev.
  apply In_dispatchEvents, StdMap.find_In, Hfind.
Qed.

(** X18: on an engine built for at least one detached thread, after a
    [connectSlot] that took an id in none of the slot maps, the next
    emission returns and dispatches the new slot with the emitted arguments,
    as its scheme has it: called by the emitting thread, spawned on a
    detached thread, put on the queue of its strand, or handed to the pool.
    The slots registered before are dispatched as well. *)
Theorem connect_then_emit guard maxAsync st scheme slot id p :
  0 < maxAsync ->
  reachableFrom guard maxAsync st ->
  (forall r, StdMap.count (currentId (signal st)) (slotsOf r (signal st)) = false) ->
  outcome (connectSlot scheme slot st) = Returns id ->
  outcome (emitSignal p (final (connectSlot scheme slot st))) = Returns tt /\
  In (dispatchOf (getSlotMap scheme) (currentId (signal st)) slot p)
     (events (emitSignal p (final (connectSlot scheme slot st)))) /\
  (forall r k f,
     StdMap.find k (slotsOf r (signal st)) = Some f ->
     In (dispatchOf r k f p)
        (events (emitSignal p (final (connectSlot scheme slot st))))).
Proof.
  intros Hcap Hreach Hfree Ho.
  pose proof (reachableFrom_connect _ _ _ _ _ _ Hreach Ho) as Hreach'.
  pose proof (reachableFrom_wf _ _ _ Hreach) as Hwf.
  assert (Hnew : StdMap.find (currentId (signal st))
                   (slotsOf (getSlotMap scheme)
                      (signal (final (connectSlot scheme slot st))))
                 = Some slot).
  { rewrite connectSlot_slotsOf, slotsOf_registered.
    rewrite (proj2 (SlotMapRef_eqb_eq _ _) eq_refl).
    apply StdMap.find_emplace_same, Hfree. }
  split; [|split].
  - exact (proj1 (emitSignal_reaches _ _ _ p _ _ _ Hcap Hreach' Hnew)).
  - exact (proj2 (emitSignal_reaches _ _ _ p _ _ _ Hcap Hreach' Hnew)).
  - intros r k f Hfind.
    refine (proj2 (emitSignal_reaches guard maxAsync _ p r k f Hcap Hreach' _)).
    rewrite connectSlot_slotsOf, slotsOf_registered.
    destruct (SlotMapRef_eqb r (getSlotMap scheme)) eqn:Er; [|exact Hfind].
    apply SlotMapRef_eqb_eq in Er. subst r.
    rewrite StdMap.find_emplace_other; [exact Hfind|].
    intros ->. apply StdMap.find_some_count in Hfind.
    rewrite Hfree in Hfind. discriminate.
Qed.

(** X19: on an engine built for at least one detached thread, with a
    maximum wait not below the minimum and no id in two slot maps: after
    [disconnectSlot] of an id, which returns, the id is in none of the slot
    maps; the next emission returns, dispatches exactly the slots that are
    left, puts nothing on a queue of that id, and still dispatches every slot
    registered under another id. *)
Theorem disconnect_then_emit guard maxAsync st id p :
  minWait <= maxWait ->
  0 < maxAsync ->
  reachableFrom guard maxAsync st ->
  0 <= id < UINT32_MOD ->
  slotsDisjoint (signal st) ->
  outcome (disconnectSlot id st) = Returns tt /\
  (forall r,
     StdMap.count id (slotsOf r (signal (final (disconnectSlot id st)))) = false) /\
  outcome (emitSignal p (final (disconnectSlot id st))) = Returns tt /\
  filter byCaller (events (emitSignal p (final (disconnectSlot id st))))
  = dispatchEvents p (signal (final (disconnectSlot id st))) /\
  (forall t,
     ~ In (EvEnqueue id t) (events (emitSignal p (final (disconnectSlot id st))))) /\
  (forall r k f,
     k <> id ->
     StdMap.find k (slotsOf r (signal st)) = Some f ->
     In (dispatchOf r k f p)
        (events (emitSignal p (final (disconnectSlot id st))))).
Proof.
  intros Hwait Hcap Hreach Hid Hdisj.
  pose proof (reachableFrom_wf _ _ _ Hreach) as Hwf.
  pose proof (disconnectSlot_returns st id Hwait Hwf) as Ho.
  pose proof (reachableFrom_disconnect _ _ _ _ Hreach Hid Ho) as Hreach'.
  pose proof (proj1 (findSlotMapWithId_none _ _)
                (disconnectSlot_absent_after _ _ Hdisj Ho)) as Habsent.
  destruct (emitSignal_dispatch guard maxAsync _ p (or_intror Hcap) Hreach')
    as (Hret & Hev & _).
  split; [exact Ho|]. split; [exact Habsent|]. split; [exact Hret|].
  split; [exact Hev|]. split.
  - intros t Hin.
    assert (Hin' : In (EvEnqueue id t)
                     (filter byCaller
                        (events (emitSignal p (final (disconnectSlot id st))))))
      by (apply filter_In; split; [exact Hin | reflexivity]).
    rewrite Hev in Hin'. unfold dispatchEvents in Hin'.
    rewrite !in_app_iff in Hin'. destruct Hin' as [H|[H|[H|H]]].
    + apply in_map_iff in H. destruct H as (x & Hx & _). discriminate.
    + apply in_flat_map in H. destruct H as (x & _ & [Hx|[Hx|[]]]); discriminate.
    + apply in_map_iff in H. destruct H as ([k f] & Hx & Hkf).
      cbn [fst snd] in Hx. injection Hx as -> _.
      pose proof (In_count _ _ _ Hkf) as Hc.
      pose proof (Habsent StrandSlots) as Hn. cbn [slotsOf] in Hn. congruence.
    + apply in_map_iff in H. destruct H as (x & Hx & _). discriminate.
  - intros r k f Hne Hfind.
    refine (proj2 (emitSignal_reaches guard maxAsync _ p r k f Hcap Hreach' _)).
    destruct (findSlotMapWithId id (signal st)) as [r0|] eqn:Hfound.
    + destruct (disconnectSlot_slots _ _ _ Hfound Ho) as [Hr0 Hother].
      destruct (SlotMapRef_eqb r r0) eqn:Er.
      * apply SlotMapRef_eqb_eq in Er. subst r0.
        now rewrite Hr0, StdMap.find_erase_other.
      * rewrite Hother; [exact Hfind|].
        intros ->. rewrite (proj2 (SlotMapRef_eqb_eq _ _) eq_refl) in Er.
        discriminate.
    + now rewrite (disconnectSlot_unknown _ _ Hfound).
Qed.

(** ** Beyond the range of the counter *)

Lemma performAll_cons_run a h st st2 ids1 :
  outcome (perform a st) = Returns ids1 ->
  (exists evs ids,
     performAll h (final (perform a st))
     = {| final := st2; events := evs; outcome := Returns ids |}) ->
  exists evs ids,
    performAll (a :: h) st
    = {| final := st2; events := evs; outcome := Returns ids |}.
Proof.
  intros Ho (evs & ids & Hrun). cbn [performAll].
  rewrite (bind_returns _ _ _ _ Ho).
  unfold bind at 1 2 3. rewrite Hrun. cbn [final events outcome ret].
  eauto.
Qed.

Lemma set_currentId_twice a b (s : SignalImpl) :
  set_currentId a (set_currentId b s) = set_currentId a s.
Proof. reflexivity. Qed.

Lemma connectDisconnect_round slot st :
  (forall r, StdMap.count (currentId (signal st)) (slotsOf r (signal st)) = false) ->
  0 <= currentId (signal st) < UINT32_MOD ->
  exists ids1 ids2,
    outcome (perform (Connect SYNCHRONOUS slot) st) = Returns ids1 /\
    outcome (perform (Disconnect (to_int (currentId (signal st))))
               (final (perform (Connect SYNCHRONOUS slot) st))) = Returns ids2 /\
    final (perform (Disconnect (to_int (currentId (signal st))))
             (final (perform (Connect SYNCHRONOUS slot) st)))
    = {| signal := set_currentId (wrap32 (currentId (signal st) + 1)) (signal st);
         pool := pool st |}.
Proof.
  intros Hfree Hc.
  assert (Hcon : connectSlot SYNCHRONOUS slot st
                 = {| final := {| signal := registered SynchronousSlots
                                              (currentId (signal st)) slot (signal st);
                                  pool := pool st |};
                      events := [];
                      outcome := Returns (to_int (currentId (signal st))) |}).
  { apply (connectSlot_plain SYNCHRONOUS);
      unfold SYNCHRONOUS, STRAND, THREAD_POOLED; lia. }
  exists [to_int (currentId (signal st))], [].
  cbn [perform]. rewrite (wrap32_to_int _ Hc).
  rewrite (bind_returns _ _ st (to_int (currentId (signal st))))
    by now rewrite Hcon.
  rewrite Hcon. cbn [final events outcome ret].
  split; [reflexivity|].
  rewrite (bind_returns _ _ _ tt)
    by (rewrite (disconnectSlot_direct _ _ SynchronousSlots);
        [reflexivity | now apply findSlotMapWithId_registered | discriminate]).
  rewrite (disconnectSlot_direct _ _ SynchronousSlots);
    [| now apply findSlotMapWithId_registered | discriminate].
  cbn [final events outcome ret signal pool].
  split; [reflexivity|].
  now rewrite erase_registered by apply Hfree.
Qed.

Lemma connectDisconnect_run slot : forall n c st,
  currentId (signal st) = c ->
  0 <= c < UINT32_MOD ->
  c + Z.of_nat n <= UINT32_MOD ->
  (forall k, c <= k < c + Z.of_nat n ->
     forall r, StdMap.count k (slotsOf r (signal st)) = false) ->
  exists evs ids,
    performAll (connectDisconnect slot c n) st
    = {| final := {| signal := set_currentId (wrap32 (c + Z.of_nat n)) (signal st);
                     pool := pool st |};
         events := evs; outcome := Returns ids |}.
Proof.
  induction n as [|n IH]; intros c st Hcur Hc Hle Hfree.
  - exists [], []. cbn [connectDisconnect performAll]. unfold ret.
    rewrite Z.add_0_r, wrap32_small by exact Hc.
    subst c. destruct st as [[] ?]. reflexivity.
  - cbn [connectDisconnect].
    destruct (connectDisconnect_round slot st) as (ids1 & ids2 & Ho1 & Ho2 & Hfin).
    { intros r. apply Hfree. lia. }
    { now rewrite Hcur. }
    rewrite Hcur in Ho2, Hfin.
    apply (performAll_cons_run _ _ _ _ ids1 Ho1).
    apply (performAll_cons_run _ _ _ _ ids2 Ho2).
    rewrite Hfin.
    destruct n as [|n].
    + exists [], []. cbn [connectDisconnect performAll]. unfold ret.
      reflexivity.
    + assert (Hnext : wrap32 (c + 1) = c + 1) by (apply wrap32_small; lia).
      destruct (IH (wrap32 (c + 1))
                  {| signal := set_currentId (wrap32 (c + 1)) (signal st);
                     pool := pool st |})
        as (evs & ids & Hrun).
      * reflexivity.
      * rewrite Hnext. lia.
      * rewrite Hnext. lia.
      * intros k Hk r. rewrite Hnext in Hk.
        replace (slotsOf r (signal {| signal := set_currentId (wrap32 (c + 1)) (signal st);
                                      pool := pool st |}))
          with (slotsOf r (signal st)) by (destruct r; reflexivity).
        apply Hfree. lia.
      * exists evs, ids. rewrite Hrun. cbn [signal pool].
        rewrite set_currentId_twice, Hnext.
        replace (c + 1 + Z.of_nat (S n)) with (c + Z.of_nat (S (S n))) by lia.
        reflexivity.
Qed.

(** A strand is connected on a new engine, then a synchronous slot is
    connected and disconnected [UINT32_MOD - 1] times: every call returns,
    the counter is at 0 again, and the strand is as it was connected. *)
Lemma strand_kept_through_wrap guard maxAsync a b :
  exists evs ids,
    performAll
      (Connect STRAND a :: connectDisconnect b 1 (Z.to_nat (UINT32_MOD - 1)))
      (freshState guard maxAsync)
    = {| final :=
           {| signal := set_currentId 0
                          (withNewStrand 0
                             (registered StrandSlots 0 a (newSignal guard maxAsync)));
              pool := newPool |};
         events := evs; outcome := Returns ids |}.
Proof.
  set (n := Z.to_nat (UINT32_MOD - 1)).
  assert (Hn : Z.of_nat n = UINT32_MOD - 1)
    by (subst n; apply Z2Nat.id; unfold UINT32_MOD; lia).
  clearbody n.
  set (st1 := {| signal := withNewStrand 0
                             (registered StrandSlots 0 a (newSignal guard maxAsync));
                 pool := newPool |}).
  pose proof (connectSlot_strand a (freshState guard maxAsync) eq_refl) as Hcon.
  assert (Hfin : final (perform (Connect STRAND a) (freshState guard maxAsync)) = st1).
  { cbn [perform]. rewrite final_bind_ret, Hcon. reflexivity. }
  assert (Ho : outcome (perform (Connect STRAND a) (freshState guard maxAsync))
               = Returns [to_int 0]).
  { cbn [perform]. rewrite (bind_returns _ _ _ (to_int 0)) by now rewrite Hcon.
    reflexivity. }
  destruct (connectDisconnect_run b n 1 st1) as (evs & ids & Hrun).
  - reflexivity.
  - unfold UINT32_MOD. lia.
  - rewrite Hn. lia.
  - intros k Hk r. subst st1. destruct r; cbn; try reflexivity.
    unfold StdMap.count. cbn. destruct k; [lia | reflexivity | reflexivity].
  - assert (Hzero : wrap32 (1 + Z.of_nat n) = 0).
    { rewrite Hn. replace (1 + (UINT32_MOD - 1)) with UINT32_MOD by ring.
      unfold wrap32. apply Z_mod_same_full. }
    rewrite Hzero in Hrun.
    apply (performAll_cons_run _ (connectDisconnect b 1 n) _ _ _ Ho).
    rewrite Hfin. eauto.
Qed.

(** X20: [connectSlot] with [STRAND], when the id the counter gives is
    the key of a strand thread, does not return: the thread object just made
    is destroyed while joinable and the process is terminated.  An engine
    gets there: connect a strand, which takes id 0 on a new engine, then
    connect and disconnect a synchronous slot [UINT32_MOD - 1] times; the
    counter is at 0 again, and the strand still has its thread. *)
Theorem strand_connect_after_wrap :
  (forall slot st,
     StdMap.count (currentId (signal st)) (strandThreads (signal st)) = true ->
     outcome (connectSlot STRAND slot st) = Stops Terminate) /\
  (forall guard maxAsync a b,
     exists st evs ids,
       performAll
         (Connect STRAND a :: connectDisconnect b 1 (Z.to_nat (UINT32_MOD - 1)))
         (freshState guard maxAsync)
       = {| final := st; events := evs; outcome := Returns ids |} /\
       currentId (signal st) = 0 /\
       StdMap.count 0 (strandThreads (signal st)) = true).
Proof.
  split.
  - intros slot st Htaken. destruct st as [s pl].
    unfold connectSlot, spawnListener, bind. cbn in *. rewrite Htaken.
    reflexivity.
  - intros guard maxAsync a b.
    destruct (strand_kept_through_wrap guard maxAsync a b) as (evs & ids & Hrun).
    eexists _, evs, ids. split; [exact Hrun|]. split; reflexivity.
Qed.

(** ** A strand behind a synchronous slot *)

(** After the history above the counter gives id 0 once more; a synchronous
    slot connected now is registered under the id of the strand.
    [disconnectSlot] of that id finds it in [synchronousSlots], erases it
    there and leaves the strand alone. *)
Lemma strand_shadowed_after_wrap guard maxAsync a b c :
  exists st evs ids,
    performAll
      (Connect STRAND a :: connectDisconnect b 1 (Z.to_nat (UINT32_MOD - 1)) ++
       [Connect SYNCHRONOUS c])
      (freshState guard maxAsync)
    = {| final := st; events := evs; outcome := Returns ids |} /\
    StdMap.count 0 (strandSlots (signal st)) = true /\
    disconnectSlot 0 st
    = {| final := {| signal := set_slotsOf SynchronousSlots [] (signal st);
                     pool := pool st |};
         events := [EvEraseSlot SynchronousSlots 0];
         outcome := Returns tt |} /\
    StdMap.count 0 (strandSlots (signal (final (disconnectSlot 0 st)))) = true /\
    StdMap.count 0 (strandThreads (signal (final (disconnectSlot 0 st)))) = true.
Proof.
  destruct (strand_kept_through_wrap guard maxAsync a b) as (evs & ids & Hrun).
  set (n := Z.to_nat (UINT32_MOD - 1)) in *. clearbody n.
  set (st0 := {| signal := set_currentId 0
                             (withNewStrand 0
                                (registered StrandSlots 0 a (newSignal guard maxAsync)));
                 pool := newPool |}) in *.
  assert (Hcon : connectSlot SYNCHRONOUS c st0
                 = {| final := {| signal := registered SynchronousSlots 0 c (signal st0);
                                  pool := newPool |};
                      events := [];
                      outcome := Returns (to_int 0) |}).
  { apply (connectSlot_plain SYNCHRONOUS);
      unfold SYNCHRONOUS, STRAND, THREAD_POOLED; lia. }
  assert (Ho : outcome (perform (Connect SYNCHRONOUS c) st0) = Returns [to_int 0]).
  { cbn [perform]. rewrite (bind_returns _ _ _ (to_int 0)) by now rewrite Hcon.
    reflexivity. }
  assert (Hfin : final (perform (Connect SYNCHRONOUS c) st0)
                 = {| signal := registered SynchronousSlots 0 c (signal st0);
                      pool := newPool |}).
  { cbn [perform]. rewrite final_bind_ret, Hcon. reflexivity. }
  destruct (performAll_snoc _ (Connect SYNCHRONOUS c) _ _ _ _ _ Hrun Ho)
    as (evs' & ids' & Hrun').
  rewrite Hfin in Hrun'.
  eexists _, evs', ids'. split; [exact Hrun'|].
  set (st := {| signal := registered SynchronousSlots 0 c (signal st0);
                pool := newPool |}).
  assert (Hdis : disconnectSlot 0 st
                 = {| final := {| signal := set_slotsOf SynchronousSlots []
                                              (signal st);
                                  pool := pool st |};
                      events := [EvEraseSlot SynchronousSlots 0];
                      outcome := Returns tt |}).
  { rewrite (disconnectSlot_direct 0 st SynchronousSlots);
      [reflexivity | reflexivity | discriminate]. }
  split; [reflexivity|]. split; [exact Hdis|].
  rewrite Hdis. split; reflexivity.
Qed.

End Engine.

Arguments Returns {A} a.
Arguments Stops {A} why.
Arguments final {Slot Args A} r.
Arguments events {Slot Args A} r.
Arguments outcome {Slot Args A} r.

(** * The engine at work

    An engine of slots named by numbers, emitting integers, with a maximum
    wait of a microsecond. *)

Module Example.

Definition maxWait : Z := 1000.

(** Five slots, one of each scheme and a second synchronous one. *)
Definition fiveSlots : list (@Action nat Z) :=
  [Connect SYNCHRONOUS 10%nat; Connect STRAND 11%nat;
   Connect ASYNCHRONOUS 12%nat; Connect THREAD_POOLED 13%nat;
   Connect SYNCHRONOUS 14%nat].

Definition afterFiveSlots : Run (list Z) :=
  Eval vm_compute in performAll maxWait fiveSlots (freshState false 2).

(** A strand with two tasks waiting. *)
Definition oneStrand : list (@Action nat Z) :=
  [Connect SYNCHRONOUS 10%nat; Connect STRAND 11%nat; Emit 5; Emit 6].

Definition afterOneStrand : Run (list Z) :=
  Eval vm_compute in performAll maxWait oneStrand (freshState false 2).

Lemma afterFiveSlots_reachable :
  reachableFrom maxWait false 2 (final afterFiveSlots).
Proof. exists fiveSlots, (events afterFiveSlots), [0; 1; 2; 3; 4]. reflexivity. Qed.

Lemma afterOneStrand_reachable : reachable maxWait (final afterOneStrand).
Proof.
  exists false, 2. split; [unfold UINT32_MOD; lia|].
  exists oneStrand, (events afterOneStrand), [0; 1]. reflexivity.
Qed.

Lemma emit_dispatch_order_witness :
  filter byCaller (events (emitSignal 5 (final afterFiveSlots)))
  = [EvInvoke Caller 10%nat 5; EvInvoke Caller 14%nat 5;
     EvSemAcquire; EvSpawnDetached 12%nat 5;
     EvEnqueue 1 (Some (Bound 11%nat 5)); EvPoolRun (Bound 13%nat 5)].
Proof.
  refine (proj1 (proj2 (emit_dispatch_order maxWait false 2
                          (final afterFiveSlots) 5 _ _))).
  - right. reflexivity.
  - exact afterFiveSlots_reachable.
Defined.

Lemma connect_ids_until_wrap_witness :
  StronglySorted Z.lt [0; 1; 2; 3; 4] /\ NoDup [0; 1; 2; 3; 4].
Proof.
  destruct (connect_ids_until_wrap maxWait false 2 fiveSlots) as [_ H].
  destruct (H [0; 1; 2; 3; 4] eq_refl) as [Hsorted Hnodup]. split.
  - apply Hsorted. vm_compute. discriminate.
  - apply Hnodup. vm_compute. discriminate.
Defined.

Lemma strand_disconnect_handshake_witness :
  events (disconnectSlot maxWait 1 (final afterOneStrand))
  = [EvEnqueue 1 None;
     EvInvoke (StrandThread 1) 11%nat 5; EvInvoke (StrandThread 1) 11%nat 6;
     EvListenerExit 1; EvJoin 1;
     EvEraseThread 1; EvEraseQueue 1; EvEraseSlot StrandSlots 1].
Proof.
  destruct (strand_disconnect_handshake maxWait (final afterOneStrand))
    as [H _].
  - vm_compute. discriminate.
  - exact afterOneStrand_reachable.
  - rewrite (H 1 eq_refl). reflexivity.
Defined.

Lemma listener_loop_rounds_witness :
  listen (Slot := nat) (Args := Z) maxWait 2 7
    (Listener (Some NopLambda) 1 AtLoopTest) [Some (Bound 11%nat 5)]
  = (Listener (Some (Bound 11%nat 5)) 1 AtLoopTest, [],
     [EvInvoke (StrandThread 7) 11%nat 5]).
Proof.
  refine (proj1 (listener_loop_rounds maxWait 7 NopLambda 1 [] _) (Bound 11%nat 5)).
  vm_compute. discriminate.
Defined.

Lemma asynchronous_dispatch_witness :
  filter isAsyncDispatch (events (emitSignal 5 (final afterFiveSlots)))
  = [EvSemAcquire; EvSpawnDetached 12%nat 5].
Proof.
  refine (proj1 (proj1 (proj2 (asynchronous_dispatch maxWait false 2
                                 (final afterFiveSlots) _ _)) 5)).
  - reflexivity.
  - exact afterFiveSlots_reachable.
Defined.

Lemma shutdown_entry_is_exclusive_witness :
  Forall (fun t : option (@Closure nat Z) => t <> None)
    [Some (Bound 11%nat 5); Some (Bound 11%nat 6)].
Proof.
  exact (proj1 (shutdown_entry_is_exclusive maxWait) (final afterOneStrand)
           afterOneStrand_reachable 1 _ eq_refl).
Defined.

Lemma disconnect_unknown_is_noop_witness :
  disconnectSlot maxWait 99 (final afterFiveSlots)
  = {| final := final afterFiveSlots; events := []; outcome := Returns tt |} /\
  disconnectSlot maxWait 1
    (final (disconnectSlot maxWait 1 (final afterFiveSlots)))
  = {| final := final (disconnectSlot maxWait 1 (final afterFiveSlots));
       events := []; outcome := Returns tt |}.
Proof.
  split.
  - exact (proj1 (disconnect_unknown_is_noop maxWait 99 (final afterFiveSlots))
             eq_refl).
  - destruct (disconnect_unknown_is_noop maxWait 1 (final afterFiveSlots))
      as (_ & Htwice & Hdisjoint).
    apply Htwice; [|reflexivity].
    apply (Hdisjoint false 2 fiveSlots (events afterFiveSlots) [0; 1; 2; 3; 4]
             eq_refl).
    vm_compute. discriminate.
Defined.

Definition twoEngines : list (@SignalImpl nat Z) := [defaultSignal; defaultSignal].

Definition pooledOnBoth : list (nat * ExecutorScheme * nat) :=
  [(0%nat, THREAD_POOLED, 13%nat); (1%nat, SYNCHRONOUS, 10%nat);
   (1%nat, THREAD_POOLED, 14%nat)].

Lemma pool_started_once_witness :
  length (filter isPoolStartup
            (snd (fst (connectMany pooledOnBoth
                         {| engines := twoEngines; sharedPool := newPool |}))))
  = 2%nat /\
  poolStartups
    (sharedPool (fst (fst (connectMany pooledOnBoth
                             {| engines := twoEngines; sharedPool := newPool |}))))
  = 1%nat.
Proof.
  destruct (pool_started_once pooledOnBoth twoEngines) as (_ & _ & _ & H).
  destruct (H eq_refl) as [Hcalls Hstart]. split.
  - exact Hcalls.
  - apply Hstart. vm_compute. discriminate.
Defined.

Lemma connect_unnamed_scheme_witness :
  connectSlot 7 15%nat (final afterFiveSlots)
  = connectSlot SYNCHRONOUS 15%nat (final afterFiveSlots) /\
  In (EvInvoke Caller 15%nat 5)
     (events (emitSignal 5 (final (connectSlot 7 15%nat (final afterFiveSlots))))).
Proof.
  destruct (connect_unnamed_scheme 7 15%nat (final afterFiveSlots))
    as (_ & Hsame & _ & _ & Hreg); try (vm_compute; discriminate).
  split; [exact Hsame|]. exact (proj2 (Hreg eq_refl) 5).
Defined.

End Example.

(** * Where the id counter leaves its range *)

(** C2 fails as stated.  On a new engine, connect a slot and disconnect
    everything, again and again: the [INT32_MAX + 2]-th [connectSlot] returns
    a negative id, below the one before it, and the [UINT32_MOD + 1]-th
    returns 0, the id of the first. *)
Lemma connect_ids_wrap :
  (exists ids,
     outcome (performAll (Slot := unit) (Args := unit) 1000
                (churn tt (Z.to_nat (INT32_MAX + 2)))
                (freshState false 1024)) = Returns ids /\
     ~ StronglySorted Z.lt ids) /\
  (exists ids,
     outcome (performAll (Slot := unit) (Args := unit) 1000
                (churn tt (Z.to_nat (UINT32_MOD + 1)))
                (freshState false 1024)) = Returns ids /\
     ~ NoDup ids).
Proof.
  split.
  - destruct (churn_returns (Args := unit) 1000 tt
                (Z.to_nat (INT32_MAX + 2)) (freshState false 1024)
                eq_refl eq_refl) as [ids Hids].
    exists ids. split; [exact Hids|].
    apply (proj1 (ids_past_the_range 1000 tt false 1024 _ ids Hids)).
    apply Z2Nat.id. unfold INT32_MAX. lia.
  - destruct (churn_returns (Args := unit) 1000 tt
                (Z.to_nat (UINT32_MOD + 1)) (freshState false 1024)
                eq_refl eq_refl) as [ids Hids].
    exists ids. split; [exact Hids|].
    apply (proj2 (ids_past_the_range 1000 tt false 1024 _ ids Hids)).
    apply Z2Nat.id. unfold UINT32_MOD. lia.
Qed.

(** C3 fails as stated.  On a new engine, connect a strand, which takes id
    0, then connect and disconnect a synchronous slot [UINT32_MOD - 1] times,
    then connect a synchronous slot, which takes id 0 again.  The id is
    registered in [strandSlots], yet [disconnectSlot] of it puts no shutdown
    entry on the queue of the strand and joins nothing: it erases the
    synchronous slot, and the strand keeps its registration and its thread. *)
Lemma strand_disconnect_after_wrap :
  exists (st : @State nat Z) evs ids,
    performAll 1000
      (Connect STRAND 11%nat ::
       connectDisconnect 10%nat 1 (Z.to_nat (UINT32_MOD - 1)) ++
       [Connect SYNCHRONOUS 12%nat])
      (freshState false 1024)
    = {| final := st; events := evs; outcome := Returns ids |} /\
    StdMap.count 0 (strandSlots (signal st)) = true /\
    disconnectSlot 1000 0 st
    = {| final := {| signal := set_slotsOf SynchronousSlots [] (signal st);
                     pool := pool st |};
         events := [EvEraseSlot SynchronousSlots 0];
         outcome := Returns tt |} /\
    StdMap.count 0 (strandSlots (signal (final (disconnectSlot 1000 0 st)))) = true /\
    StdMap.count 0 (strandThreads (signal (final (disconnectSlot 1000 0 st)))) = true.
Proof.
  destruct (strand_shadowed_after_wrap (Args := Z) 1000 false 1024
              11%nat 10%nat 12%nat)
    as (st & evs & ids & Hrun & Hreg & Hdis & Hslot & Hthread).
  exists st, evs, ids.
  exact (conj Hrun (conj Hreg (conj Hdis (conj Hslot Hthread)))).
Qed.

(** * More of the engine at work *)

Module MoreExamples.

(** An engine built for no detached thread, with an asynchronous slot. *)
Definition noCapacity : list (@Action nat Z) :=
  [Connect SYNCHRONOUS 10%nat; Connect ASYNCHRONOUS 12%nat].

Definition afterNoCapacity : Run (list Z) :=
  Eval vm_compute in performAll Example.maxWait noCapacity (freshState false 0).

Lemma afterNoCapacity_reachable :
  reachableFrom Example.maxWait false 0 (final afterNoCapacity).
Proof. exists noCapacity, (events afterNoCapacity), [0; 1]. reflexivity. Qed.

Lemma afterFiveSlots_run :
  performAll Example.maxWait Example.fiveSlots (freshState false 2)
  = {| final := final Example.afterFiveSlots;
       events := events Example.afterFiveSlots;
       outcome := Returns [0; 1; 2; 3; 4] |}.
Proof. reflexivity. Qed.

Lemma afterFiveSlots_in_reach : reachable Example.maxWait (final Example.afterFiveSlots).
Proof.
  exists false, 2. split; [unfold UINT32_MOD; lia|].
  exact Example.afterFiveSlots_reachable.
Qed.

Lemma idle_listener_backs_off_witness :
  exists k,
    (0 < k)%nat /\
    Example.maxWait < 1 * 2 ^ Z.of_nat k /\
    (forall j, (0 < j < k)%nat -> 1 * 2 ^ Z.of_nat j <= Example.maxWait) /\
    forall fuel, (2 * k <= fuel)%nat ->
      listen (Slot := nat) (Args := Z) Example.maxWait fuel 7
        (Listener (Some NopLambda) 1 AtLoopTest) []
      = (Listener (Some NopLambda) (1 * 2 ^ Z.of_nat k) AtMaxCheck, [],
         sleeps 7 1 k).
Proof.
  apply (idle_listener_backs_off (Slot := nat) (Args := Z) Example.maxWait 7
           NopLambda 1).
  lia.
Defined.

Lemma strand_resources_in_step_witness :
  StdMap.count 1 (strandThreads (signal (final Example.afterOneStrand)))
  = StdMap.count 1 (strandSlots (signal (final Example.afterOneStrand))) /\
  StdMap.count 1 (strandQueues (signal (final Example.afterOneStrand)))
  = StdMap.count 1 (strandSlots (signal (final Example.afterOneStrand))).
Proof.
  exact (proj1 (strand_resources_in_step Example.maxWait
                  (final Example.afterOneStrand)
                  Example.afterOneStrand_reachable) 1).
Defined.

Lemma semaphore_counts_detached_witness :
  0 <= semCounter (sem (signal (final Example.afterFiveSlots))) <= 2.
Proof.
  refine (proj1 (semaphore_counts_detached Example.maxWait false 2
                   (final Example.afterFiveSlots) _ _)).
  - lia.
  - exact Example.afterFiveSlots_reachable.
Defined.

Lemma emit_without_slots_witness :
  emitSignal (Slot := nat) 5 (freshState false 2)
  = {| final := freshState false 2; events := []; outcome := Returns tt |}.
Proof.
  apply (emit_without_slots (Slot := nat) 5 (freshState false 2)).
  intros []; reflexivity.
Defined.

Lemma emit_blocks_without_capacity_witness :
  emitSignal 5 (final afterNoCapacity)
  = {| final := final afterNoCapacity;
       events := [EvInvoke Caller 10%nat 5];
       outcome := Stops Deadlock |}.
Proof.
  refine (emit_blocks_without_capacity Example.maxWait false
            (final afterNoCapacity) 5 _ _).
  - exact afterNoCapacity_reachable.
  - vm_compute. discriminate.
Defined.

Lemma emit_queues_behind_witness :
  StdMap.find 1
    (strandQueues (signal (final (emitSignal 7 (final Example.afterOneStrand)))))
  = Some [Some (Bound 11%nat 5); Some (Bound 11%nat 6); Some (Bound 11%nat 7)].
Proof.
  refine (emit_queues_behind 7 (final Example.afterOneStrand) 1 _ _).
  - vm_compute. repeat constructor.
  - reflexivity.
Defined.

Lemma disconnect_removes_one_witness :
  slotsOf StrandSlots
    (signal (final (disconnectSlot Example.maxWait 1 (final Example.afterFiveSlots))))
  = [] /\
  strandThreads
    (signal (final (disconnectSlot Example.maxWait 1 (final Example.afterFiveSlots))))
  = [].
Proof.
  destruct (disconnect_removes_one Example.maxWait 1 (final Example.afterFiveSlots)
              StrandSlots eq_refl eq_refl) as (Hslots & _ & Hthreads & _).
  split; [exact Hslots | exact Hthreads].
Defined.

Lemma disconnect_all_leaves_nothing_witness :
  disconnectAllSlots Example.maxWait
    (final (disconnectAllSlots Example.maxWait (final Example.afterFiveSlots)))
  = {| final := final (disconnectAllSlots Example.maxWait
                         (final Example.afterFiveSlots));
       events := clearEvents; outcome := Returns tt |}.
Proof.
  exact (proj2 (proj2 (proj2 (disconnect_all_leaves_nothing Example.maxWait
                                (final Example.afterFiveSlots) eq_refl)))).
Defined.

Lemma connect_then_find_witness :
  findSlotMapWithId (wrap32 5)
    (signal (final (connectSlot STRAND 15%nat (final Example.afterFiveSlots))))
  = Some StrandSlots.
Proof.
  refine (proj1 (proj2 (connect_then_find STRAND 15%nat
                          (final Example.afterFiveSlots) 5 _ _ _))).
  - vm_compute. split; [discriminate | reflexivity].
  - intros []; reflexivity.
  - reflexivity.
Defined.

Lemma connect_then_disconnect_witness :
  signal (final (perform Example.maxWait (Disconnect 5)
                   (final (connectSlot STRAND 15%nat (final Example.afterFiveSlots)))))
  = set_currentId 6 (signal (final Example.afterFiveSlots)).
Proof.
  refine (proj1 (proj2 (connect_then_disconnect Example.maxWait STRAND 15%nat
                          (final Example.afterFiveSlots) 5 _ _ _ _))).
  - vm_compute. discriminate.
  - exact afterFiveSlots_in_reach.
  - intros []; reflexivity.
  - reflexivity.
Defined.

Lemma connect_appends_last_witness :
  synchronousSlots
    (signal (final (connectSlot SYNCHRONOUS 15%nat (final Example.afterFiveSlots))))
  = [(0, 10%nat); (4, 14%nat); (5, 15%nat)].
Proof.
  destruct (connect_appends_last Example.maxWait SYNCHRONOUS 15%nat
              (final Example.afterFiveSlots) 5) as [Hlast Hbelow].
  refine (Hlast _ eq_refl SynchronousSlots).
  apply (Hbelow false 2 Example.fiveSlots (events Example.afterFiveSlots)
           [0; 1; 2; 3; 4] afterFiveSlots_run).
  vm_compute. reflexivity.
Defined.

Lemma connect_keeps_existing_witness :
  StdMap.find 4
    (slotsOf SynchronousSlots
       (signal (final (connectSlot SYNCHRONOUS 15%nat (final Example.afterFiveSlots)))))
  = Some 14%nat.
Proof.
  refine (proj1 (connect_keeps_existing SYNCHRONOUS 15%nat
                   (final Example.afterFiveSlots) _) SynchronousSlots 4 14%nat _).
  - intros []; vm_compute; repeat constructor.
  - reflexivity.
Defined.

Lemma emit_then_disconnect_strand_witness :
  events (disconnectSlot Example.maxWait 1
            (final (emitSignal 7 (final Example.afterOneStrand))))
  = [EvEnqueue 1 None;
     EvInvoke (StrandThread 1) 11%nat 5; EvInvoke (StrandThread 1) 11%nat 6;
     EvInvoke (StrandThread 1) 11%nat 7; EvListenerExit 1; EvJoin 1;
     EvEraseThread 1; EvEraseQueue 1; EvEraseSlot StrandSlots 1].
Proof.
  refine (proj2 (emit_then_disconnect_strand Example.maxWait
                   (final Example.afterOneStrand) 7 1 11%nat _ _ _ _ _)).
  - vm_compute. discriminate.
  - exact Example.afterOneStrand_reachable.
  - reflexivity.
  - reflexivity.
  - reflexivity.
Defined.

Lemma disconnect_returns_witness :
  outcome (disconnectSlot Example.maxWait 1 (final Example.afterOneStrand))
  = Returns tt.
Proof.
  refine (proj1 (disconnect_returns Example.maxWait (final Example.afterOneStrand)
                   1 _ _)).
  - vm_compute. discriminate.
  - exact Example.afterOneStrand_reachable.
Defined.

Lemma connect_returns_witness :
  outcome (connectSlot STRAND 15%nat (final Example.afterFiveSlots)) = Returns 5.
Proof.
  refine (proj1 (connect_returns Example.maxWait false 2 Example.fiveSlots
                   (events Example.afterFiveSlots) [0; 1; 2; 3; 4]
                   (final Example.afterFiveSlots) STRAND 15%nat
                   afterFiveSlots_run _)).
  vm_compute. reflexivity.
Defined.

Lemma connect_then_emit_witness :
  In (EvEnqueue 5 (Some (Bound 15%nat 7)))
     (events (emitSignal 7
                (final (connectSlot STRAND 15%nat (final Example.afterFiveSlots))))).
Proof.
  refine (proj1 (proj2 (connect_then_emit Example.maxWait false 2
                          (final Example.afterFiveSlots) STRAND 15%nat 5 7
                          _ _ _ _))).
  - reflexivity.
  - exact Example.afterFiveSlots_reachable.
  - intros []; reflexivity.
  - reflexivity.
Defined.

Lemma disconnect_then_emit_witness :
  filter byCaller
    (events (emitSignal 7
               (final (disconnectSlot Example.maxWait 1
                         (final Example.afterFiveSlots)))))
  = [EvInvoke Caller 10%nat 7; EvInvoke Caller 14%nat 7;
     EvSemAcquire; EvSpawnDetached 12%nat 7; EvPoolRun (Bound 13%nat 7)].
Proof.
  destruct (disconnect_then_emit Example.maxWait false 2
              (final Example.afterFiveSlots) 1 7)
    as (_ & _ & _ & Hev & _).
  - vm_compute. discriminate.
  - reflexivity.
  - exact Example.afterFiveSlots_reachable.
  - vm_compute. split; [discriminate | reflexivity].
  - refine (reachable_disjoint Example.maxWait false 2 Example.fiveSlots
              [0; 1; 2; 3; 4] _ _).
    + reflexivity.
    + vm_compute. discriminate.
  - rewrite Hev. reflexivity.
Defined.

Lemma strand_connect_after_wrap_witness :
  exists st : @State nat Z,
    (exists evs ids,
       performAll Example.maxWait
         (Connect STRAND 11%nat ::
          connectDisconnect 10%nat 1 (Z.to_nat (UINT32_MOD - 1)))
         (freshState false 2)
       = {| final := st; events := evs; outcome := Returns ids |}) /\
    outcome (connectSlot STRAND 15%nat st) = Stops Terminate.
Proof.
  destruct (proj2 (strand_connect_after_wrap (Args := Z) Example.maxWait)
              false 2 11%nat 10%nat)
    as (st & evs & ids & Hrun & Hc & Hth).
  exists st. split; [now exists evs, ids|].
  apply (proj1 (strand_connect_after_wrap (Args := Z) Example.maxWait)).
  rewrite Hc. exact Hth.
Defined.

End MoreExamples.
